(** * setup-bonsai: the configuration document patcher

    A shallow embedding of [src/util.ts] ([parseXml], [xmlToString]),
    [src/xpath-extra.ts], [src/nuget.ts] and the two document patchers of
    [src/bonsai.ts] ([addPackageSources], [injectPackages]), with the
    properties of the specification proved or refuted against them. *)

From Stdlib Require Import NArith List Ascii String Lia Bool Sorted.
From stdpp Require Import base list gmap.
Import ListNotations.
#[local] Set Warnings "-register-all".

(** ** JavaScript strings

    A JavaScript string is a sequence of UTF-16 code units. *)

Abbreviation jschar := N (only parsing).
Abbreviation jsstring := (list N) (only parsing).

(** The code units of an ASCII literal. *)
Definition js (s : string) : jsstring :=
  List.map N_of_ascii (list_ascii_of_string s).

Module JsString.

Definition BOM : jschar := 0xFEFF%N.
Definition LF : jschar := 10%N.
Definition CR : jschar := 13%N.

Definition eqb (a b : jsstring) : bool := bool_decide (a = b).

(** [s.startsWith(p)] *)
Fixpoint startsWith (s p : jsstring) {struct p} : bool :=
  match p, s with
  | [], _ => true
  | _ :: _, [] => false
  | a :: p', b :: s' => N.eqb a b && startsWith s' p'
  end.

(** [s.endsWith(p)] *)
Definition endsWith (s p : jsstring) : bool :=
  startsWith (rev s) (rev p).

(** [s.replaceAll(pat, rep)]: the occurrences of [pat] are found from left
    to right and do not overlap.  [skip] counts the code units of the
    occurrence being replaced that are still to be dropped. *)
Fixpoint replaceAll_from (pat rep : jsstring) (skip : nat) (s : jsstring) : jsstring :=
  match s with
  | [] => []
  | c :: rest =>
      match skip with
      | S k => replaceAll_from pat rep k rest
      | O =>
          if startsWith s pat
          then rep ++ replaceAll_from pat rep (length pat - 1) rest
          else c :: replaceAll_from pat rep 0 rest
      end
  end.

Definition replaceAll (s pat rep : jsstring) : jsstring :=
  match pat with
  | [] => rep ++ flat_map (fun c => c :: rep) s
  | _ :: _ => replaceAll_from pat rep 0 s
  end.

(** [s.match(/\r?\n/)]: the leftmost match of an optional carriage return
    followed by a line feed; [None] is JavaScript's [null]. *)
Fixpoint match_eol (s : jsstring) : option jsstring :=
  match s with
  | [] => None
  | c :: rest =>
      if N.eqb c CR then
        match rest with
        | d :: _ => if N.eqb d LF then Some [CR; LF] else match_eol rest
        | [] => None
        end
      else if N.eqb c LF then Some [LF]
      else match_eol rest
  end.

(** [toUpperCase] and [toLowerCase].  In a string of ASCII code units the
    Latin letters are mapped and every other code unit is left as it is.  A
    string with a code unit outside ASCII is converted by the Unicode tables
    of the JavaScript engine, which [CaseMapping] stands for. *)
Definition upper_char (c : jschar) : jschar :=
  if (N.leb 97 c && N.leb c 122)%bool then (c - 32)%N else c.
Definition lower_char (c : jschar) : jschar :=
  if (N.leb 65 c && N.leb c 90)%bool then (c + 32)%N else c.

Class CaseMapping : Type := {
  unicodeUpperCase : jsstring -> jsstring;
  unicodeLowerCase : jsstring -> jsstring
}.

Definition isAscii (s : jsstring) : bool := forallb (fun c => N.ltb c 128) s.

Definition toUpperCase {unicode : CaseMapping} (s : jsstring) : jsstring :=
  if isAscii s then List.map upper_char s else unicodeUpperCase s.
Definition toLowerCase {unicode : CaseMapping} (s : jsstring) : jsstring :=
  if isAscii s then List.map lower_char s else unicodeLowerCase s.

(** An engine whose tables map no code unit outside ASCII: the engine of the
    examples, all of which are written in ASCII. *)
Definition asciiOnly : CaseMapping :=
  {| unicodeUpperCase := List.map upper_char; unicodeLowerCase := List.map lower_char |}.

End JsString.

(** ** Errors

    Every [throw] of the sources is a constructor; the payload is what the
    message of the source interpolates. *)

Inductive Error : Type :=
  (* @xmldom/xmldom *)
  | ParseError
  | NotFoundError
  (* xpath-extra.ts *)
  | ExpectedNodeSet (got : jsstring)
  | ExpectedElements (got : jsstring)
  | ExpectedNode (expected got : jsstring)
  | UnexpectedNodeKind (expected got : jsstring)
  | NonsensicalResult (expected : jsstring)
  | OrphanedNode (nodeName : jsstring)
  (* nuget.ts *)
  | MissingName
  | MissingUrl
  (* bonsai.ts, addPackageSources *)
  | NoSources
  | MissingPackageSources
  | AssertionError
  | DuplicateSourceName (name : jsstring)
  | UnexpectedNode (nodeName : jsstring)
  | MissingSourceName
  | UpdateNotEnabled (name url : jsstring) (oldUrl : option jsstring)
  (* bonsai.ts, injectPackages *)
  | MissingPackages.

Inductive Result (A : Type) : Type :=
  | Ok (a : A)
  | Throw (e : Error).
Arguments Ok {A} a.
Arguments Throw {A} e.

Definition bind {A B : Type} (r : Result A) (k : A -> Result B) : Result B :=
  match r with
  | Ok a => k a
  | Throw e => Throw e
  end.

Notation "'do' x <- r ; k" := (bind r (fun x => k))
  (at level 10, x name, r at level 100, k at level 200).
Notation "'do' ' p <- r ; k" := (bind r (fun x => let 'p := x in k))
  (at level 10, p pattern, r at level 100, k at level 200).

(** ** The document tree of @xmldom/xmldom

    The node kinds the parser produces for a configuration file.  The three
    properties [parseXml] attaches to the document object are the [extra]
    field of [Document].  An element and an attribute carry, next to their
    qualified name, the [namespaceURI] the parser resolved their prefix to:
    [None] for [null] and [undefined], as on a node made with
    [createElement] or [setAttribute]. *)

Module Dom.

Record Expando : Type := {
  hadBom : bool;            (* $___setupBonsaiHadBom *)
  endsWithNewLine : bool;   (* $___setupBonsaiEndsWithNewLine *)
  lineEndings : jsstring    (* $___setupBonsaiLineEndings *)
}.

Record Attr : Type := {
  namespaceURI : option jsstring;
  name : jsstring;
  value : jsstring
}.

Inductive Node : Type :=
  | Document (extra : option Expando) (childNodes : list Node)
  | Element (namespaceURI : option jsstring) (nodeName : jsstring)
            (attributes : list Attr) (childNodes : list Node)
  | Text (data : jsstring)
  | CDATASection (data : jsstring)
  | Comment (data : jsstring)
  | ProcessingInstruction (target data : jsstring).

Definition ELEMENT_NODE : N := 1.
Definition ATTRIBUTE_NODE : N := 2.
Definition TEXT_NODE : N := 3.
Definition CDATA_SECTION_NODE : N := 4.
Definition ENTITY_REFERENCE_NODE : N := 5.
Definition ENTITY_NODE : N := 6.
Definition PROCESSING_INSTRUCTION_NODE : N := 7.
Definition COMMENT_NODE : N := 8.
Definition DOCUMENT_NODE : N := 9.
Definition DOCUMENT_TYPE_NODE : N := 10.
Definition DOCUMENT_FRAGMENT_NODE : N := 11.
Definition NOTATION_NODE : N := 12.

Definition nodeType (n : Node) : N :=
  match n with
  | Document _ _ => DOCUMENT_NODE
  | Element _ _ _ _ => ELEMENT_NODE
  | Text _ => TEXT_NODE
  | CDATASection _ => CDATA_SECTION_NODE
  | Comment _ => COMMENT_NODE
  | ProcessingInstruction _ _ => PROCESSING_INSTRUCTION_NODE
  end.

Definition children (n : Node) : list Node :=
  match n with
  | Document _ cs | Element _ _ _ cs => cs
  | _ => []
  end.

Definition extraOf (n : Node) : option Expando :=
  match n with
  | Document e _ => e
  | _ => None
  end.

End Dom.

(** ** util.ts *)

Inductive Platform : Type := posix | win32.

(** [os.EOL] *)
Definition os_EOL (pf : Platform) : jsstring :=
  match pf with
  | posix => [JsString.LF]
  | win32 => [JsString.CR; JsString.LF]
  end.

Module Util.
Import JsString Dom.

Section Xmldom.
(** [new DOMParser().parseFromString(xml, MIME_TYPE.XML_TEXT)]: the
    children of the parsed document, [None] when the parser throws. *)
Variable parseFromString : jsstring -> option (list Node).
(** [new XMLSerializer().serializeToString(xml)] *)
Variable serializeToString : Node -> jsstring.
Variable pf : Platform.

Definition parseXml (xml : jsstring) : Result Node :=
  let hadBom := match xml with c :: _ => N.eqb c BOM | [] => false end in
  let xml := if hadBom then drop 1 xml else xml in
  match parseFromString xml with
  | None => Throw ParseError
  | Some result =>
      let eol := match_eol xml in
      Ok (Document
            (Some {| hadBom := hadBom;
                     endsWithNewLine := endsWith xml [LF];
                     lineEndings := match eol with Some e => e | None => os_EOL pf end |})
            result)
  end.

Definition xmlToString (xml : Node) : jsstring :=
  let result := serializeToString xml in
  let result := replaceAll result (js "/>") (js " />") in
  let extra := extraOf xml in
  let result :=
    if match extra with Some e => hadBom e | None => false end
    then BOM :: result else result in
  let result :=
    if match extra with Some e => endsWithNewLine e | None => false end
    then result ++ [LF] else result in
  if match extra with Some e => eqb (lineEndings e) [CR; LF] | None => false end
  then replaceAll result [LF] [CR; LF]
  else result.

(** [Serialize(Parse(text))] *)
Definition roundTrip (text : jsstring) : Result jsstring :=
  do doc <- parseXml text; Ok (xmlToString doc).

End Xmldom.

End Util.

(** ** The subset of XPath 1.0 the selectors of the sources use

    The selectors are written in the sources as strings handed to the xpath
    package; here each is its parsed form.  A node of a result is a [Hit]: the
    node (or attribute) together with its place below the context node, the
    list of child indices leading to it.  Document order is the order of the
    places. *)

Module XPath.
Import JsString Dom.

Abbreviation Path := (list nat) (only parsing).

Inductive Hit : Type :=
  | HNode (loc : Path) (node : Node)
  | HAttr (owner : Path) (index : nat) (attr : Attr).

Definition hitType (h : Hit) : N :=
  match h with
  | HNode _ n => nodeType n
  | HAttr _ _ _ => ATTRIBUTE_NODE
  end.

Inductive Axis : Type := child | descendant_or_self | attribute.

Inductive NodeTest : Type :=
  | nameTest (name : jsstring)   (* a name without prefix *)
  | textTest                     (* text() *)
  | anyNode.                     (* node() *)

Inductive StrExpr : Type :=
  | SAttr (name : jsstring)                         (* @name, as a string *)
  | SVar (name : jsstring)                          (* $name *)
  | STranslate (e : StrExpr) (from to : jsstring).  (* translate(e, from, to) *)

Inductive Pred : Type :=
  | PLast                                  (* [last()] *)
  | PAttrEq (name var : jsstring)          (* [@name=$var] *)
  | PStartsWith (a b : StrExpr).           (* [starts-with(a, b)] *)

Record Step : Type := { axis : Axis; test : NodeTest; preds : list Pred }.

Inductive Expr : Type :=
  | ELocationPath (steps : list Step)
  | ELiteral (s : jsstring)
  | ENumber (n : N)
  | ECompare (name var : jsstring).   (* @name=$var as a whole expression *)

Inductive EvaluateResult : Type :=
  | XString (s : jsstring)
  | XNumber (n : N)
  | XBoolean (b : bool)
  | XNodeSet (nodes : list Hit).

(** The name of the class of a result ([result.constructor.name]). *)
Definition constructorName (r : EvaluateResult) : jsstring :=
  match r with
  | XString _ => js "XString"
  | XNumber _ => js "XNumber"
  | XBoolean _ => js "XBoolean"
  | XNodeSet _ => js "XNodeSet"
  end.

Definition Variables : Type := gmap (list N) (list N).

(** *** Axes *)

Definition childHits (h : Hit) : list Hit :=
  match h with
  | HNode p n => imap (fun i c => HNode (p ++ [i]) c) (children n)
  | HAttr _ _ _ => []
  end.

Definition attributeHits (h : Hit) : list Hit :=
  match h with
  | HNode p (Element _ _ attrs _) => imap (fun i a => HAttr p i a) attrs
  | _ => []
  end.

Fixpoint subtreeHits (p : Path) (n : Node) {struct n} : list Hit :=
  HNode p n ::
  match n with
  | Document _ cs | Element _ _ _ cs =>
      (fix go (i : nat) (cs : list Node) {struct cs} : list Hit :=
         match cs with
         | [] => []
         | c :: cs' => subtreeHits (p ++ [i]) c ++ go (S i) cs'
         end) 0 cs
  | _ => []
  end.

Definition axisHits (a : Axis) (h : Hit) : list Hit :=
  match a with
  | child => childHits h
  | attribute => attributeHits h
  | descendant_or_self =>
      match h with
      | HNode p n => subtreeHits p n
      | HAttr _ _ _ => [h]
      end
  end.

(** [l.indexOf(c)] *)
Fixpoint indexOf (c : jschar) (l : jsstring) : option nat :=
  match l with
  | [] => None
  | d :: l' => if N.eqb d c then Some 0 else option_map S (indexOf c l')
  end.

(** *** Node tests

    A name test of the selectors has no prefix.  With the evaluation options
    [isHtml] and [allowAnyNamespaceForNoPrefix] of xpath-extra.ts it selects
    the elements and the attributes that have no namespace or no prefix and
    whose local name is the name of the test, whatever the case of the
    letters.  [text()] selects text and CDATA nodes. *)

(** [NodeTest.hasPrefix]: the qualified name has a colon. *)
Definition hasPrefix (qname : jsstring) : bool := existsb (N.eqb 58) qname.

(** The [localName] the parser gives a node: what follows the first colon of
    the qualified name, the whole name when it has none or starts with it. *)
Definition localName (qname : jsstring) : jsstring :=
  match qname with
  | [] => []
  | c :: rest =>
      if N.eqb c 58 then qname
      else match indexOf 58 rest with
           | Some i => drop (S i) rest
           | None => qname
           end
  end.

(** [NodeTest.nameSpaceMatches] for a test without prefix *)
Definition nameSpaceMatches (namespaceURI : option jsstring) (qname : jsstring) : bool :=
  match namespaceURI with
  | Some (_ :: _) => negb (hasPrefix qname)
  | _ => true
  end.

Section Engine.
Context {unicode : CaseMapping}.

Definition sameName (a b : jsstring) : bool :=
  eqb (toLowerCase a) (toLowerCase b).

(** [NodeTest.localNameMatches]: the name compared is [n.localName ||
    n.nodeName]. *)
Definition localNameMatches (nm qname : jsstring) : bool :=
  sameName nm (match localName qname with [] => qname | l => l end).

Definition nameMatches (nm : jsstring) (namespaceURI : option jsstring) (qname : jsstring)
  : bool :=
  nameSpaceMatches namespaceURI qname && localNameMatches nm qname.

Definition testHit (t : NodeTest) (h : Hit) : bool :=
  match t, h with
  | anyNode, _ => true
  | textTest, HNode _ (Text _) => true
  | textTest, HNode _ (CDATASection _) => true
  | textTest, _ => false
  | nameTest nm, HNode _ (Element ns qn _ _) => nameMatches nm ns qn
  | nameTest nm, HAttr _ _ at_ => nameMatches nm (namespaceURI at_) (name at_)
  | nameTest _, _ => false
  end.

(** *** Predicates *)

(** [translate(s, from, to)] *)
Definition translate (s from to : jsstring) : jsstring :=
  flat_map (fun c =>
              match indexOf c from with
              | None => [c]
              | Some i => match to !! i with Some d => [d] | None => [] end
              end) s.

(** The values of the attributes [@nm] of a node, in document order. *)
Definition attrValues (nm : jsstring) (h : Hit) : list jsstring :=
  flat_map (fun a => match a with HAttr _ _ at_ => [value at_] | _ => [] end)
           (List.filter (testHit (nameTest nm)) (attributeHits h)).

(** The value of a variable.  Every call of the sources declares the
    variables of its expression; one that is not declared is read as the
    empty string here (the xpath package throws for it). *)
Definition variable (vars : Variables) (nm : jsstring) : jsstring :=
  default [] (vars !! nm).

Fixpoint strValue (vars : Variables) (e : StrExpr) (h : Hit) : jsstring :=
  match e with
  | SAttr nm => default [] (head (attrValues nm h))
  | SVar nm => variable vars nm
  | STranslate e' from to => translate (strValue vars e' h) from to
  end.

(** A node set equals a string when one of its nodes has that string value. *)
Definition attrEq (vars : Variables) (nm var : jsstring) (h : Hit) : bool :=
  existsb (fun v => eqb v (variable vars var)) (attrValues nm h).

Definition applyPred (vars : Variables) (pr : Pred) (candidates : list Hit) : list Hit :=
  match pr with
  | PLast => match last candidates with Some h => [h] | None => [] end
  | PAttrEq nm var => List.filter (attrEq vars nm var) candidates
  | PStartsWith a b =>
      List.filter (fun h => startsWith (strValue vars a h) (strValue vars b h)) candidates
  end.

(** *** Location paths *)

Definition applyStep (vars : Variables) (st : Step) (h : Hit) : list Hit :=
  fold_left (fun l pr => applyPred vars pr l) (preds st)
            (List.filter (testHit (test st)) (axisHits (axis st) h)).

Definition evalSteps (vars : Variables) (steps : list Step) (context : list Hit) : list Hit :=
  fold_left (fun hits st => flat_map (applyStep vars st) hits) steps context.

(** Document order. *)
Fixpoint comparePath (p q : Path) : comparison :=
  match p, q with
  | [], [] => Eq
  | [], _ :: _ => Lt
  | _ :: _, [] => Gt
  | i :: p', j :: q' =>
      match Nat.compare i j with
      | Eq => comparePath p' q'
      | c => c
      end
  end.

(** [isPrefix p q]: [p] is a proper prefix of [q]. *)
Fixpoint isPrefix (p q : Path) : bool :=
  match p, q with
  | [], _ :: _ => true
  | i :: p', j :: q' => Nat.eqb i j && isPrefix p' q'
  | _, _ => false
  end.

Definition compareHit (a b : Hit) : comparison :=
  match a, b with
  | HNode p _, HNode q _ => comparePath p q
  | HNode p _, HAttr q _ _ =>
      match comparePath p q with Eq => Lt | c => c end
  | HAttr p _ _, HNode q _ =>
      if isPrefix p q then Lt
      else match comparePath p q with Eq => Gt | c => c end
  | HAttr p i _, HAttr q j _ =>
      match comparePath p q with
      | Eq => Nat.compare i j
      | c => if isPrefix p q then Lt else if isPrefix q p then Gt else c
      end
  end.

(** Insertion into a node set: a node already in the set is not added. *)
Fixpoint addHit (h : Hit) (set : list Hit) : list Hit :=
  match set with
  | [] => [h]
  | x :: rest =>
      match compareHit h x with
      | Lt => h :: set
      | Eq => set
      | Gt => x :: addHit h rest
      end
  end.

Definition docOrder (hits : list Hit) : list Hit :=
  fold_left (fun set h => addHit h set) hits [].

(** [expression.evaluate({ node, variables, isHtml: true, ... })].  The
    selectors that start at the root ([//...]) are evaluated at the document. *)
Definition evaluate (e : Expr) (vars : Variables) (node : Node) : EvaluateResult :=
  match e with
  | ELocationPath steps => XNodeSet (docOrder (evalSteps vars steps [HNode [] node]))
  | ELiteral s => XString s
  | ENumber n => XNumber n
  | ECompare nm var => XBoolean (attrEq vars nm var (HNode [] node))
  end.

End Engine.

(** [//a/b/...]: the abbreviation of [/descendant-or-self::node()/a/b/...] *)
Definition anywhere : Step :=
  {| axis := descendant_or_self; test := anyNode; preds := [] |}.
Definition childNamed (nm : string) (prs : list Pred) : Step :=
  {| axis := child; test := nameTest (js nm); preds := prs |}.
Definition childText : Step :=
  {| axis := child; test := textTest; preds := [] |}.
(** [@name] *)
Definition attr (nm : string) : Expr :=
  ELocationPath [{| axis := attribute; test := nameTest (js nm); preds := [] |}].

End XPath.

(** ** Places in a document that changes

    The sources hold on to nodes while the document is edited.  A node held is
    a [Place]: where it stands in the document now, or that it has left the
    document, as the root of what was removed ([Detached true], its
    [parentNode] is [null]) or below such a root ([Detached false]).  Every
    edit says how the places held move. *)

Module Tree.
Import Dom.

Abbreviation Path := (list nat) (only parsing).

Fixpoint lookup (root : Node) (p : Path) : option Node :=
  match p with
  | [] => Some root
  | i :: p' =>
      match children root !! i with
      | Some c => lookup c p'
      | None => None
      end
  end.

Definition setChildren (n : Node) (cs : list Node) : Node :=
  match n with
  | Document e _ => Document e cs
  | Element ns nm attrs _ => Element ns nm attrs cs
  | other => other
  end.

(** Rewrite the list of children of the node at [p]. *)
Fixpoint updateAt (root : Node) (p : Path) (f : list Node -> list Node) : Node :=
  match p with
  | [] => setChildren root (f (children root))
  | i :: p' =>
      match children root !! i with
      | Some c => setChildren root (<[i := updateAt c p' f]> (children root))
      | None => root
      end
  end.

(** A path as its parent and the index below it. *)
Definition splitLast (p : Path) : option (Path * nat) :=
  match last p with
  | Some k => Some (removelast p, k)
  | None => None
  end.

Inductive Place : Type :=
  | Attached (p : Path)
  | Detached (orphan : bool).

Inductive Edit : Type :=
  | Removed (parent : Path) (first count : nat)   (* children first .. first+count-1 *)
  | Inserted (parent : Path) (index count : nat). (* count children before index *)

(** [below parent p]: the index under [parent] through which [p] passes, and
    the rest of [p]. *)
Fixpoint below (parent p : Path) : option (nat * Path) :=
  match parent, p with
  | [], j :: rest => Some (j, rest)
  | i :: parent', j :: p' => if Nat.eqb i j then below parent' p' else None
  | _, [] => None
  end.

Definition relocate (e : Edit) (pl : Place) : Place :=
  match pl with
  | Detached o => Detached o
  | Attached p =>
      match e with
      | Removed parent first count =>
          match below parent p with
          | Some (j, rest) =>
              if Nat.ltb j first then pl
              else if Nat.ltb j (first + count) then
                     Detached (match rest with [] => true | _ => false end)
              else Attached (parent ++ (j - count) :: rest)
          | None => pl
          end
      | Inserted parent index count =>
          match below parent p with
          | Some (j, rest) =>
              if Nat.ltb j index then pl else Attached (parent ++ (j + count) :: rest)
          | None => pl
          end
      end
  end.

End Tree.

(** ** xpath-extra.ts *)

Module XPathExtra.
Import JsString Dom XPath Tree.

(** The decimal digits of a number, for [`nodeType_${nodeType}`]. *)
Fixpoint digits (fuel : nat) (n : N) (acc : jsstring) : jsstring :=
  match fuel with
  | O => acc
  | S fuel' =>
      let acc' := (48 + n mod 10)%N :: acc in
      if N.ltb n 10 then acc' else digits fuel' (n / 10)%N acc'
  end.
Definition decimal (n : N) : jsstring := digits (S (N.to_nat n)) n [].

Definition nodeTypeToString (nodeType : N) : jsstring :=
  match nodeType with
  | 1%N => js "element"
  | 2%N => js "attribute"
  | 3%N => js "text node"
  | 4%N => js "CDATA section"
  | 7%N => js "processing instruction"
  | 8%N => js "comment"
  | 9%N => js "document"
  | 10%N => js "doctype"
  | 11%N => js "document fragment"
  | 5%N => js "entity reference (deprecated)"
  | 6%N => js "entity node (deprecated)"
  | 12%N => js "notation node (deprecated)"
  | _ => js "nodeType_" ++ decimal nodeType
  end.

(** [SelectOptions]: the variables of the expression, none when left out. *)
Definition SelectOptions : Type := Variables.

Section Engine.
Context {unicode : CaseMapping}.

Definition selectNodeSet (expression : Expr) (node : Node) (selectOptions : SelectOptions)
  : EvaluateResult :=
  evaluate expression selectOptions node.

Definition selectElements (expression : Expr) (node : Node) (options : SelectOptions)
  : Result (list Hit) :=
  match selectNodeSet expression node options with
  | XNodeSet nodes =>
      match List.find (fun n => negb (N.eqb (hitType n) ELEMENT_NODE)) nodes with
      | Some badNode => Throw (ExpectedElements (nodeTypeToString (hitType badNode)))
      | None => Ok nodes
      end
  | result => Throw (ExpectedNodeSet (constructorName result))
  end.

(** [expectedType] is [None] for JavaScript's [null]. *)
Definition checkedSelect1 (expression : Expr) (node : Node) (expectedType : option N)
    (selectOptions : SelectOptions) : Result (option Hit) :=
  let expected :=
    match expectedType with
    | None => js "node"
    | Some t => nodeTypeToString t
    end in
  match selectNodeSet expression node selectOptions with
  | XNodeSet nodes =>
      match head nodes with    (* result.first() *)
      | None => Ok None
      | Some resultNode =>
          if match expectedType with
             | None => true
             | Some t => N.eqb (hitType resultNode) t
             end
          then Ok (Some resultNode)
          else if negb (N.eqb (hitType resultNode) 0)
          then Throw (UnexpectedNodeKind expected (nodeTypeToString (hitType resultNode)))
          else Throw (NonsensicalResult expected)
      end
  | result => Throw (ExpectedNode expected (constructorName result))
  end.

Definition select1Node (expression : Expr) (node : Node) (options : SelectOptions) :=
  checkedSelect1 expression node None options.

Definition select1Attribute (expression : Expr) (node : Node) (options : SelectOptions) :=
  checkedSelect1 expression node (Some ATTRIBUTE_NODE) options.

Definition select1Element (expression : Expr) (node : Node) (options : SelectOptions) :=
  checkedSelect1 expression node (Some ELEMENT_NODE) options.

Definition select1Text (expression : Expr) (node : Node) (options : SelectOptions) :=
  checkedSelect1 expression node (Some TEXT_NODE) options.

(** [select1Attribute(expression, node)?.nodeValue] *)
Definition attributeValue (expression : Expr) (node : Node) : Result (option jsstring) :=
  do a <- select1Attribute expression node ∅;
  Ok (match a with
      | Some (HAttr _ _ at_) => Some (value at_)
      | _ => None
      end).

End Engine.

(** [smartRemove(node)] on the document [doc], for a [node] held at [place].
    The result is the document and the edit made to it, if any: a node below
    a removed root is taken out of what was removed, not out of the document. *)
Definition smartRemove (doc : Node) (place : Place) (nodeName : jsstring)
  : Result (Node * option Edit) :=
  match place with
  | Detached true => Throw (OrphanedNode nodeName)
  | Detached false => Ok (doc, None)
  | Attached p =>
      match splitLast p with
      | None => Throw (OrphanedNode nodeName)
      | Some (parent, k) =>
          let siblings := default [] (children <$> lookup doc parent) in
          let textSibling :=
            match k with
            | O => false
            | S k' => match siblings !! k' with
                      | Some (Text _) => true
                      | _ => false
                      end
            end in
          let first := if textSibling then k - 1 else k in
          let count := if textSibling then 2 else 1 in
          Ok (updateAt doc parent (fun cs => take first cs ++ drop (first + count) cs),
              Some (Removed parent first count))
      end
  end.

End XPathExtra.

(** ** nuget.ts *)

Module NuGet.

Record NuGetPackageSource : Type := {
  name : jsstring;
  url : jsstring;
  allowUpdate : bool
}.

(** The constructor of [NuGetPackageSource]. *)
Definition newNuGetPackageSource (name url : jsstring) (allowUpdate : bool)
  : Result NuGetPackageSource :=
  match name, url with
  | [], _ => Throw MissingName
  | _, [] => Throw MissingUrl
  | _, _ => Ok {| name := name; url := url; allowUpdate := allowUpdate |}
  end.

(** A local package, as far as [injectPackages] reads it: [version] is the
    text [version.toString()] gives. *)
Record LocalNuGetPackage : Type := {
  id : jsstring;
  version : jsstring
}.

End NuGet.

(** ** Node's [path] module

    For the paths [injectPackages] builds: the root of an environment is an
    absolute, normalized directory, kept as the list of its segments. *)

Module NodePath.
Import JsString.

Definition sep (pf : Platform) : jschar :=
  match pf with posix => 47%N | win32 => 92%N end.

Definition isSeparator (pf : Platform) (c : jschar) : bool :=
  N.eqb c 47 || match pf with posix => false | win32 => N.eqb c 92 end.

(** The segments of a path; [cur] is the segment being read, reversed. *)
Fixpoint segments (pf : Platform) (s : jsstring) (cur : jsstring) : list jsstring :=
  match s with
  | [] => [rev cur]
  | c :: rest =>
      if isSeparator pf c then rev cur :: segments pf rest []
      else segments pf rest (c :: cur)
  end.

Definition normalizeOnto (base : list jsstring) (segs : list jsstring) : list jsstring :=
  fold_left (fun acc seg =>
               if eqb seg [] || eqb seg (js ".") then acc
               else if eqb seg (js "..") then removelast acc
               else acc ++ [seg])
            segs base.

(** [path.join(base, rel)] *)
Definition join (pf : Platform) (base : list jsstring) (rel : jsstring) : list jsstring :=
  normalizeOnto base (segments pf rel []).

Section Engine.
Context {unicode : CaseMapping}.

Definition sameSegment (pf : Platform) (a b : jsstring) : bool :=
  match pf with
  | posix => eqb a b
  | win32 => eqb (toLowerCase a) (toLowerCase b)
  end.

Fixpoint relativeSegments (pf : Platform) (from to : list jsstring) : list jsstring :=
  match from, to with
  | a :: from', b :: to' =>
      if sameSegment pf a b then relativeSegments pf from' to'
      else List.map (fun _ => js "..") from ++ to
  | _, _ => List.map (fun _ => js "..") from ++ to
  end.

Fixpoint joinWith (s : jschar) (segs : list jsstring) : jsstring :=
  match segs with
  | [] => []
  | [a] => a
  | a :: rest => a ++ s :: joinWith s rest
  end.

(** [path.relative(from, to)] *)
Definition relative (pf : Platform) (from to : list jsstring) : jsstring :=
  joinWith (sep pf) (relativeSegments pf from to).

End Engine.

End NodePath.

(** ** bonsai.ts *)

Module Bonsai.
Import JsString Dom XPath Tree XPathExtra.

(** The files and directories of the environment [BonsaiEnvironment] works
    on: the text of NuGet.config and of Bonsai.config, and the directories
    that exist.  The modification log is not among them: in a debug run
    [logFileModificationIntent] copies the file about to be edited below the
    temporary directory of the runner, before the file is read, and writes
    nowhere else. *)
Record FileSystem : Type := {
  nugetConfig : jsstring;
  bonsaiConfig : jsstring;
  directories : list (list jsstring)
}.

Definition existsSync (fs : list (list jsstring)) (p : list jsstring) : bool :=
  bool_decide (p ∈ fs).

(** [fs.rmSync(p, { recursive: true })] *)
Definition rmSync (fs : list (list jsstring)) (p : list jsstring) : list (list jsstring) :=
  List.filter (fun d => negb (bool_decide (p `prefix_of` d))) fs.

Definition packageSourcesSelector : Expr :=   (* //configuration/packageSources *)
  ELocationPath [anywhere; childNamed "configuration" []; childNamed "packageSources" []].
Definition packageSourcesIndentSelector : Expr :=   (* //configuration/packageSources/text() *)
  ELocationPath [anywhere; childNamed "configuration" []; childNamed "packageSources" [];
                 childText].
Definition lastClearSourceSelector : Expr :=   (* //configuration/packageSources/clear[last()] *)
  ELocationPath [anywhere; childNamed "configuration" []; childNamed "packageSources" [];
                 childNamed "clear" [PLast]].

Definition packageSelector : Expr :=
  (* //PackageConfiguration/Packages/Package[@id=$packageId] *)
  ELocationPath [anywhere; childNamed "PackageConfiguration" []; childNamed "Packages" [];
                 childNamed "Package" [PAttrEq (js "id") (js "packageId")]].
Definition bonsaiConfigPackagesSelector : Expr :=   (* //PackageConfiguration/Packages *)
  ELocationPath [anywhere; childNamed "PackageConfiguration" []; childNamed "Packages" []].
Definition bonsaiConfigPackagesIndentSelector : Expr :=
  (* //PackageConfiguration/Packages/text() *)
  ELocationPath [anywhere; childNamed "PackageConfiguration" []; childNamed "Packages" [];
                 childText].
Definition assemblyLocationsByPackageLocationSelector : Expr :=
  (* //PackageConfiguration/AssemblyLocations/AssemblyLocation
       [starts-with(translate(@location, "\", "/"), $packageLocation)] *)
  ELocationPath [anywhere; childNamed "PackageConfiguration" [];
                 childNamed "AssemblyLocations" [];
                 childNamed "AssemblyLocation"
                   [PStartsWith (STranslate (SAttr (js "location")) [92%N] [47%N])
                                (SVar (js "packageLocation"))]].
Definition libraryFolderByPackageLocationSelector : Expr :=
  (* //PackageConfiguration/LibraryFolders/LibraryFolder
       [starts-with(translate(@path, "\", "/"), $packageLocation)] *)
  ELocationPath [anywhere; childNamed "PackageConfiguration" [];
                 childNamed "LibraryFolders" [];
                 childNamed "LibraryFolder"
                   [PStartsWith (STranslate (SAttr (js "path")) [92%N] [47%N])
                                (SVar (js "packageLocation"))]].
Definition assemblyReferencesByNameSelector : Expr :=
  (* //PackageConfiguration/AssemblyReferences/AssemblyReference[@assemblyName=$assemblyName] *)
  ELocationPath [anywhere; childNamed "PackageConfiguration" [];
                 childNamed "AssemblyReferences" [];
                 childNamed "AssemblyReference"
                   [PAttrEq (js "assemblyName") (js "assemblyName")]].

(** [doc.createElement(name)] followed by [setAttribute] for each attribute *)
Definition createElement (nm : string) (attrs : list (string * jsstring)) : Node :=
  Element None (js nm)
    (List.map (fun kv => {| namespaceURI := None; name := js (fst kv); value := snd kv |})
       attrs) [].

(** [node.cloneNode()], without the children *)
Definition cloneNode (n : Node) : Node := setChildren n [].

(** The indentation to copy: the text node the selector finds, or a new one. *)
Definition referenceIndentation {unicode : CaseMapping} (selector : Expr) (doc : Node)
  : Result Node :=
  do found <- select1Text selector doc ∅;
  Ok (match found with
      | Some (HNode _ t) => t
      | _ => Text (10%N :: js "    ")
      end).

(** A value read as a condition: [undefined] and the empty string are false. *)
Definition truthy (v : option jsstring) : bool :=
  match v with
  | Some (_ :: _) => true
  | _ => false
  end.

Section Xmldom.
Context {unicode : CaseMapping}.
Variable parseFromString : jsstring -> option (list Node).
Variable serializeToString : Node -> jsstring.
Variable pf : Platform.

(** *** addPackageSources

    The insertion point is a child of [<packageSources>] or [null], and no
    node is removed: the children of [<packageSources>] are kept as the ones
    before the insertion point, [before], and the ones from it on. *)

Record Merge : Type := {
  before : list Node;
  newSources : gmap (list N) NuGet.NuGetPackageSource
}.

(** One turn of the loop that adds the sources. *)
Definition insertSource (indentation : Node) (st : Merge) (source : NuGet.NuGetPackageSource)
  : Result Merge :=
  match newSources st !! NuGet.name source with
  | Some _ => Throw (DuplicateSourceName (NuGet.name source))
  | None =>
      let newSource :=
        createElement "add"
          [("key"%string, NuGet.name source); ("value"%string, NuGet.url source)] in
      Ok {| before := before st ++ [cloneNode indentation; newSource];
            newSources := <[NuGet.name source := source]> (newSources st) |}
  end.

Fixpoint insertSources (indentation : Node) (st : Merge)
    (sources : list NuGet.NuGetPackageSource) : Result Merge :=
  match sources with
  | [] => Ok st
  | source :: rest =>
      do st' <- insertSource indentation st source;
      insertSources indentation st' rest
  end.

(** One turn of the loop over the nodes from the insertion point on: the
    node that stands at this place afterwards. *)
Definition disableReplaced1 (sources : gmap (list N) NuGet.NuGetPackageSource) (node : Node)
  : Result Node :=
  match node with
  | Element _ nodeName _ _ =>
      if negb (eqb nodeName (js "add")) then Throw (UnexpectedNode nodeName)
      else
        do name <- attributeValue (attr "key") node;
        if negb (truthy name) then Throw MissingSourceName
        else
          match sources !! default [] name with
          | Some newSource =>
              do url <- attributeValue (attr "value") node;
              if negb (NuGet.allowUpdate newSource)
              then Throw (UpdateNotEnabled (NuGet.name newSource) (NuGet.url newSource) url)
              else Ok (Comment (32%N :: Util.xmlToString serializeToString node ++ [32%N]))
          | None => Ok node
          end
  | _ => Ok node
  end.

Fixpoint disableReplaced (sources : gmap (list N) NuGet.NuGetPackageSource)
    (nodes : list Node) : Result (list Node) :=
  match nodes with
  | [] => Ok []
  | node :: rest =>
      do node' <- disableReplaced1 sources node;
      do rest' <- disableReplaced sources rest;
      Ok (node' :: rest')
  end.

(** The two loops, on the children of [<packageSources>]; the insertion
    point is the child at [insertionIndex], or [null] when there is none. *)
Definition mergeChildren (indentation : Node) (insertionIndex : nat) (childNodes : list Node)
    (sources : list NuGet.NuGetPackageSource) : Result (list Node) :=
  do st <- insertSources indentation
             {| before := take insertionIndex childNodes; newSources := ∅ |} sources;
  do rest <- disableReplaced (newSources st) (drop insertionIndex childNodes);
  Ok (before st ++ rest).

(** What [addPackageSources] locates before it edits: [<packageSources>]
    (its place and its children), the indentation to copy, and the index of
    the insertion point among the children. *)
Record Anchors : Type := {
  container : list nat;
  childNodes : list Node;
  indentation : Node;
  insertionIndex : nat
}.

Definition findAnchors (nugetConfig : Node) : Result Anchors :=
  do packageSourcesNode <- select1Element packageSourcesSelector nugetConfig ∅;
  match packageSourcesNode with
  | Some (HNode container (Element _ _ _ childNodes)) =>
      do indentation <- referenceIndentation packageSourcesIndentSelector nugetConfig;
      do lastClear <- select1Element lastClearSourceSelector nugetConfig ∅;
      do insertionIndex <-
        match lastClear with
        | Some (HNode clear _) =>
            (* insertionPoint = lastClear.nextSibling; the assertions hold when
               lastClear is a child of packageSourcesNode *)
            match splitLast clear with
            | Some (parent, k) =>
                if bool_decide (parent = container) then Ok (S k) else Throw AssertionError
            | None => Throw AssertionError
            end
        | _ => Ok 0   (* insertionPoint = packageSourcesNode.firstChild *)
        end;
      Ok {| container := container; childNodes := childNodes;
            indentation := indentation; insertionIndex := insertionIndex |}
  | _ => Throw MissingPackageSources
  end.

(** The edit of the parsed NuGet.config. *)
Definition mergeSources (nugetConfig : Node) (sources : list NuGet.NuGetPackageSource)
  : Result Node :=
  do anchors <- findAnchors nugetConfig;
  do merged <- mergeChildren (indentation anchors) (insertionIndex anchors)
                 (childNodes anchors) sources;
  Ok (updateAt nugetConfig (container anchors) (fun _ => merged)).

Definition addPackageSources (sources : list NuGet.NuGetPackageSource) (fs : FileSystem)
  : FileSystem * Result unit :=
  let newConfig :=
    match sources with
    | [] => Throw NoSources
    | _ :: _ =>
        do nugetConfig <- Util.parseXml parseFromString pf (nugetConfig fs);
        do merged <- mergeSources nugetConfig sources;
        Ok (Util.xmlToString serializeToString merged)
    end in
  match newConfig with
  | Ok text =>
      ({| nugetConfig := text; bonsaiConfig := bonsaiConfig fs;
          directories := directories fs |}, Ok ())
  | Throw e => (fs, Throw e)
  end.

(** *** injectPackages *)

Definition relocateAll (edits : list Edit) (pl : Place) : Place :=
  fold_left (fun pl e => relocate e pl) edits pl.

Definition editOf (e : option Edit) : list Edit :=
  match e with Some e => [e] | None => [] end.

(** [for (const node of nodes) smartRemove(node)], for nodes found in [doc];
    [edits] are the edits made since they were found. *)
Fixpoint removeEach (doc : Node) (nodes : list Hit) (edits : list Edit)
  : Result (Node * list Edit) :=
  match nodes with
  | [] => Ok (doc, edits)
  | HNode loc node :: rest =>
      do '(doc', e) <-
        smartRemove doc (relocateAll edits (Attached loc))
          (match node with Element _ nm _ _ => nm | _ => [] end);
      removeEach doc' rest (edits ++ editOf e)
  | HAttr _ _ _ :: rest => removeEach doc rest edits
  end.

(** The loop over [relatedAssemblyLocations]. *)
Fixpoint removeLocations (doc : Node) (related : list Hit) (edits : list Edit)
  : Result (Node * list Edit) :=
  match related with
  | [] => Ok (doc, edits)
  | HNode loc relatedAssemblyLocation :: rest =>
      do assemblyName <- attributeValue (attr "assemblyName") relatedAssemblyLocation;
      do '(doc1, e) <-
        smartRemove doc (relocateAll edits (Attached loc))
          (match relatedAssemblyLocation with Element _ nm _ _ => nm | _ => [] end);
      do '(doc2, edits2) <-
        if truthy assemblyName then
          do assemblyReferences <-
            selectElements assemblyReferencesByNameSelector doc1
              {[ js "assemblyName" := default [] assemblyName ]};
          removeEach doc1 assemblyReferences []
        else Ok (doc1, []);
      removeLocations doc2 rest (edits ++ editOf e ++ edits2)
  | HAttr _ _ _ :: rest => removeLocations doc rest edits
  end.

(** What [injectPackages] holds while it edits the parsed Bonsai.config. *)
Record Upsert : Type := {
  bonsaiConfigDoc : Node;
  packagesNode : Place;
  insertionPoint : option Place   (* None: insert at the very end *)
}.

Variable rootPath : list jsstring.

Definition packagesPath : list jsstring := NodePath.join pf rootPath (js "Packages").

(** [replacePackagePathLocal] *)
Definition replacePackagePathLocal (replaceId replaceVersion : jsstring) : jsstring :=
  let replacePackagePath := NodePath.join pf packagesPath (replaceId ++ 46%N :: replaceVersion) in
  replaceAll (NodePath.relative pf rootPath replacePackagePath) [92%N] [47%N] ++ [47%N].

(** The clean-up after a package entry was replaced. *)
Definition removeRelated (doc : Node) (packageLocation : jsstring)
  : Result (Node * list Edit) :=
  do relatedAssemblyLocations <-
    selectElements assemblyLocationsByPackageLocationSelector doc
      {[ js "packageLocation" := packageLocation ]};
  do '(doc1, edits1) <- removeLocations doc relatedAssemblyLocations [];
  do relatedLibraryFolders <-
    selectElements libraryFolderByPackageLocationSelector doc1
      {[ js "packageLocation" := packageLocation ]};
  do '(doc2, edits2) <- removeEach doc1 relatedLibraryFolders [];
  Ok (doc2, edits1 ++ edits2).

(** One turn of the loop over the packages.  The directories are part of the
    result also when the turn throws: the package directory is removed
    before the document is edited. *)
Definition injectPackage (indentation : Node) (st : Upsert)
    (nugetPackage : NuGet.LocalNuGetPackage) (dirs : list (list jsstring))
  : list (list jsstring) * Result Upsert :=
  let injectedNode :=
    createElement "Package" [("id"%string, NuGet.id nugetPackage);
                             ("version"%string, NuGet.version nugetPackage)] in
  let bonsaiConfig := bonsaiConfigDoc st in
  match select1Element packageSelector bonsaiConfig
          {[ js "packageId" := NuGet.id nugetPackage ]} with
  | Throw e => (dirs, Throw e)
  | Ok (Some (HNode replaced replaceNode)) =>
      match attributeValue (attr "id") replaceNode,
            attributeValue (attr "version") replaceNode with
      | Ok replaceId, Ok replaceVersion =>
          if negb (truthy replaceId && truthy replaceVersion
                   && eqb (toUpperCase (NuGet.id nugetPackage))
                          (toUpperCase (default [] replaceId)))
          then (dirs, Throw AssertionError)
          else
            let replaceId := default [] replaceId in
            let replaceVersion := default [] replaceVersion in
            let replacePackagePath :=
              NodePath.join pf packagesPath (replaceId ++ 46%N :: replaceVersion) in
            let dirs' :=
              if existsSync dirs replacePackagePath then rmSync dirs replacePackagePath
              else dirs in
            (dirs',
             match packagesNode st, splitLast replaced with
             | Attached container, Some (parent, k) =>
                 if bool_decide (parent = container) then
                   let doc1 :=
                     updateAt bonsaiConfig container (fun cs => <[k := injectedNode]> cs) in
                   do '(doc2, edits) <-
                     removeRelated doc1 (replacePackagePathLocal replaceId replaceVersion);
                   Ok {| bonsaiConfigDoc := doc2;
                         packagesNode := relocateAll edits (packagesNode st);
                         insertionPoint := relocateAll edits <$> insertionPoint st |}
                 else Throw NotFoundError
             | _, _ => Throw NotFoundError
             end)
      | Throw e, _ | _, Throw e => (dirs, Throw e)
      end
  | Ok _ =>
      (dirs,
       match packagesNode st with
       | Attached container =>
           match insertionPoint st with
           | None =>
               Ok {| bonsaiConfigDoc :=
                       updateAt bonsaiConfig container
                         (fun cs => cs ++ [cloneNode indentation; injectedNode]);
                     packagesNode := packagesNode st;
                     insertionPoint := None |}
           | Some (Attached point) =>
               match splitLast point with
               | Some (parent, k) =>
                   if bool_decide (parent = container) then
                     Ok {| bonsaiConfigDoc :=
                             updateAt bonsaiConfig container
                               (fun cs => take k cs ++ [cloneNode indentation; injectedNode]
                                          ++ drop k cs);
                           packagesNode := packagesNode st;
                           insertionPoint :=
                             Some (relocate (Inserted container k 2) (Attached point)) |}
                   else Throw NotFoundError
               | None => Throw NotFoundError
               end
           | Some (Detached _) => Throw NotFoundError
           end
       | Detached _ => Ok st   (* the container has left the document *)
       end)
  end.

Fixpoint injectEach (indentation : Node) (st : Upsert)
    (nugetPackages : list NuGet.LocalNuGetPackage) (dirs : list (list jsstring))
  : list (list jsstring) * Result Upsert :=
  match nugetPackages with
  | [] => (dirs, Ok st)
  | nugetPackage :: rest =>
      match injectPackage indentation st nugetPackage dirs with
      | (dirs', Ok st') => injectEach indentation st' rest dirs'
      | (dirs', Throw e) => (dirs', Throw e)
      end
  end.

(** The edit of the parsed Bonsai.config. *)
Definition upsertPackages (bonsaiConfig : Node) (nugetPackages : list NuGet.LocalNuGetPackage)
    (dirs : list (list jsstring)) : list (list jsstring) * Result Node :=
  match select1Element bonsaiConfigPackagesSelector bonsaiConfig ∅ with
  | Throw e => (dirs, Throw e)
  | Ok (Some (HNode container (Element _ _ _ childNodes))) =>
      match referenceIndentation bonsaiConfigPackagesIndentSelector bonsaiConfig with
      | Throw e => (dirs, Throw e)
      | Ok indentation =>
          let insertionPoint :=
            match last childNodes with
            | Some (Text _) => Some (Attached (container ++ [length childNodes - 1]))
            | _ => None
            end in
          match injectEach indentation
                  {| bonsaiConfigDoc := bonsaiConfig;
                     packagesNode := Attached container;
                     insertionPoint := insertionPoint |} nugetPackages dirs with
          | (dirs', Ok st) => (dirs', Ok (bonsaiConfigDoc st))
          | (dirs', Throw e) => (dirs', Throw e)
          end
      end
  | Ok _ => (dirs, Throw MissingPackages)
  end.

Definition injectPackages (nugetPackages : list NuGet.LocalNuGetPackage) (fs : FileSystem)
  : FileSystem * Result unit :=
  match Util.parseXml parseFromString pf (bonsaiConfig fs) with
  | Throw e => (fs, Throw e)
  | Ok parsed =>
      match upsertPackages parsed nugetPackages (directories fs) with
      | (dirs, Ok updated) =>
          ({| nugetConfig := nugetConfig fs;
              bonsaiConfig := Util.xmlToString serializeToString updated;
              directories := dirs |}, Ok ())
      | (dirs, Throw e) =>
          ({| nugetConfig := nugetConfig fs;
              bonsaiConfig := bonsaiConfig fs;
              directories := dirs |}, Throw e)
      end
  end.

End Xmldom.

End Bonsai.

(** ** util.ts: comparing and escaping strings *)

Module UtilText.
Import JsString.

(** [a < b] on strings: the code units are compared from the first on, and
    a proper prefix is less. *)
Fixpoint lessThan (a b : jsstring) : bool :=
  match a, b with
  | _, [] => false
  | [], _ :: _ => true
  | x :: a', y :: b' => N.ltb x y || (N.eqb x y && lessThan a' b')
  end.

Definition stringCompare (a b : jsstring) : Z :=
  if lessThan a b then (-1)%Z
  else if lessThan b a then 1%Z
  else 0%Z.

(** The lookahead [(?=[^/]+\])] at the code units after a [[]: one or more
    code units other than [/], then a []]. *)
Fixpoint closedInSegment (rest : jsstring) : bool :=
  match rest with
  | [] => false
  | c :: rest' =>
      negb (N.eqb c 47)
      && (match rest' with d :: _ => N.eqb d 93 | [] => false end || closedInSegment rest')
  end.

(** [.replace(/(\[)(?=[^/]+\])/g, '[[]')] *)
Fixpoint escapeBrackets (s : jsstring) : jsstring :=
  match s with
  | [] => []
  | c :: rest =>
      (if N.eqb c 91 && closedInSegment rest then js "[[]" else [c]) ++ escapeBrackets rest
  end.

Definition globEscape (pf : Platform) (s : jsstring) : jsstring :=
  let s := match pf with win32 => s | posix => replaceAll s [92%N] [92%N; 92%N] end in
  let s := escapeBrackets s in
  let s := replaceAll s (js "?") (js "[?]") in
  replaceAll s (js "*") (js "[*]").

End UtilText.

(** ** cache.ts: the keys of the cache *)

Module Cache.
Import JsString.

Inductive CacheState : Type := NoHit | Partial | Full.

Record SetupBonsaiCache : Type := {
  primaryKey : jsstring;
  restoreKeys : list jsstring;
  restoredFrom : option jsstring   (* None: null *)
}.

(** [get state()] *)
Definition state (cache : SetupBonsaiCache) : CacheState :=
  if bool_decide (Some (primaryKey cache) = restoredFrom cache) then Full
  else if Bonsai.truthy (restoredFrom cache) then Partial
  else NoHit.

(** The constructor, as far as the keys go. *)
Definition newSetupBonsaiCache (primaryKey : jsstring) (restoreKeys : list jsstring)
    (restoredFromKey : option jsstring) : SetupBonsaiCache :=
  {| primaryKey := primaryKey;
     restoreKeys := restoreKeys ++ [primaryKey ++ js "-incomplete"];
     restoredFrom := restoredFromKey |}.

(** [createForRestore]: [digest] is the SHA-256 of the environments, in
    hexadecimal. *)
Definition createForRestore (cacheKeyPrefix digest : jsstring) : SetupBonsaiCache :=
  let primaryKey := js "setup-bonsai-" in
  let primaryKey :=
    match cacheKeyPrefix with
    | [] => primaryKey
    | _ :: _ => primaryKey ++ cacheKeyPrefix ++ js "-"
    end in
  let restoreKeys := [primaryKey] in
  newSetupBonsaiCache (primaryKey ++ digest) restoreKeys None.

(** [createForUpload]: the two keys are read with [core.getState], which
    gives the empty string for a state that was never saved. *)
Definition createForUpload (savedPrimaryKey savedRestoredFrom : jsstring)
  : option SetupBonsaiCache :=
  match savedPrimaryKey with
  | [] => None   (* "Primary key is unavailable, cannot save cache." *)
  | _ :: _ => Some (newSetupBonsaiCache savedPrimaryKey [] (Some savedRestoredFrom))
  end.

(** [restore], as far as the keys go: [answer] is what
    [cache.restoreCache] gives for the primary key and the restore keys, and
    [extracted] says whether [tar] could unpack the archive. *)
Definition restore (cache : SetupBonsaiCache) (answer : option jsstring) (extracted : bool)
  : SetupBonsaiCache :=
  if Bonsai.truthy answer && extracted then
    {| primaryKey := primaryKey cache;
       restoreKeys := restoreKeys cache;
       restoredFrom := answer |}
  else cache.

(** The key [uploadCache] saves under. *)
Definition saveKey (cache : SetupBonsaiCache) (isIncomplete : bool) : jsstring :=
  if isIncomplete then primaryKey cache ++ js "-incomplete" else primaryKey cache.

(** The post step (post.ts): whether it goes on to [uploadCache]. *)
Definition postUploads (enableCache : bool) (savedPrimaryKey savedRestoredFrom : jsstring)
  : option bool :=
  if negb enableCache then Some false
  else
    match createForUpload savedPrimaryKey savedRestoredFrom with
    | None => None
    | Some cache =>
        Some (match state cache with Full => false | _ => true end)
    end.

End Cache.

(** ** bonsai.ts: the constructor of BonsaiEnvironment *)

Module Environment.
Import JsString Dom XPath XPathExtra.

Definition packageVersionSelector : Expr :=
  (* //PackageConfiguration/Packages/Package[@id=$packageId]/@version *)
  ELocationPath [anywhere; childNamed "PackageConfiguration" []; childNamed "Packages" [];
                 childNamed "Package" [PAttrEq (js "id") (js "packageId")];
                 {| axis := attribute; test := nameTest (js "version"); preds := [] |}].

Inductive EnvironmentError : Type :=
  | MissingBonsaiConfig                     (* 'Bonsai.config' is missing. *)
  | MissingNuGetConfig                      (* 'NuGet.config' is missing. *)
  | ConfigError (e : Error)                 (* thrown by parseXml or the selector *)
  | NoBonsaiVersion                         (* Could not determine desired Bonsai version *)
  | InvalidBonsaiVersion (text : jsstring). (* specifies an invalid version string *)

Section Libraries.
Context {unicode : CaseMapping}.
Variable parseFromString : jsstring -> option (list Node).
Variable pf : Platform.
(** [semver.parse]: [None] is [null]. *)
Variable SemVer : Type.
Variable semverParse : jsstring -> option SemVer.

Record BonsaiEnvironment : Type := {
  rootPath : list jsstring;
  bonsaiVersion : SemVer
}.

(** [new BonsaiEnvironment(rootPath)]; [bonsaiConfig] and [nugetConfig] are
    the texts of the two files of the environment, [None] for a file that
    does not exist. *)
Definition newBonsaiEnvironment (rootPath : list jsstring)
    (bonsaiConfig nugetConfig : option jsstring) : EnvironmentError + BonsaiEnvironment :=
  match bonsaiConfig with
  | None => inl MissingBonsaiConfig
  | Some bonsaiConfigContent =>
      match nugetConfig with
      | None => inl MissingNuGetConfig
      | Some _ =>
          match Util.parseXml parseFromString pf bonsaiConfigContent with
          | Throw e => inl (ConfigError e)
          | Ok bonsaiConfig =>
              match select1Attribute packageVersionSelector bonsaiConfig
                      {[ js "packageId" := js "Bonsai" ]} with
              | Throw e => inl (ConfigError e)
              | Ok None => inl NoBonsaiVersion
              | Ok (Some bonsaiVersionText) =>
                  let nodeValue :=
                    match bonsaiVersionText with
                    | HAttr _ _ a => value a
                    | HNode _ _ => []
                    end in
                  match semverParse nodeValue with
                  | Some version =>
                      inr {| rootPath := rootPath; bonsaiVersion := version |}
                  | None => inl (InvalidBonsaiVersion nodeValue)
                  end
              end
          end
      end
  end.

End Libraries.

End Environment.

(** ** main.ts: the packages and the package sources of a run *)

Module Action.
Import JsString.

(** The loop over the package paths the glob finds.  [loaded] holds, for
    each path in turn, what [new LocalNuGetPackage(packagePath)] gives.  The
    [Map] keeps its entries in the order of insertion. *)
Record Enumeration : Type := {
  injectPackages : list (jsstring * NuGet.LocalNuGetPackage);
  haveErrors : bool
}.

(** [map.has(key)] *)
Definition has {A : Type} (map : list (jsstring * A)) (key : jsstring) : bool :=
  existsb (fun kv => eqb (fst kv) key) map.

Definition enumerate (st : Enumeration) (loaded : Result NuGet.LocalNuGetPackage)
  : Enumeration :=
  match loaded with
  | Ok nugetPackage =>
      if has (injectPackages st) (NuGet.id nugetPackage)
      then {| injectPackages := injectPackages st; haveErrors := true |}
      else {| injectPackages := injectPackages st ++ [(NuGet.id nugetPackage, nugetPackage)];
              haveErrors := haveErrors st |}
  | Throw _ => {| injectPackages := injectPackages st; haveErrors := true |}
  end.

(** The packages to inject, or [None] when main fails the run ("One or more
    injected packages could not be loaded."). *)
Definition enumeratePackages (loaded : list (Result NuGet.LocalNuGetPackage))
  : option (list (jsstring * NuGet.LocalNuGetPackage)) :=
  let st := fold_left enumerate loaded {| injectPackages := []; haveErrors := false |} in
  if haveErrors st then None else Some (injectPackages st).

(** The package sources main hands to [addPackageSources] of every
    environment; [size] is the number of packages to inject. *)
Definition packageSources (invocationId packageCacheRoot injectedPackagesPath : jsstring)
    (size : nat) : Result (list NuGet.NuGetPackageSource) :=
  do cacheSource <-
    NuGet.newNuGetPackageSource (js "setup-bonsai cache " ++ invocationId)
      packageCacheRoot false;
  if Nat.ltb 0 size then
    do injectedSource <-
      NuGet.newNuGetPackageSource (js "setup-bonsai injected packages " ++ invocationId)
        injectedPackagesPath false;
    Ok [injectedSource; cacheSource]
  else Ok [cacheSource].

End Action.

(** ** Notions used to state the properties *)

Section Notions.
Context {unicode : JsString.CaseMapping}.

(** [bareClose prev s]: the text [s], whose preceding code unit is [prev],
    contains a tag end [/>] that no space precedes. *)
Fixpoint bareClose (prev : option N) (s : jsstring) : bool :=
  match s with
  | [] => false
  | c :: rest =>
      (JsString.startsWith s (js "/>") && negb (bool_decide (prev = Some 32%N)))
      || bareClose (Some c) rest
  end.

(** The answer of [checkedSelect1] for a result whose first node is [first]. *)
Definition answerFor (expectedType : option N) (first : XPath.Hit) : Result (option XPath.Hit) :=
  match expectedType with
  | None => Ok (Some first)
  | Some t =>
      if N.eqb (XPath.hitType first) t then Ok (Some first)
      else Throw (UnexpectedNodeKind (XPathExtra.nodeTypeToString t)
                                     (XPathExtra.nodeTypeToString (XPath.hitType first)))
  end.

(** A list of hits in strictly ascending document order. *)
Definition ascending (l : list XPath.Hit) : Prop :=
  StronglySorted (fun a b => XPath.compareHit b a = Gt) l.

(** The place of a hit as one list of numbers, so that document order is
    the order of the lists: a child index [k] is written [1; k], the index
    [i] of an attribute [0; i], which puts the attributes of an element after
    the element and before its children. *)
Fixpoint encodePath (p : list nat) : list nat :=
  match p with
  | [] => []
  | k :: p' => 1 :: k :: encodePath p'
  end.

Definition placeKey (h : XPath.Hit) : list nat :=
  match h with
  | XPath.HNode p _ => encodePath p
  | XPath.HAttr p i _ => encodePath p ++ [0; i]
  end.

(** The hits below the children [cs] of the node at [p], the first of which
    has index [i]: the inner loop of [XPath.subtreeHits]. *)
Fixpoint forestHits (p : list nat) (i : nat) (cs : list Dom.Node) : list XPath.Hit :=
  match cs with
  | [] => []
  | c :: cs' => XPath.subtreeHits (p ++ [i]) c ++ forestHits p (S i) cs'
  end.

(** A hit that is the node found at its place in [doc]. *)
Definition validHit (doc : Dom.Node) (x : XPath.Hit) : Prop :=
  match x with
  | XPath.HNode q n => Tree.lookup doc q = Some n
  | XPath.HAttr _ _ _ => True
  end.

(** The entry of a source: [<add key="name" value="url" />]. *)
Definition sourceEntry (source : NuGet.NuGetPackageSource) : Dom.Node :=
  Dom.Element None (js "add")
    [{| Dom.namespaceURI := None; Dom.name := js "key"; Dom.value := NuGet.name source |};
     {| Dom.namespaceURI := None; Dom.name := js "value"; Dom.value := NuGet.url source |}]
    [].

(** The nodes inserted for [sources]: for each source, in the order given,
    the node [copy] and the entry of the source. *)
Definition inserted (copy : Dom.Node) (sources : list NuGet.NuGetPackageSource)
  : list Dom.Node :=
  flat_map (fun source => [copy; sourceEntry source]) sources.

(** The sources by name. *)
Definition byName (sources : list NuGet.NuGetPackageSource)
  : gmap (list N) NuGet.NuGetPackageSource :=
  fold_left (fun m source => <[NuGet.name source := source]> m) sources ∅.

(** The name and the URL of an entry of the source list: its [key] and
    [value] attributes. *)
Definition keyOf (node : Dom.Node) : option (list N) :=
  head (XPath.attrValues (js "key") (XPath.HNode [] node)).
Definition urlOf (node : Dom.Node) : option (list N) :=
  head (XPath.attrValues (js "value") (XPath.HNode [] node)).

(** A [<clear />] marker: an element without namespace or without prefix
    whose local name is [clear], whatever the case of its letters. *)
Definition isClearMarker (n : Dom.Node) : bool :=
  match n with
  | Dom.Element ns qn _ _ => XPath.nameMatches (js "clear") ns qn
  | _ => false
  end.

(** The indentation sampled from the children of a container: a copy of its
    first text node, or the four-space pattern when it has none.  A CDATA
    section standing before every text node is refused by [select1Text]. *)
Definition isTextLike (n : Dom.Node) : bool :=
  match n with
  | Dom.Text _ | Dom.CDATASection _ => true
  | _ => false
  end.

Definition indentationOf (childNodes : list Dom.Node) : Result Dom.Node :=
  match List.find isTextLike childNodes with
  | None => Ok (Dom.Text (10%N :: js "    "))
  | Some (Dom.Text d) => Ok (Dom.Text d)
  | Some n =>
      Throw (UnexpectedNodeKind (js "text node")
                                (XPathExtra.nodeTypeToString (Dom.nodeType n)))
  end.

(** *** The manifest

    Bonsai.config as Bonsai writes it: the document element is the only
    element named [PackageConfiguration]; its children are the sections.
    An element is named [nm] when a name test [nm] selects it: it has no
    namespace or no prefix, and its local name is [nm] whatever the case of
    the letters. *)

Definition isNamed (nm : string) (n : Dom.Node) : bool :=
  match n with
  | Dom.Element ns qn _ _ => XPath.nameMatches (js nm) ns qn
  | _ => false
  end.

(** [n] is an element named [nm], or has one below it. *)
Fixpoint mentions (nm : string) (n : Dom.Node) : bool :=
  match n with
  | Dom.Element ns qn _ cs =>
      XPath.nameMatches (js nm) ns qn || existsb (mentions nm) cs
  | Dom.Document _ cs => existsb (mentions nm) cs
  | _ => false
  end.

Record Manifest : Type := {
  extra : option Dom.Expando;
  prolog : list Dom.Node;          (* what precedes the document element *)
  rootNamespace : option (list N);
  rootName : list N;
  rootAttributes : list Dom.Attr;
  epilog : list Dom.Node           (* what follows the document element *)
}.

Definition manifestDoc (m : Manifest) (sections : list Dom.Node) : Dom.Node :=
  Dom.Document (extra m)
    (prolog m
       ++ Dom.Element (rootNamespace m) (rootName m) (rootAttributes m) sections
       :: epilog m).

Definition wellShaped (m : Manifest) (sections : list Dom.Node) : Prop :=
  isNamed "PackageConfiguration"
    (Dom.Element (rootNamespace m) (rootName m) (rootAttributes m) sections) = true
  /\ Forall (fun n => mentions "PackageConfiguration" n = false)
            (prolog m ++ epilog m ++ sections).

(** The children left of [cs] when every child that passes [P] is removed
    with [smartRemove], from the first to the last: with each goes the text
    node that stands right before it then.  [kept] are the children already
    passed, the last one first. *)
Definition withoutText (kept : list Dom.Node) : list Dom.Node :=
  match kept with Dom.Text _ :: kept' => kept' | _ => kept end.

Fixpoint sweepFrom (P : Dom.Node -> bool) (kept cs : list Dom.Node) : list Dom.Node :=
  match cs with
  | [] => rev kept
  | c :: cs' =>
      if P c then sweepFrom P (withoutText kept) cs'
      else sweepFrom P (c :: kept) cs'
  end.

Definition sweep (P : Dom.Node -> bool) (cs : list Dom.Node) : list Dom.Node :=
  sweepFrom P [] cs.

(** The section [sec] with its records that pass [P] swept, when it is a
    section named [section]. *)
Definition sweepSection (section : string) (P : Dom.Node -> bool) (sec : Dom.Node)
  : Dom.Node :=
  if isNamed section sec then Tree.setChildren sec (sweep P (Dom.children sec)) else sec.

(** The value of the attribute [nm] of a record, as XPath reads it: the one
    of the first attribute of that name, or the empty string. *)
Definition attributeOf (nm : string) (n : Dom.Node) : list N :=
  default [] (head (XPath.attrValues (js nm) (XPath.HNode [] n))).

(** A path with [/] for every [\]. *)
Definition normalized (path : list N) : list N := XPath.translate path [92%N] [47%N].

(** The records the clean-up removes for the package location [loc]. *)
Definition locatedUnder (loc : list N) (n : Dom.Node) : bool :=
  isNamed "AssemblyLocation" n
  && JsString.startsWith (normalized (attributeOf "location" n)) loc.

Definition folderUnder (loc : list N) (n : Dom.Node) : bool :=
  isNamed "LibraryFolder" n
  && JsString.startsWith (normalized (attributeOf "path" n)) loc.

Definition refersTo (assemblyName : list N) (n : Dom.Node) : bool :=
  isNamed "AssemblyReference" n
  && existsb (fun v => JsString.eqb v assemblyName)
             (XPath.attrValues (js "assemblyName") (XPath.HNode [] n)).

(** The records of the sections named [section] that pass [P], in document
    order. *)
Definition removedRecords (section : string) (P : Dom.Node -> bool) (sections : list Dom.Node)
  : list Dom.Node :=
  flat_map (fun sec => if isNamed section sec then List.filter P (Dom.children sec) else [])
           sections.

(** The assembly name of a location, when it has one that is not empty. *)
Definition assemblyNameOf (location : Dom.Node) : list (list N) :=
  match head (XPath.attrValues (js "assemblyName") (XPath.HNode [] location)) with
  | Some (x :: nm) => [x :: nm]
  | _ => []
  end.

(** The assembly names of the locations removed, in document order. *)
Definition removedNames (loc : list N) (sections : list Dom.Node) : list (list N) :=
  flat_map assemblyNameOf (removedRecords "AssemblyLocations" (locatedUnder loc) sections).

(** The sections after the clean-up for [loc]. *)
Definition cleanedUp (loc : list N) (sections : list Dom.Node) : list Dom.Node :=
  List.map (sweepSection "LibraryFolders" (folderUnder loc))
    (fold_left (fun secs nm => List.map (sweepSection "AssemblyReferences" (refersTo nm)) secs)
               (removedNames loc sections)
               (List.map (sweepSection "AssemblyLocations" (locatedUnder loc)) sections)).

(** The matches of [//PackageConfiguration/section/record[...]] in the
    sections from index [s] on: the children of the sections named [section]
    that pass [P], each at its place below the document element at [root]. *)
Fixpoint recordHits (P : Dom.Node -> bool) (sec : list nat) (k : nat) (cs : list Dom.Node)
  : list XPath.Hit :=
  match cs with
  | [] => []
  | c :: cs' =>
      (if P c then [XPath.HNode (sec ++ [k]) c] else []) ++ recordHits P sec (S k) cs'
  end.

Fixpoint sectionHits (section : string) (P : Dom.Node -> bool) (root : nat) (s : nat)
    (sections : list Dom.Node) : list XPath.Hit :=
  match sections with
  | [] => []
  | sec :: sections' =>
      (if isNamed section sec then recordHits P [root; s] 0 (Dom.children sec) else [])
      ++ sectionHits section P root (S s) sections'
  end.

(** The place of the document element of a manifest. *)
Definition rootIndex (m : Manifest) : nat := length (prolog m).

(** A node passes the predicate [pr] of a selector. *)
Definition passes (vars : XPath.Variables) (pr : XPath.Pred) (c : Dom.Node) : bool :=
  match pr with
  | XPath.PLast => true
  | XPath.PAttrEq nm var => XPath.attrEq vars nm var (XPath.HNode [] c)
  | XPath.PStartsWith a b =>
      JsString.startsWith (XPath.strValue vars a (XPath.HNode [] c))
                          (XPath.strValue vars b (XPath.HNode [] c))
  end.

(** The loops of the clean-up have one shape: each node found is removed
    with [smartRemove], and [extra] is run for it on the document then. *)
Fixpoint sweepLoop (extra : Dom.Node -> Dom.Node -> Result (Dom.Node * list Tree.Edit))
    (doc : Dom.Node) (nodes : list XPath.Hit) (edits : list Tree.Edit)
  : Result (Dom.Node * list Tree.Edit) :=
  match nodes with
  | [] => Ok (doc, edits)
  | XPath.HNode loc node :: rest =>
      do '(doc1, e) <-
        XPathExtra.smartRemove doc (Bonsai.relocateAll edits (Tree.Attached loc))
          (match node with Dom.Element _ nm _ _ => nm | _ => [] end);
      do '(doc2, edits2) <- extra node doc1;
      sweepLoop extra doc2 rest (edits ++ Bonsai.editOf e ++ edits2)
  | XPath.HAttr _ _ _ :: rest => sweepLoop extra doc rest edits
  end.

(** Nothing more is done for a library folder or an assembly reference. *)
Definition noExtra (_ doc : Dom.Node) : Result (Dom.Node * list Tree.Edit) := Ok (doc, []).

(** For an assembly location, the references to its assembly are removed. *)
Definition dropReferences (location doc : Dom.Node) : Result (Dom.Node * list Tree.Edit) :=
  let assemblyName := head (XPath.attrValues (js "assemblyName") (XPath.HNode [] location)) in
  if Bonsai.truthy assemblyName then
    do assemblyReferences <-
      XPathExtra.selectElements Bonsai.assemblyReferencesByNameSelector doc
        {[ js "assemblyName" := default [] assemblyName ]};
    Bonsai.removeEach doc assemblyReferences []
  else Ok (doc, []).

(** The edits are removals below the sections whose index passes [Q]. *)
Definition within (root : nat) (Q : nat -> Prop) (edits : list Tree.Edit) : Prop :=
  Forall (fun e => exists s first count, e = Tree.Removed [root; s] first count /\ Q s) edits.

(** What running [g] for each of the [records] makes of a section. *)
Definition applyAll (g : Dom.Node -> Dom.Node -> Dom.Node) (records : list Dom.Node)
    (sec : Dom.Node) : Dom.Node :=
  fold_left (fun x c => g c x) records sec.

(** The sections of a well-shaped manifest, those named [section] standing
    where [names] says. *)
Definition manifestState (m : Manifest) (section : string) (names : list bool)
    (sections : list Dom.Node) : Prop :=
  wellShaped m sections /\ List.map (isNamed section) sections = names.

(** The edits leave the records of the sections named, from [from] on, in
    their places. *)
Definition settled (root : nat) (names : list bool) (from : nat) (edits : list Tree.Edit)
  : Prop :=
  forall s k, from <= s -> names !! s = Some true ->
    Bonsai.relocateAll edits (Tree.Attached [root; s; k]) = Tree.Attached [root; s; k].

(** What the removal of an assembly location makes of a section: the
    references to its assembly are swept. *)
Definition withoutReferences (location sec : Dom.Node) : Dom.Node :=
  fold_left (fun x nm => sweepSection "AssemblyReferences" (refersTo nm) x)
            (assemblyNameOf location) sec.

(** The sections with the record [k] of the section [s] replaced by [entry]. *)
Definition replaceRecord (s k : nat) (entry : Dom.Node) (sections : list Dom.Node)
  : list Dom.Node :=
  alter (fun sec => Tree.setChildren sec (<[k := entry]> (Dom.children sec))) s sections.

(** The records of a section are its child elements. *)
Definition isElement (n : Dom.Node) : bool :=
  match n with
  | Dom.Element _ _ _ _ => true
  | _ => false
  end.

Definition elementsOf (cs : list Dom.Node) : list Dom.Node := List.filter isElement cs.

(** The record [c] of the section [sec] is one the clean-up for the package
    location [loc] removes, [names] being the assembly names of the
    locations removed. *)
Definition dropped (loc : list N) (names : list (list N)) (sec c : Dom.Node) : bool :=
  (isNamed "AssemblyLocations" sec && locatedUnder loc c)
  || (isNamed "AssemblyReferences" sec && existsb (fun nm => refersTo nm c) names)
  || (isNamed "LibraryFolders" sec && folderUnder loc c).

(** [bareWildcard prev s]: the text [s], whose preceding code unit is
    [prev], has a [*] or a [?] that does not stand between [[] and []]. *)
Fixpoint bareWildcard (prev : option N) (s : list N) : bool :=
  match s with
  | [] => false
  | c :: rest =>
      ((N.eqb c 42 || N.eqb c 63)
       && negb (bool_decide (prev = Some 91%N) && bool_decide (head rest = Some 93%N)))
      || bareWildcard (Some c) rest
  end.

(** A node the walk of [addPackageSources] passes: a node that is not an
    element, or an [<add>] entry with a name that none of the new sources
    has, unless that source allows the update. *)
Definition passable (sources : list NuGet.NuGetPackageSource) (node : Dom.Node) : Prop :=
  match node with
  | Dom.Element _ nodeName _ _ =>
      nodeName = js "add"
      /\ exists c nm,
           keyOf node = Some (c :: nm)
           /\ forall source,
                source ∈ sources -> NuGet.name source = c :: nm ->
                NuGet.allowUpdate source = true
  | _ => True
  end.

(** The errors of the two loops of [addPackageSources]. *)
Definition mergeError (e : Error) : Prop :=
  match e with
  | DuplicateSourceName _ | UnexpectedNode _ | MissingSourceName | UpdateNotEnabled _ _ _ =>
      True
  | _ => False
  end.

(** The entries of the sections named [Packages] whose [id] is [packageId],
    letter for letter. *)
Definition isEntry (packageId : list N) (c : Dom.Node) : bool :=
  isNamed "Package" c
  && existsb (fun v => JsString.eqb v packageId)
             (XPath.attrValues (js "id") (XPath.HNode [] c)).

Definition entries (packageId : list N) (sections : list Dom.Node) : list Dom.Node :=
  removedRecords "Packages" (isEntry packageId) sections.

(** The entry of a package: [<Package id="id" version="version" />]. *)
Definition packageEntry (p : NuGet.LocalNuGetPackage) : Dom.Node :=
  Dom.Element None (js "Package")
    [{| Dom.namespaceURI := None; Dom.name := js "id"; Dom.value := NuGet.id p |};
     {| Dom.namespaceURI := None; Dom.name := js "version"; Dom.value := NuGet.version p |}]
    [].

(** The nodes inserted for packages that have no entry: for each package, in
    the order given, the node [copy] and the entry of the package. *)
Definition packageEntries (copy : Dom.Node) (pkgs : list NuGet.LocalNuGetPackage)
  : list Dom.Node :=
  flat_map (fun p => [copy; packageEntry p]) pkgs.

(** The children [cs] with [new] put at the end, before the last child when
    that is a text node. *)
Definition beforeTrailingText (cs new : list Dom.Node) : list Dom.Node :=
  match last cs with
  | Some (Dom.Text _) => take (length cs - 1) cs ++ new ++ drop (length cs - 1) cs
  | _ => cs ++ new
  end.

(** The [version] attributes of the entries of the sections named
    [Packages] whose [id] is [packageId], in document order. *)
Definition versionsOf (packageId : list N) (sections : list Dom.Node) : list (list N) :=
  flat_map (fun c => XPath.attrValues (js "version") (XPath.HNode [] c))
           (entries packageId sections).

(** The value of an attribute found. *)
Definition valueOf (h : XPath.Hit) : list (list N) :=
  match h with
  | XPath.HAttr _ _ a => [Dom.value a]
  | XPath.HNode _ _ => []
  end.

(** [loneLineFeed prev s]: the text [s], whose preceding code unit is
    [prev], has a line feed that no carriage return precedes. *)
Fixpoint loneLineFeed (prev : option N) (s : list N) : bool :=
  match s with
  | [] => false
  | c :: rest =>
      (N.eqb c JsString.LF && negb (bool_decide (prev = Some JsString.CR)))
      || loneLineFeed (Some c) rest
  end.

End Notions.

(** The document element of a manifest. *)
Abbreviation manifestRoot m sections :=
  (Dom.Element (rootNamespace m) (rootName m) (rootAttributes m) sections).

(** * Properties *)

(** ** JavaScript string facts *)

#[local] Arguments N.eqb : simpl never.

Module JsStringFacts.
Import JsString.

Lemma replaceAll_char (s rep : jsstring) (c : jschar) :
  replaceAll s [c] rep = flat_map (fun x => if N.eqb c x then rep else [x]) s.
Proof.
  unfold replaceAll.
  induction s as [|x s IH]; simpl; [reflexivity|].
  rewrite andb_true_r, IH. now destruct (N.eqb c x).
Qed.

Lemma replaceAll_char_cons_ne (s rep : jsstring) (c x : jschar) :
  c <> x -> replaceAll (x :: s) [c] rep = x :: replaceAll s [c] rep.
Proof.
  intros H. rewrite !replaceAll_char. cbn [flat_map].
  now destruct (N.eqb_spec c x).
Qed.

Lemma replaceAll_char_absent (s rep : jsstring) (c : jschar) :
  c ∉ s -> replaceAll s [c] rep = s.
Proof.
  rewrite replaceAll_char.
  induction s as [|x s IH]; simpl; intros Hc; [reflexivity|].
  apply not_elem_of_cons in Hc as [Hx Hs].
  destruct (N.eqb_spec c x); [congruence|]. simpl. now rewrite IH.
Qed.

Lemma replaceAll_char_app (s t rep : jsstring) (c : jschar) :
  replaceAll (s ++ t) [c] rep = replaceAll s [c] rep ++ replaceAll t [c] rep.
Proof. rewrite !replaceAll_char. apply flat_map_app. Qed.

Lemma endsWith_snoc (s : jsstring) (c x : jschar) :
  endsWith (s ++ [x]) [c] = N.eqb c x.
Proof.
  unfold endsWith. rewrite rev_app_distr. simpl. apply andb_true_r.
Qed.

Lemma endsWith_nil (c : jschar) : endsWith [] [c] = false.
Proof. reflexivity. Qed.

Lemma endsWith_char_iff (s : jsstring) (c : jschar) :
  endsWith s [c] = true <-> exists front, s = front ++ [c].
Proof.
  destruct s as [|x s] using rev_ind.
  - split; [discriminate|]. intros [f Hf]. now destruct f.
  - rewrite endsWith_snoc. split.
    + intros H. apply N.eqb_eq in H. subst. now exists s.
    + intros [f Hf]. apply app_inj_tail in Hf as [_ ->]. apply N.eqb_refl.
Qed.

Lemma endsWith_cons (s : jsstring) (a b c : jschar) :
  endsWith (a :: b :: s) [c] = endsWith (b :: s) [c].
Proof.
  destruct (exists_last (l := b :: s)) as (f & x & Hf); [discriminate|].
  rewrite Hf. change (a :: f ++ [x]) with ((a :: f) ++ [x]).
  now rewrite !endsWith_snoc.
Qed.

Lemma match_eol_absent (s : jsstring) : LF ∉ s -> match_eol s = None.
Proof.
  induction s as [|c s IH]; intros H; simpl; [reflexivity|].
  apply not_elem_of_cons in H as [Hc Hs].
  destruct (N.eqb c CR).
  - destruct s as [|d s']; [reflexivity|].
    apply not_elem_of_cons in Hs as Hd. destruct Hd as [Hd _].
    destruct (N.eqb_spec d LF); [congruence|]. now apply IH.
  - destruct (N.eqb_spec c LF); [congruence|]. now apply IH.
Qed.

Lemma match_eol_cons (c : jschar) (rest : jsstring) :
  match_eol (c :: rest)
  = if N.eqb c CR then
      match rest with
      | d :: _ => if N.eqb d LF then Some [CR; LF] else match_eol rest
      | [] => None
      end
    else if N.eqb c LF then Some [LF] else match_eol rest.
Proof. reflexivity. Qed.

Lemma match_eol_first (pre post : jsstring) :
  LF ∉ pre ->
  match_eol (pre ++ LF :: post)
  = Some (if endsWith pre [CR] then [CR; LF] else [LF]).
Proof.
  induction pre as [|c pre IH]; intros H; [reflexivity|].
  apply not_elem_of_cons in H as [Hc Hs].
  specialize (IH Hs). rewrite <- app_comm_cons, match_eol_cons.
  destruct (N.eqb_spec c CR) as [->|Hcr].
  - destruct pre as [|d pre]; [reflexivity|].
    apply not_elem_of_cons in Hs as Hd. destruct Hd as [Hd _].
    rewrite <- app_comm_cons.
    destruct (N.eqb_spec d LF); [congruence|].
    rewrite endsWith_cons. exact IH.
  - destruct (N.eqb_spec c LF); [congruence|].
    rewrite IH. destruct pre as [|d pre].
    + change (endsWith [c] [CR]) with (N.eqb CR c && true).
      destruct (N.eqb_spec CR c); [congruence|reflexivity].
    + now rewrite endsWith_cons.
Qed.

Lemma match_eol_cases (s : jsstring) :
  ((LF ∉ s) /\ match_eol s = None)
  \/ ((LF ∈ s) /\ (match_eol s = Some [LF] \/ match_eol s = Some [CR; LF])).
Proof.
  destruct (decide (LF ∈ s)) as [Hin|Hout].
  - right. split; [exact Hin|].
    apply list_elem_of_split_l in Hin as (pre & post & -> & Hpre).
    rewrite (match_eol_first _ _ Hpre). destruct (endsWith pre [CR]); auto.
  - left. split; [exact Hout|]. now apply match_eol_absent.
Qed.

Lemma replaceAll_crlf_id (r : jsstring) :
  CR ∉ replaceAll r [LF] [CR; LF] -> replaceAll r [LF] [CR; LF] = r.
Proof.
  rewrite replaceAll_char.
  induction r as [|x r IH]; cbn [flat_map]; [reflexivity|].
  destruct (N.eqb_spec LF x) as [<-|Hx]; cbn [app]; intros H.
  - exfalso. apply H. now left.
  - apply not_elem_of_cons in H as [_ H]. now rewrite IH.
Qed.

Lemma startsWith_close (c : jschar) (x : jsstring) :
  startsWith (c :: x) (js "/>") = N.eqb 47 c && startsWith x [62%N].
Proof. reflexivity. Qed.

Lemma replaceAll_close_head (s : jsstring) :
  startsWith (replaceAll_from (js "/>") (js " />") 0 s) [62%N] = true ->
  startsWith s [62%N] = true.
Proof.
  destruct s as [|c s]; [discriminate|].
  cbn [replaceAll_from]. destruct (startsWith (c :: s) (js "/>")); [discriminate|].
  trivial.
Qed.

Lemma replaceAll_close_spaced (s : jsstring) :
  (forall prev, bareClose prev (replaceAll_from (js "/>") (js " />") 0 s) = false)
  /\ (forall prev, bareClose prev (replaceAll_from (js "/>") (js " />") 1 s) = false).
Proof.
  induction s as [|c s [IH0 IH1]]; [split; reflexivity|].
  split; intros prev; cbn [replaceAll_from]; [|apply IH0].
  destruct (startsWith (c :: s) (js "/>")) eqn:Hm.
  - change (length (js "/>") - 1) with 1.
    change (js " />") with [32%N; 47%N; 62%N].
    cbn [app bareClose]. rewrite IH1.
    change (startsWith (32%N :: _) (js "/>")) with false.
    change (startsWith (62%N :: _) (js "/>")) with false.
    rewrite (bool_decide_eq_true_2 (Some 32%N = Some 32%N)) by reflexivity.
    cbn [negb andb orb]. now rewrite andb_false_r.
  - cbn [bareClose]. rewrite IH0, orb_false_r.
    apply andb_false_intro1.
    rewrite startsWith_close in Hm |- *.
    destruct (N.eqb 47 c); [|reflexivity]. cbn [andb] in Hm |- *.
    destruct (startsWith (replaceAll_from _ _ 0 s) [62%N]) eqn:E; [|reflexivity].
    apply replaceAll_close_head in E. congruence.
Qed.

Lemma replaceAll_close_no_bare (s : jsstring) :
  bareClose None (replaceAll s (js "/>") (js " />")) = false.
Proof. apply (replaceAll_close_spaced s). Qed.

End JsStringFacts.

(** ** util.ts: [parseXml] and [xmlToString] *)

Module UtilFacts.
Import JsString Dom Util JsStringFacts.

Section Xmldom.
Variable parseFromString : jsstring -> option (list Node).
Variable serializeToString : Node -> jsstring.
Variable pf : Platform.

Lemma parseXml_body (xml : jsstring) :
  exists body,
    (xml = BOM :: body \/ (head xml <> Some BOM /\ xml = body))
    /\ parseXml parseFromString pf xml
       = match parseFromString body with
         | None => Throw ParseError
         | Some result =>
             Ok (Document
                   (Some {| hadBom := bool_decide (xml = BOM :: body);
                            endsWithNewLine := endsWith body [LF];
                            lineEndings := match match_eol body with
                                           | Some e => e
                                           | None => os_EOL pf
                                           end |})
                   result)
         end.
Proof.
  unfold parseXml. destruct xml as [|c rest].
  - exists []. split; [right; split; [discriminate|reflexivity]|].
    rewrite bool_decide_eq_false_2 by discriminate. reflexivity.
  - destruct (N.eqb_spec c BOM) as [->|Hc].
    + exists rest. split; [now left|].
      rewrite bool_decide_eq_true_2 by reflexivity. reflexivity.
    + exists (c :: rest). split; [right; split; [cbn; congruence|reflexivity]|].
      rewrite bool_decide_eq_false_2; [reflexivity|].
      intros H. injection H as H _. congruence.
Qed.

(** C9 (as the code has it).  [parseXml] hands the text without its leading
    byte-order mark to the XML parser and records on the document whether the
    mark was there, whether the remaining text ends with a line feed, and the
    line ending of the first line break: [\r\n] when a carriage return stands
    right before the first line feed, [\n] otherwise.  For a text without any
    line feed the recorded line ending is [os.EOL] of the host platform. *)
Theorem parseXml_metadata (xml : jsstring) :
  exists body,
    (xml = BOM :: body \/ (head xml <> Some BOM /\ xml = body))
    /\ match parseFromString body with
       | None => parseXml parseFromString pf xml = Throw ParseError
       | Some result =>
           exists e,
             parseXml parseFromString pf xml = Ok (Document (Some e) result)
             /\ (hadBom e = true <-> xml = BOM :: body)
             /\ (endsWithNewLine e = true <-> exists front, body = front ++ [LF])
             /\ ((LF ∉ body) -> lineEndings e = os_EOL pf)
             /\ (forall pre post,
                    body = pre ++ LF :: post -> (LF ∉ pre) ->
                    lineEndings e = if endsWith pre [CR] then [CR; LF] else [LF])
       end.
Proof.
  destruct (parseXml_body xml) as (body & Hbody & Hparse).
  exists body. split; [exact Hbody|].
  destruct (parseFromString body) as [result|]; [|exact Hparse].
  eexists. split; [exact Hparse|]. cbn [hadBom endsWithNewLine lineEndings].
  split; [apply bool_decide_eq_true|].
  split; [apply endsWith_char_iff|].
  split.
  - intros H. now rewrite match_eol_absent.
  - intros pre post -> H. now rewrite match_eol_first.
Qed.

(** C1 (as the code has it).  Take a text made of an optional byte-order
    mark followed by [core], optionally one final line feed, with every line
    feed written either as [\n] or, throughout, as [\r\n].  When the XML
    library parses the text and its serialization of the parsed document,
    once [/>] is rewritten to [ />], is [core], the round trip gives the text
    back, code unit for code unit. *)
Theorem roundTrip_canonical (core : jsstring) (bom nl crlf : bool) :
  let tail := if nl then [LF] else [] in
  let body := if crlf then replaceAll (core ++ tail) [LF] [CR; LF] else core ++ tail in
  let text := if bom then BOM :: body else body in
  (bom = false -> head body <> Some BOM) ->
  (nl = false -> endsWith core [LF] = false) ->
  (crlf = false ->
   forall pre post, body = pre ++ LF :: post -> (LF ∉ pre) -> endsWith pre [CR] = false) ->
  (exists doc,
      parseXml parseFromString pf text = Ok doc
      /\ replaceAll (serializeToString doc) (js "/>") (js " />") = core) ->
  roundTrip parseFromString serializeToString pf text = Ok text.
Proof.
  intros tail body text Hbom Hnl Hstyle (doc & Hparse & Hcore).
  unfold roundTrip. rewrite Hparse. cbn [bind]. f_equal.
  destruct (parseXml_body text) as (body' & Hbody' & Hparse').
  assert (body' = body /\ bool_decide (text = BOM :: body') = bom) as [-> Hb].
  { subst text. destruct bom.
    - destruct Hbody' as [H|[H _]]; [|now elim H].
      injection H as <-. split; [reflexivity|]. now apply bool_decide_eq_true_2.
    - specialize (Hbom eq_refl).
      destruct Hbody' as [H|[_ H]].
      + rewrite H in Hbom. now elim Hbom.
      + subst body'. split; [reflexivity|]. apply bool_decide_eq_false_2.
        intros H. rewrite H in Hbom. now elim Hbom. }
  rewrite Hparse in Hparse'. rewrite Hb in Hparse'.
  destruct (parseFromString body) as [result|]; [|discriminate].
  injection Hparse' as ->.
  unfold xmlToString. rewrite Hcore. cbn [extraOf hadBom endsWithNewLine lineEndings].
  assert (Hends : endsWith body [LF] = nl).
  { subst body tail. destruct nl.
    - destruct crlf.
      + rewrite replaceAll_char_app.
        change (replaceAll [LF] [LF] [CR; LF]) with ([CR] ++ [LF]).
        rewrite app_assoc. apply endsWith_snoc.
      + apply endsWith_snoc.
    - rewrite app_nil_r. specialize (Hnl eq_refl). destruct crlf; [|exact Hnl].
      destruct core as [|x core _] using rev_ind; [reflexivity|].
      rewrite endsWith_snoc in Hnl. rewrite replaceAll_char_app.
      rewrite (replaceAll_char [x]). cbn [flat_map]. rewrite Hnl, app_nil_r.
      now rewrite endsWith_snoc. }
  rewrite Hends.
  assert (Hfix : (if eqb (match match_eol body with Some e => e | None => os_EOL pf end)
                         [CR; LF]
                  then replaceAll (core ++ tail) [LF] [CR; LF]
                  else core ++ tail) = body).
  { subst body. destruct crlf.
    - destruct (match_eol_cases (replaceAll (core ++ tail) [LF] [CR; LF]))
        as [[Hno ->]|[Hin _]].
      + destruct (eqb (os_EOL pf) [CR; LF]); [reflexivity|].
        symmetry. apply replaceAll_char_absent. intros Hlf. apply Hno.
        rewrite replaceAll_char. apply list_elem_of_In, in_flat_map.
        exists LF. split; [now apply list_elem_of_In|].
        rewrite N.eqb_refl. right. now left.
      + assert (Hin' : LF ∈ core ++ tail).
        { rewrite replaceAll_char in Hin.
          apply list_elem_of_In, in_flat_map in Hin as (x & Hx & Hin).
          destruct (N.eqb_spec LF x) as [<-|]; [now apply list_elem_of_In|].
          destruct Hin as [<-|[]]. now apply list_elem_of_In. }
        apply list_elem_of_split_l in Hin' as (pre & post & Heq & Hpre).
        rewrite Heq, replaceAll_char_app, (replaceAll_char_absent pre) by exact Hpre.
        change (LF :: post) with ([LF] ++ post).
        rewrite replaceAll_char_app.
        change (replaceAll [LF] [LF] [CR; LF]) with ([CR] ++ [LF]).
        rewrite <- (app_assoc [CR]), (app_assoc pre [CR]).
        cbn [app]. rewrite match_eol_first.
        * rewrite endsWith_snoc. reflexivity.
        * intros Hlf. apply elem_of_app in Hlf as [Hlf|Hlf]; [contradiction|].
          apply list_elem_of_singleton in Hlf. discriminate.
    - specialize (Hstyle eq_refl).
      destruct (match_eol_cases (core ++ tail)) as [[Hno ->]|[Hin _]].
      + destruct (eqb (os_EOL pf) [CR; LF]); [|reflexivity].
        now apply replaceAll_char_absent.
      + apply list_elem_of_split_l in Hin as (pre & post & Heq & Hpre).
        rewrite Heq, match_eol_first by exact Hpre.
        rewrite (Hstyle pre post Heq Hpre). reflexivity. }
  subst text tail.
  destruct bom, nl; cbn [app] in *; rewrite ?app_nil_r in *;
    destruct (eqb _ [CR; LF]);
    rewrite ?(replaceAll_char_cons_ne _ _ LF BOM) by discriminate;
    now rewrite Hfix.
Qed.

End Xmldom.

(** C9, the counterexample.  For the text [<a />], which has no line break,
    the recorded line ending is [\n] on a POSIX host and [\r\n] on a Windows
    host: the default depends on the host platform. *)
Lemma parseXml_default_eol_is_host_eol :
  let parser := fun _ : jsstring => Some [Element None (js "a") [] []] in
  option_map lineEndings
    (match parseXml parser posix (js "<a />") with
     | Ok doc => extraOf doc | Throw _ => None end) = Some [LF]
  /\ option_map lineEndings
       (match parseXml parser win32 (js "<a />") with
        | Ok doc => extraOf doc | Throw _ => None end) = Some [CR; LF].
Proof. split; reflexivity. Qed.

(** C1, the counterexample.  Whatever the XML library does, the round trip
    of the well-formed text [<a/>] is never that text: [xmlToString] puts a
    space before every [/>]. *)
Lemma roundTrip_self_closing_changes :
  ~ (exists parseFromString serializeToString pf,
        roundTrip parseFromString serializeToString pf (js "<a/>")
        = Ok (js "<a/>")).
Proof.
  intros (parse & ser & pf & H).
  unfold roundTrip, parseXml in H. cbn [js] in H.
  change (js "<a/>") with [60%N; 97%N; 47%N; 62%N] in H.
  cbn -[replaceAll os_EOL] in H.
  destruct (parse _) as [result|]; [|discriminate].
  cbn -[replaceAll os_EOL] in H. injection H as H.
  unfold xmlToString in H. cbn -[replaceAll os_EOL js] in H.
  change (N.eqb 60 BOM) with false in H. cbv iota in H.
  set (r := replaceAll _ (js "/>") (js " />")) in H.
  assert (Hr : r = [60%N; 97%N; 47%N; 62%N]).
  { destruct (eqb (os_EOL pf) [CR; LF]); [|exact H].
    rewrite replaceAll_crlf_id in H; [exact H|].
    rewrite H. intros Hin. now repeat (apply elem_of_cons in Hin as [Hin|Hin]; [discriminate|]);
      apply elem_of_nil in Hin. }
  pose proof (replaceAll_close_no_bare (ser (Document
    (Some {| hadBom := false; endsWithNewLine := false; lineEndings := os_EOL pf |})
    result))) as Hb.
  fold r in Hb. rewrite Hr in Hb. discriminate Hb.
Qed.

(** The text [<a />] with a byte-order mark, a final line break and Windows
    line endings. *)
Lemma roundTrip_canonical_witness :
  let parser := fun _ : jsstring => Some [Element None (js "a") [] []] in
  let serializer := fun _ : Node => js "<a/>" in
  let text := BOM :: js "<a />" ++ [CR; LF] in
  roundTrip parser serializer posix text = Ok text.
Proof.
  intros parser serializer text.
  apply (roundTrip_canonical parser serializer posix (js "<a />") true true true).
  - discriminate.
  - discriminate.
  - discriminate.
  - eexists. split; reflexivity.
Defined.

End UtilFacts.

(** ** Node sets in document order *)

Module XPathFacts.
Import JsString Dom XPath Tree.

Section Engine.
Context {unicode : CaseMapping}.

Lemma comparePath_refl (p : list nat) : comparePath p p = Eq.
Proof. induction p as [|i p IH]; cbn; [reflexivity|]. now rewrite Nat.compare_refl. Qed.

Lemma comparePath_eq (p q : list nat) : comparePath p q = Eq -> p = q.
Proof.
  revert q. induction p as [|i p IH]; intros [|j q]; cbn; try discriminate; [reflexivity|].
  destruct (Nat.compare_spec i j) as [->| |]; try discriminate.
  intros Hpq. f_equal. now apply IH.
Qed.

Lemma comparePath_app (p a b : list nat) :
  comparePath (p ++ a) (p ++ b) = comparePath a b.
Proof. induction p as [|i p IH]; cbn; [reflexivity|]. now rewrite Nat.compare_refl. Qed.

Lemma compareHit_refl (h : Hit) : compareHit h h = Eq.
Proof.
  destruct h as [p n|p i a]; cbn; rewrite comparePath_refl; [reflexivity|].
  apply Nat.compare_refl.
Qed.

Lemma compareHit_eq_node (x : Hit) (q : list nat) (n : Node) :
  compareHit x (HNode q n) = Eq -> exists m, x = HNode q m.
Proof.
  destruct x as [p m|p i a]; cbn.
  - intros H. apply comparePath_eq in H. subst. now exists m.
  - destruct (isPrefix p q); [discriminate|]. now destruct (comparePath p q).
Qed.

Lemma addHit_after (h : Hit) (set : list Hit) :
  Forall (fun x => compareHit h x = Gt) set -> addHit h set = set ++ [h].
Proof.
  induction 1 as [|x set Hx _ IH]; cbn; [reflexivity|]. now rewrite Hx, IH.
Qed.

Lemma addHit_present (h x : Hit) (front back : list Hit) :
  Forall (fun y => compareHit h y = Gt) front ->
  compareHit h x = Eq ->
  addHit h (front ++ x :: back) = front ++ x :: back.
Proof.
  induction 1 as [|y front Hy _ IH]; cbn; intros Hx.
  - now rewrite Hx.
  - now rewrite Hy, IH.
Qed.

Lemma fold_addHit_ascending (l acc : list Hit) :
  ascending (acc ++ l) ->
  fold_left (fun set h => addHit h set) l acc = acc ++ l.
Proof.
  revert acc. induction l as [|h l IH]; intros acc Hs; cbn.
  - now rewrite app_nil_r.
  - rewrite addHit_after.
    + rewrite IH; rewrite <- app_assoc; [reflexivity|exact Hs].
    + clear IH. induction acc as [|a acc IHa]; [constructor|].
      cbn in Hs. apply StronglySorted_inv in Hs as [Hs Ha].
      constructor; [|now apply IHa].
      rewrite Forall_forall in Ha. apply Ha, elem_of_app. right. now left.
Qed.

Lemma docOrder_ascending (l : list Hit) : ascending l -> docOrder l = l.
Proof. intros H. apply (fold_addHit_ascending l []), H. Qed.

Lemma fold_addHit_present (l set : list Hit) :
  (forall h, h ∈ l ->
     exists front x back, set = front ++ x :: back
       /\ Forall (fun y => compareHit h y = Gt) front /\ compareHit h x = Eq) ->
  fold_left (fun set h => addHit h set) l set = set.
Proof.
  induction l as [|h l IH]; intros H; cbn; [reflexivity|].
  destruct (H h) as (front & x & back & -> & Hf & Hx); [now left|].
  rewrite addHit_present by assumption. apply IH.
  intros h' Hh'. apply H. now right.
Qed.

Lemma ascending_present (l : list Hit) (h : Hit) :
  ascending l -> h ∈ l ->
  exists front x back, l = front ++ x :: back
    /\ Forall (fun y => compareHit h y = Gt) front /\ compareHit h x = Eq.
Proof.
  intros Hs Hin. apply list_elem_of_split in Hin as (front & back & ->).
  exists front, h, back. split; [reflexivity|]. split; [|apply compareHit_refl].
  induction front as [|a front IH]; [constructor|].
  cbn in Hs. apply StronglySorted_inv in Hs as [Hs Ha].
  constructor; [|now apply IH].
  rewrite Forall_forall in Ha. apply Ha, elem_of_app. right. now left.
Qed.

Lemma ascending_imap {A : Type} (f : nat -> A -> Hit) (l : list A) :
  (forall i j a b, i < j -> compareHit (f j b) (f i a) = Gt) ->
  ascending (imap f l).
Proof.
  revert f. induction l as [|x l IH]; intros f Hf; cbn; [constructor|].
  constructor.
  - apply IH. intros i j a b Hij. apply Hf. lia.
  - rewrite Forall_forall. intros y Hy.
    apply elem_of_lookup_imap in Hy as (i & b & -> & _). apply Hf. lia.
Qed.

Lemma ascending_filter (g : Hit -> bool) (l : list Hit) :
  ascending l -> ascending (List.filter g l).
Proof.
  induction 1 as [|x l Hs IH Hx]; cbn; [constructor|].
  destruct (g x); [|exact IH]. constructor; [exact IH|].
  rewrite Forall_forall in Hx |- *. intros y Hy. apply Hx.
  apply list_elem_of_In, filter_In in Hy as [Hy _]. now apply list_elem_of_In.
Qed.

Lemma ascending_childHits (h : Hit) : ascending (childHits h).
Proof.
  destruct h as [p n|]; [|constructor]. apply ascending_imap.
  intros i j a b Hij. cbn. rewrite comparePath_app. cbn.
  destruct (Nat.compare_spec j i); [lia|lia|reflexivity].
Qed.

Lemma ascending_attributeHits (h : Hit) : ascending (attributeHits h).
Proof.
  destruct h as [p []|]; try constructor. apply ascending_imap.
  intros i j a b Hij. cbn. rewrite comparePath_refl.
  destruct (Nat.compare_spec j i); [lia|lia|reflexivity].
Qed.

Lemma ascending_applyPred (vars : Variables) (pr : Pred) (l : list Hit) :
  ascending l -> ascending (applyPred vars pr l).
Proof.
  intros H. destruct pr; cbn; try now apply ascending_filter.
  destruct (last l); repeat constructor.
Qed.

Lemma ascending_applyStep (vars : Variables) (st : Step) (h : Hit) :
  axis st <> descendant_or_self -> ascending (applyStep vars st h).
Proof.
  intros Hax. unfold applyStep.
  assert (H : ascending (List.filter (testHit (test st)) (axisHits (axis st) h))).
  { apply ascending_filter. destruct (axis st); [apply ascending_childHits|easy|
      apply ascending_attributeHits]. }
  revert H. generalize (List.filter (testHit (test st)) (axisHits (axis st) h)).
  induction (preds st) as [|pr prs IH]; intros l Hl; cbn; [exact Hl|].
  now apply IH, ascending_applyPred.
Qed.

(** The node set of the matches found from several copies of one context. *)
Lemma docOrder_copies (f : Hit -> list Hit) (h : Hit) (raw : list Hit) :
  Forall (fun x => x = h) raw -> raw <> [] -> ascending (f h) ->
  docOrder (flat_map f raw) = f h.
Proof.
  intros Hall Hne Hs. destruct raw as [|x raw]; [contradiction|].
  apply Forall_cons in Hall as [-> Hall]. unfold docOrder. cbn [flat_map].
  rewrite fold_left_app. fold (docOrder (f h)). rewrite docOrder_ascending by exact Hs.
  clear Hne. induction Hall as [|x raw -> _ IH]; [reflexivity|].
  cbn [flat_map]. rewrite fold_left_app.
  rewrite (fold_addHit_present (f h) (f h)); [exact IH|].
  intros h' Hh'. now apply ascending_present.
Qed.

(** Every hit of a node set was a match, and every match is at the place of
    a hit of the node set. *)
Lemma addHit_elem (h x : Hit) (set : list Hit) :
  x ∈ addHit h set -> x = h \/ x ∈ set.
Proof.
  induction set as [|y set IH]; cbn.
  - intros H. apply list_elem_of_singleton in H. now left.
  - destruct (compareHit h y).
    + now right.
    + intros H. apply elem_of_cons in H as [->|H]; [now left|now right].
    + intros H. apply elem_of_cons in H as [->|H]; [right; now left|].
      destruct (IH H) as [->|H']; [now left|right; now right].
Qed.

Lemma addHit_keeps (h x : Hit) (set : list Hit) : x ∈ set -> x ∈ addHit h set.
Proof.
  induction set as [|y set IH]; cbn; intros H; [now apply elem_of_nil in H|].
  destruct (compareHit h y); [exact H|now right|].
  apply elem_of_cons in H as [->|H]; [now left|right; now apply IH].
Qed.

Lemma addHit_placed (h : Hit) (set : list Hit) :
  exists y, y ∈ addHit h set /\ compareHit h y = Eq.
Proof.
  induction set as [|y set (z & Hz & Hc)]; cbn.
  - exists h. split; [now left|apply compareHit_refl].
  - destruct (compareHit h y) eqn:E.
    + exists y. split; [now left|exact E].
    + exists h. split; [now left|apply compareHit_refl].
    + exists z. split; [now right|exact Hc].
Qed.

Lemma fold_addHit_elem (l set : list Hit) (x : Hit) :
  x ∈ fold_left (fun set h => addHit h set) l set -> x ∈ l \/ x ∈ set.
Proof.
  revert set. induction l as [|h l IH]; cbn; intros set H; [now right|].
  destruct (IH _ H) as [H'|H']; [left; now right|].
  destruct (addHit_elem _ _ _ H') as [->|H'']; [left; now left|now right].
Qed.

Lemma fold_addHit_keeps (l set : list Hit) (x : Hit) :
  x ∈ set -> x ∈ fold_left (fun set h => addHit h set) l set.
Proof.
  revert set. induction l as [|h l IH]; cbn; intros set H; [exact H|].
  now apply IH, addHit_keeps.
Qed.

Lemma fold_addHit_placed (l set : list Hit) (h : Hit) :
  h ∈ l ->
  exists y, y ∈ fold_left (fun set h => addHit h set) l set /\ compareHit h y = Eq.
Proof.
  revert set. induction l as [|a l IH]; intros set H; [now apply elem_of_nil in H|].
  cbn. apply elem_of_cons in H as [->|H]; [|now apply IH].
  destruct (addHit_placed a set) as (y & Hy & Hc).
  exists y. split; [now apply fold_addHit_keeps|exact Hc].
Qed.

Lemma docOrder_elem (l : list Hit) (x : Hit) : x ∈ docOrder l -> x ∈ l.
Proof.
  intros H. destruct (fold_addHit_elem _ _ _ H) as [H'|H']; [exact H'|].
  now apply elem_of_nil in H'.
Qed.

(** *** Induction on trees *)

Section NodeInduction.
Variable P : Node -> Prop.
Hypothesis HDocument : forall e cs, Forall P cs -> P (Document e cs).
Hypothesis HElement : forall ns nm attrs cs, Forall P cs -> P (Element ns nm attrs cs).
Hypothesis HText : forall d, P (Text d).
Hypothesis HCData : forall d, P (CDATASection d).
Hypothesis HComment : forall d, P (Comment d).
Hypothesis HPI : forall t d, P (ProcessingInstruction t d).

Fixpoint Node_tree_ind (n : Node) : P n :=
  let all :=
    fix all (cs : list Node) : Forall P cs :=
      match cs with
      | [] => List.Forall_nil P
      | c :: cs' => @List.Forall_cons _ P c cs' (Node_tree_ind c) (all cs')
      end in
  match n with
  | Document e cs => HDocument e cs (all cs)
  | Element ns nm attrs cs => HElement ns nm attrs cs (all cs)
  | Text d => HText d
  | CDATASection d => HCData d
  | Comment d => HComment d
  | ProcessingInstruction t d => HPI t d
  end.
End NodeInduction.

Lemma subtreeHits_unfold (p : list nat) (n : Node) :
  subtreeHits p n = HNode p n :: forestHits p 0 (children n).
Proof.
  assert (H : forall cs i,
             (fix go (i : nat) (cs : list Node) {struct cs} : list Hit :=
                match cs with
                | [] => []
                | c :: cs' => subtreeHits (p ++ [i]) c ++ go (S i) cs'
                end) i cs = forestHits p i cs).
  { induction cs as [|c cs IH]; intros i; cbn; [reflexivity|]. now rewrite IH. }
  destruct n; cbn; rewrite ?H; reflexivity.
Qed.

Lemma lookup_app (doc : Node) (q r : list nat) :
  lookup doc (q ++ r) = match lookup doc q with Some n => lookup n r | None => None end.
Proof.
  revert doc. induction q as [|i q IH]; intros doc; cbn; [reflexivity|].
  destruct (children doc !! i); [apply IH|reflexivity].
Qed.

(** Every hit of a subtree is a node of it, at its place. *)
Lemma forestHits_lookup (cs : list Node) :
  Forall (fun n => forall p x, x ∈ subtreeHits p n ->
                     exists r m, x = HNode (p ++ r) m /\ lookup n r = Some m) cs ->
  forall p i x, x ∈ forestHits p i cs ->
    exists j c r m, cs !! j = Some c /\ x = HNode (p ++ (i + j) :: r) m
                    /\ lookup c r = Some m.
Proof.
  induction 1 as [|c cs Hc _ IH]; intros p i x Hx; cbn in Hx.
  - now apply elem_of_nil in Hx.
  - apply elem_of_app in Hx as [Hx|Hx].
    + destruct (Hc _ _ Hx) as (r & m & -> & Hm).
      exists 0, c, r, m. rewrite Nat.add_0_r, <- app_assoc. now split.
    + destruct (IH _ _ _ Hx) as (j & c' & r & m & Hj & -> & Hm).
      exists (S j), c', r, m. rewrite Nat.add_succ_r. now split.
Qed.

Lemma subtreeHits_lookup (n : Node) :
  forall p x, x ∈ subtreeHits p n ->
    exists r m, x = HNode (p ++ r) m /\ lookup n r = Some m.
Proof.
  induction n as [e cs IH|ns nm attrs cs IH|d|d|d|t d] using Node_tree_ind;
    intros p x Hx; rewrite subtreeHits_unfold in Hx;
    apply elem_of_cons in Hx as [->|Hx];
    try (eexists [], _; rewrite app_nil_r; split; reflexivity);
    try (now apply elem_of_nil in Hx).
  - destruct (forestHits_lookup cs IH _ _ _ Hx) as (j & c & r & m & Hj & -> & Hm).
    exists (j :: r), m. split; [reflexivity|]. cbn. now rewrite Hj.
  - destruct (forestHits_lookup cs IH _ _ _ Hx) as (j & c & r & m & Hj & -> & Hm).
    exists (j :: r), m. split; [reflexivity|]. cbn. now rewrite Hj.
Qed.

Lemma childHits_elem (p : list nat) (n : Node) (x : Hit) :
  x ∈ childHits (HNode p n) <->
  exists i c, children n !! i = Some c /\ x = HNode (p ++ [i]) c.
Proof.
  cbn. rewrite elem_of_lookup_imap. split.
  - intros (i & c & -> & Hc). now exists i, c.
  - intros (i & c & Hc & ->). now exists i, c.
Qed.

Lemma axisHits_valid (doc : Node) (a : Axis) (h x : Hit) :
  validHit doc h -> x ∈ axisHits a h -> validHit doc x.
Proof.
  destruct h as [q n|q i at_]; intros Hv Hx.
  - cbn in Hv. destruct a; cbn [axisHits] in Hx.
    + apply childHits_elem in Hx as (i & c & Hc & ->). cbn.
      rewrite lookup_app, Hv. cbn. now rewrite Hc.
    + apply subtreeHits_lookup in Hx as (r & m & -> & Hm). cbn.
      now rewrite lookup_app, Hv.
    + destruct n; cbn in Hx; try (now apply elem_of_nil in Hx).
      apply elem_of_lookup_imap in Hx as (i & c & -> & _). exact I.
  - destruct a; cbn in Hx; try (now apply elem_of_nil in Hx).
    apply list_elem_of_singleton in Hx. now subst.
Qed.

Lemma applyPred_elem (vars : Variables) (pr : Pred) (l : list Hit) (x : Hit) :
  x ∈ applyPred vars pr l -> x ∈ l.
Proof.
  destruct pr; cbn.
  - destruct (last l) as [h|] eqn:E; intros H; [|now apply elem_of_nil in H].
    apply list_elem_of_singleton in H. subst.
    rewrite last_lookup in E. eapply list_elem_of_lookup_2, E.
  - intros H. apply list_elem_of_In, filter_In in H as [H _]. now apply list_elem_of_In.
  - intros H. apply list_elem_of_In, filter_In in H as [H _]. now apply list_elem_of_In.
Qed.

Lemma applyPreds_elem (vars : Variables) (prs : list Pred) (l : list Hit) (x : Hit) :
  x ∈ fold_left (fun l pr => applyPred vars pr l) prs l -> x ∈ l.
Proof.
  revert l. induction prs as [|pr prs IH]; cbn; intros l H; [exact H|].
  eapply applyPred_elem, IH, H.
Qed.

Lemma applyStep_elem (vars : Variables) (st : Step) (h x : Hit) :
  x ∈ applyStep vars st h ->
  x ∈ axisHits (axis st) h /\ testHit (test st) x = true.
Proof.
  intros H. apply applyPreds_elem, list_elem_of_In, filter_In in H as [H Ht].
  split; [now apply list_elem_of_In|exact Ht].
Qed.

Lemma evalSteps_valid (doc : Node) (vars : Variables) (steps : list Step) (ctx : list Hit) :
  Forall (validHit doc) ctx -> Forall (validHit doc) (evalSteps vars steps ctx).
Proof.
  revert ctx. induction steps as [|st steps IH]; intros ctx H; [exact H|].
  cbn. apply IH. rewrite Forall_forall in H |- *. intros x Hx.
  apply list_elem_of_In, in_flat_map in Hx as (h & Hh & Hx).
  apply list_elem_of_In in Hh, Hx. apply applyStep_elem in Hx as [Hx _].
  eapply axisHits_valid; [apply H, Hh|exact Hx].
Qed.

Lemma evalSteps_snoc (vars : Variables) (steps : list Step) (st : Step) (ctx : list Hit) :
  evalSteps vars (steps ++ [st]) ctx = flat_map (applyStep vars st) (evalSteps vars steps ctx).
Proof. unfold evalSteps. now rewrite fold_left_app. Qed.

(** A selector with one match in [doc]: every match found is that one. *)
Lemma single_match (doc : Node) (vars : Variables) (steps : list Step)
    (q : list nat) (n : Node) :
  evaluate (ELocationPath steps) vars doc = XNodeSet [HNode q n] ->
  Forall (fun x => x = HNode q n) (evalSteps vars steps [HNode [] doc])
  /\ evalSteps vars steps [HNode [] doc] <> [].
Proof.
  cbn. intros H. injection H as H.
  set (raw := evalSteps vars steps [HNode [] doc]) in *.
  assert (Hvalid : Forall (validHit doc) raw).
  { apply evalSteps_valid. constructor; [reflexivity|constructor]. }
  rewrite Forall_forall in Hvalid.
  assert (Hh : HNode q n ∈ raw).
  { apply docOrder_elem. rewrite H. now left. }
  split.
  - rewrite Forall_forall. intros x Hx.
    destruct (fold_addHit_placed raw [] x Hx) as (y & Hy & Hc).
    fold (docOrder raw) in Hy. rewrite H in Hy.
    apply list_elem_of_singleton in Hy. subst y.
    apply compareHit_eq_node in Hc as (m & ->).
    pose proof (Hvalid _ Hx) as Hm. pose proof (Hvalid _ Hh) as Hn.
    cbn in Hm, Hn. congruence.
  - intros E. rewrite E in Hh. now apply elem_of_nil in Hh.
Qed.

(** The matches of one more step, for a selector with one match. *)
Lemma single_match_step (doc : Node) (vars : Variables) (steps : list Step) (st : Step)
    (q : list nat) (n : Node) :
  evaluate (ELocationPath steps) vars doc = XNodeSet [HNode q n] ->
  ascending (applyStep vars st (HNode q n)) ->
  evaluate (ELocationPath (steps ++ [st])) vars doc
  = XNodeSet (applyStep vars st (HNode q n)).
Proof.
  intros H Hs. destruct (single_match _ _ _ _ _ H) as [Hall Hne].
  cbn. rewrite evalSteps_snoc. f_equal. now apply docOrder_copies.
Qed.

(** *** Document order is a strict order, and a node set is sorted by it *)

Lemma comparePath_antisym (p q : list nat) :
  comparePath q p = CompOpp (comparePath p q).
Proof.
  revert q. induction p as [|i p IH]; intros [|j q]; cbn; try reflexivity.
  rewrite (Nat.compare_antisym i j).
  destruct (Nat.compare i j); cbn; [apply IH|reflexivity|reflexivity].
Qed.

Lemma comparePath_trans (c : comparison) (p q r : list nat) :
  c <> Eq -> comparePath p q = c -> comparePath q r = c -> comparePath p r = c.
Proof.
  intros Hc. revert q r.
  induction p as [|i p IH]; intros [|j q] [|k r]; cbn; try congruence.
  destruct (Nat.compare_spec i j), (Nat.compare_spec j k), (Nat.compare_spec i k);
    subst; try lia; try congruence; apply IH.
Qed.

Lemma encodePath_compare (p q : list nat) :
  comparePath (encodePath p) (encodePath q) = comparePath p q.
Proof.
  revert q. induction p as [|i p IH]; intros [|j q]; cbn; try reflexivity.
  destruct (Nat.compare i j); [apply IH|reflexivity|reflexivity].
Qed.

Lemma encodePath_node_attr (p q : list nat) (i : nat) :
  comparePath (encodePath p) (encodePath q ++ [0; i])
  = match comparePath p q with Eq => Lt | c => c end.
Proof.
  revert q. induction p as [|k p IH]; intros [|j q]; cbn; try reflexivity.
  destruct (Nat.compare k j); [apply IH|reflexivity|reflexivity].
Qed.

Lemma encodePath_attr_node (p q : list nat) (i : nat) :
  comparePath (encodePath p ++ [0; i]) (encodePath q)
  = if isPrefix p q then Lt else match comparePath p q with Eq => Gt | c => c end.
Proof.
  revert q. induction p as [|k p IH]; intros [|j q]; cbn; try reflexivity.
  destruct (Nat.compare_spec k j) as [->| |].
  - rewrite Nat.eqb_refl. apply IH.
  - destruct (Nat.eqb_spec k j); [lia|reflexivity].
  - destruct (Nat.eqb_spec k j); [lia|reflexivity].
Qed.

Lemma encodePath_attr_attr (p q : list nat) (i j : nat) :
  comparePath (encodePath p ++ [0; i]) (encodePath q ++ [0; j])
  = match comparePath p q with
    | Eq => Nat.compare i j
    | c => if isPrefix p q then Lt else if isPrefix q p then Gt else c
    end.
Proof.
  revert q. induction p as [|k p IH]; intros [|l q]; cbn; try reflexivity.
  - now destruct (Nat.compare i j).
  - destruct (Nat.compare_spec k l) as [->| |].
    + rewrite Nat.eqb_refl. apply IH.
    + destruct (Nat.eqb_spec k l); [lia|]. destruct (Nat.eqb_spec l k); [lia|reflexivity].
    + destruct (Nat.eqb_spec k l); [lia|]. destruct (Nat.eqb_spec l k); [lia|reflexivity].
Qed.

(** Document order is the order of the places. *)
Lemma compareHit_key (a b : Hit) :
  compareHit a b = comparePath (placeKey a) (placeKey b).
Proof.
  destruct a as [p n|p i x], b as [q n'|q j y]; cbn [compareHit placeKey].
  - now rewrite encodePath_compare.
  - now rewrite encodePath_node_attr.
  - now rewrite encodePath_attr_node.
  - now rewrite encodePath_attr_attr.
Qed.

Lemma compareHit_antisym (a b : Hit) : compareHit b a = CompOpp (compareHit a b).
Proof. rewrite !compareHit_key. apply comparePath_antisym. Qed.

Lemma compareHit_trans (c : comparison) (x y z : Hit) :
  c <> Eq -> compareHit x y = c -> compareHit y z = c -> compareHit x z = c.
Proof. rewrite !compareHit_key. apply comparePath_trans. Qed.

Lemma compareHit_same_place (x y z : Hit) :
  compareHit x y = Eq -> compareHit z x = compareHit z y.
Proof.
  rewrite !compareHit_key. intros H. apply comparePath_eq in H. now rewrite H.
Qed.

Lemma addHit_ascending (h : Hit) (set : list Hit) :
  ascending set -> ascending (addHit h set).
Proof.
  induction 1 as [|x rest Hs IH Hx]; cbn [addHit]; [repeat constructor|].
  destruct (compareHit h x) eqn:E.
  - now constructor.
  - assert (Hxh : compareHit x h = Gt) by (now rewrite compareHit_antisym, E).
    constructor; [now constructor|]. constructor; [exact Hxh|].
    rewrite Forall_forall in Hx |- *. intros b Hb.
    apply (compareHit_trans Gt b x h); [discriminate|now apply Hx|exact Hxh].
  - constructor; [exact IH|]. rewrite Forall_forall in Hx |- *. intros b Hb.
    apply addHit_elem in Hb as [->|Hb]; [exact E|now apply Hx].
Qed.

Lemma docOrder_sorted (l : list Hit) : ascending (docOrder l).
Proof.
  unfold docOrder. assert (H : ascending []) by constructor. revert H.
  generalize (@nil Hit). induction l as [|h l IH]; intros set H; cbn; [exact H|].
  now apply IH, addHit_ascending.
Qed.

(** The first node of a node set stands before every other node of the set
    and not after any match. *)
Lemma ascending_first (first : Hit) (more : list Hit) :
  ascending (first :: more) -> Forall (fun later => compareHit first later = Lt) more.
Proof.
  intros H. apply StronglySorted_inv in H as [_ H].
  eapply Forall_impl; [exact H|]. intros b Hb. cbn in Hb.
  now rewrite compareHit_antisym, Hb.
Qed.

Lemma docOrder_first (raw : list Hit) (first : Hit) (more : list Hit) :
  docOrder raw = first :: more ->
  first ∈ raw /\ forall h, h ∈ raw -> compareHit first h <> Gt.
Proof.
  intros H. split; [apply docOrder_elem; rewrite H; now left|].
  intros h Hh. destruct (fold_addHit_placed raw [] h Hh) as (y & Hy & Hc).
  fold (docOrder raw) in Hy. rewrite H in Hy.
  rewrite (compareHit_same_place h y first Hc).
  apply elem_of_cons in Hy as [->|Hy].
  - now rewrite compareHit_refl.
  - pose proof (docOrder_sorted raw) as Hs. rewrite H in Hs.
    apply ascending_first in Hs. rewrite Forall_forall in Hs.
    now rewrite (Hs y Hy).
Qed.

End Engine.

End XPathFacts.

(** ** xpath-extra.ts: the selectors of one node *)

Module XPathExtraFacts.
Import JsString Dom XPath Tree XPathExtra XPathFacts.

Section Engine.
Context {unicode : CaseMapping}.

Lemma hitType_nonzero (h : Hit) : N.eqb (hitType h) 0 = false.
Proof. destruct h as [p []|]; reflexivity. Qed.

(** C10.  When the node set of a query is [first :: more], [first] is the
    first match in document order: it stands before every node of [more],
    and, the query being a location path, it is one of the nodes the steps
    match and none of them stands before it.  A single-result selector
    answers from [first] alone: it returns [first] when its kind is the
    expected one (any kind for [select1Node]) and throws on the kind of
    [first] otherwise; the further matches [more], whatever they are, change
    nothing and are not reported. *)
Theorem select1_first_match_only
    (expression : Expr) (node : Node) (options : SelectOptions)
    (first : Hit) (more : list Hit) :
  selectNodeSet expression node options = XNodeSet (first :: more) ->
  Forall (fun later => compareHit first later = Lt) more
  /\ (forall steps,
        expression = ELocationPath steps ->
        first ∈ evalSteps options steps [HNode [] node]
        /\ forall h, h ∈ evalSteps options steps [HNode [] node] ->
                     compareHit first h <> Gt)
  /\ (forall expectedType,
        checkedSelect1 expression node expectedType options = answerFor expectedType first)
  /\ select1Node expression node options = Ok (Some first)
  /\ select1Element expression node options = answerFor (Some ELEMENT_NODE) first
  /\ select1Attribute expression node options = answerFor (Some ATTRIBUTE_NODE) first
  /\ select1Text expression node options = answerFor (Some TEXT_NODE) first.
Proof.
  intros Hsel.
  assert (Hraw : exists raw, docOrder raw = first :: more
                             /\ forall steps, expression = ELocationPath steps ->
                                   raw = evalSteps options steps [HNode [] node]).
  { unfold selectNodeSet in Hsel. destruct expression as [steps| | |]; try discriminate.
    cbn [evaluate] in Hsel. injection Hsel as Hsel.
    eexists. split; [exact Hsel|]. now intros steps' [= <-]. }
  destruct Hraw as (raw & Hraw & Hsteps).
  split.
  { apply ascending_first. rewrite <- Hraw. apply docOrder_sorted. }
  split.
  { intros steps E. rewrite <- (Hsteps steps E). now apply (docOrder_first raw first more). }
  assert (H : forall expectedType,
             checkedSelect1 expression node expectedType options
             = answerFor expectedType first).
  { intros expectedType. unfold checkedSelect1. rewrite Hsel. cbn [head].
    destruct expectedType as [t|]; cbn [answerFor]; [|reflexivity].
    destruct (N.eqb (hitType first) t); [reflexivity|].
    now rewrite hitType_nonzero. }
  split; [exact H|]. repeat split; apply H.
Qed.

End Engine.

#[local] Existing Instance asciiOnly.

(** The query [//b//c] on [<b><b><c>1</c></b><c>2</c></b>]: the steps reach
    the second [<c>] first, from the outer [<b>], and the first one twice,
    from the inner [<b>]; the node set has each once, in document order, and
    the selector returns the first. *)
Lemma select1_first_match_only_witness :
  let c1 := Element None (js "c") [] [Text (js "1")] in
  let c2 := Element None (js "c") [] [Text (js "2")] in
  let node :=
    Document None [Element None (js "b") [] [Element None (js "b") [] [c1]; c2]] in
  let steps := [anywhere; childNamed "b" []; anywhere; childNamed "c" []] in
  evalSteps ∅ steps [HNode [] node]
  = [HNode [0; 1] c2; HNode [0; 0; 0] c1; HNode [0; 0; 0] c1]
  /\ select1Element (ELocationPath steps) node ∅ = Ok (Some (HNode [0; 0; 0] c1))
  /\ compareHit (HNode [0; 0; 0] c1) (HNode [0; 1] c2) = Lt.
Proof.
  intros c1 c2 node steps.
  destruct (select1_first_match_only (ELocationPath steps) node ∅
              (HNode [0; 0; 0] c1) [HNode [0; 1] c2] eq_refl)
    as (Hlater & _ & _ & _ & He & _).
  split; [reflexivity|]. split; [exact He|].
  now apply Forall_cons in Hlater as [Hlater _].
Defined.

End XPathExtraFacts.

(** ** Reading an attribute *)

Module AttributeFacts.
Import JsString Dom XPath Tree XPathExtra XPathFacts.

Section Engine.
Context {unicode : CaseMapping}.

Lemma attributeValue_attr (nm : string) (node : Node) :
  attributeValue (attr nm) node = Ok (head (attrValues (js nm) (HNode [] node))).
Proof.
  unfold attributeValue, select1Attribute, checkedSelect1, selectNodeSet, attr, evaluate.
  cbn [evalSteps fold_left flat_map]. rewrite app_nil_r.
  rewrite docOrder_ascending by (now apply ascending_applyStep).
  unfold applyStep, attrValues. cbn [preds fold_left axis test axisHits].
  set (l := List.filter _ _).
  assert (Hl : Forall (fun x => exists i a, x = HAttr [] i a) l).
  { rewrite Forall_forall. intros x Hx.
    apply list_elem_of_In, filter_In in Hx as [Hx _]. apply list_elem_of_In in Hx.
    destruct node; cbn in Hx; try (now apply elem_of_nil in Hx).
    apply elem_of_lookup_imap in Hx as (i & a & -> & _). now exists i, a. }
  destruct l as [|x l]; [reflexivity|].
  apply Forall_cons in Hl as [(i & a & ->) _]. reflexivity.
Qed.

End Engine.

End AttributeFacts.

(** ** bonsai.ts: addPackageSources *)

Module MergeFacts.
Import JsString Dom XPath Tree XPathExtra Bonsai XPathFacts AttributeFacts.

Section Engine.
Context {unicode : CaseMapping}.

Lemma bind_ok {A B : Type} (r : Result A) (k : A -> Result B) (b : B) :
  bind r k = Ok b -> exists a, r = Ok a /\ k a = Ok b.
Proof. destruct r as [a|e]; cbn; [|discriminate]. intros H. now exists a. Qed.

(** *** The loop that adds the sources *)

Lemma byName_snoc (sources : list NuGet.NuGetPackageSource) (s : NuGet.NuGetPackageSource) :
  byName (sources ++ [s]) = <[NuGet.name s := s]> (byName sources).
Proof. unfold byName. now rewrite fold_left_app. Qed.

Lemma byName_lookup_None (sources : list NuGet.NuGetPackageSource) (nm : list N) :
  nm ∉ List.map NuGet.name sources -> (byName sources : gmap (list N) _) !! nm = None.
Proof.
  induction sources as [|s sources IH] using rev_ind; intros H; [reflexivity|].
  rewrite byName_snoc. rewrite List.map_app in H.
  apply not_elem_of_app in H as [H1 H2]. cbn in H2.
  rewrite lookup_insert_ne; [now apply IH|].
  intros E. apply H2. rewrite E. now left.
Qed.

Lemma byName_lookup (sources : list NuGet.NuGetPackageSource) (s : NuGet.NuGetPackageSource) :
  NoDup (List.map NuGet.name sources) -> s ∈ sources ->
  (byName sources : gmap (list N) _) !! NuGet.name s = Some s.
Proof.
  induction sources as [|x sources IH] using rev_ind; intros Hnd Hs;
    [now apply elem_of_nil in Hs|].
  rewrite byName_snoc. rewrite List.map_app in Hnd. cbn in Hnd.
  apply NoDup_app in Hnd as (Hnd & Hx & _).
  apply elem_of_app in Hs as [Hs|Hs].
  - rewrite lookup_insert_ne; [now apply IH|].
    intros E. apply (Hx (NuGet.name s)).
    + apply list_elem_of_In, in_map, list_elem_of_In, Hs.
    + rewrite E. now left.
  - apply list_elem_of_singleton in Hs. subst. apply lookup_insert_eq.
Qed.

Lemma byName_lookup_Some (sources : list NuGet.NuGetPackageSource) (nm : list N)
    (s : NuGet.NuGetPackageSource) :
  (byName sources : gmap (list N) _) !! nm = Some s -> s ∈ sources /\ NuGet.name s = nm.
Proof.
  induction sources as [|x sources IH] using rev_ind; [discriminate|].
  rewrite byName_snoc. destruct (decide (NuGet.name x = nm)) as [<-|Hne].
  - rewrite lookup_insert_eq. intros [= ->]. split; [|reflexivity].
    apply elem_of_app. right. now left.
  - rewrite lookup_insert_ne by exact Hne. intros H.
    destruct (IH H) as [Hs Hn]. split; [|exact Hn]. apply elem_of_app. now left.
Qed.

(** With names that differ the loop adds every source. *)
Lemma insertSources_from (ind : Node) (done sources : list NuGet.NuGetPackageSource)
    (front : list Node) :
  NoDup (List.map NuGet.name (done ++ sources)) ->
  insertSources ind
    {| before := front ++ inserted (cloneNode ind) done; newSources := byName done |} sources
  = Ok {| before := front ++ inserted (cloneNode ind) (done ++ sources);
          newSources := byName (done ++ sources) |}.
Proof.
  revert done. induction sources as [|s sources IH]; intros done Hnd.
  - now rewrite app_nil_r.
  - cbn [insertSources]. unfold insertSource. cbn [newSources before].
    rewrite byName_lookup_None.
    + cbn [bind]. replace (done ++ s :: sources) with ((done ++ [s]) ++ sources) in *
        by now rewrite <- app_assoc.
      rewrite <- (IH (done ++ [s]) Hnd). f_equal. f_equal.
      * unfold inserted. rewrite flat_map_app, <- app_assoc. reflexivity.
      * now rewrite byName_snoc.
    + rewrite List.map_app in Hnd. apply NoDup_app in Hnd as (_ & Hd & _).
      intros Hin. apply (Hd _ Hin). now left.
Qed.

Lemma insertSources_ok (ind : Node) (sources : list NuGet.NuGetPackageSource)
    (front : list Node) :
  NoDup (List.map NuGet.name sources) ->
  insertSources ind {| before := front; newSources := ∅ |} sources
  = Ok {| before := front ++ inserted (cloneNode ind) sources;
          newSources := byName sources |}.
Proof.
  intros H. pose proof (insertSources_from ind [] sources front H) as E.
  cbn in E. now rewrite app_nil_r in E.
Qed.

(** The loop stops at the first source whose name was seen before. *)
Lemma insertSources_repeat (ind : Node) (firsts rest : list NuGet.NuGetPackageSource)
    (s : NuGet.NuGetPackageSource) (front : list Node) :
  NoDup (List.map NuGet.name firsts) ->
  NuGet.name s ∈ List.map NuGet.name firsts ->
  insertSources ind {| before := front; newSources := ∅ |} (firsts ++ s :: rest)
  = Throw (DuplicateSourceName (NuGet.name s)).
Proof.
  intros Hnd Hin.
  assert (H : forall done l st,
             insertSources ind st (done ++ l)
             = do st' <- insertSources ind st done; insertSources ind st' l).
  { induction done as [|x done IHd]; intros l st; cbn; [reflexivity|].
    destruct (insertSource ind st x); cbn; [apply IHd|reflexivity]. }
  rewrite H, insertSources_ok by exact Hnd. cbn [bind insertSources].
  unfold insertSource. cbn [newSources].
  apply list_elem_of_In, in_map_iff in Hin as (x & Hx & Hin).
  apply list_elem_of_In in Hin.
  rewrite <- Hx, (byName_lookup firsts x Hnd Hin). reflexivity.
Qed.

(** A list with a repeated element, cut at the first repetition. *)
Lemma first_repeat {A : Type} `{EqDecision A} (l : list A) :
  ~ NoDup l -> exists l1 x l2, l = l1 ++ x :: l2 /\ NoDup l1 /\ x ∈ l1.
Proof.
  induction l as [|x l IH] using rev_ind; intros H.
  - elim H. constructor.
  - destruct (decide (NoDup l)) as [Hl|Hl].
    + exists l, x, []. split; [reflexivity|]. split; [exact Hl|].
      destruct (decide (x ∈ l)) as [Hx|Hx]; [exact Hx|].
      elim H. apply NoDup_app. split; [exact Hl|]. split; [|apply NoDup_singleton].
      intros y Hy Hy'. apply list_elem_of_singleton in Hy'. now subst.
    + destruct (IH Hl) as (l1 & y & l2 & -> & Hnd & Hy).
      exists l1, y, (l2 ++ [x]). now rewrite <- app_assoc.
Qed.

Section Xmldom.
Variable parseFromString : jsstring -> option (list Node).
Variable serializeToString : Node -> jsstring.
Variable pf : Platform.

(** *** The loop over the entries from the insertion point on *)

Lemma disableReplaced1_not_element (sources : gmap (list N) NuGet.NuGetPackageSource)
    (node : Node) :
  nodeType node <> ELEMENT_NODE -> disableReplaced1 serializeToString sources node = Ok node.
Proof. destruct node; cbn; intros H; congruence. Qed.

Lemma disableReplaced1_unexpected (sources : gmap (list N) NuGet.NuGetPackageSource)
    (ns : option jsstring) (nm : jsstring) (attrs : list Attr) (cs : list Node) :
  nm <> js "add" ->
  disableReplaced1 serializeToString sources (Element ns nm attrs cs) = Throw (UnexpectedNode nm).
Proof.
  intros H. cbn. unfold eqb. now rewrite bool_decide_eq_false_2.
Qed.

Lemma disableReplaced1_add (sources : gmap (list N) NuGet.NuGetPackageSource)
    (ns : option jsstring) (attrs : list Attr) (cs : list Node) :
  let node := Element ns (js "add") attrs cs in
  disableReplaced1 serializeToString sources node
  = match keyOf node with
    | Some (c :: nm) =>
        match sources !! (c :: nm) with
        | Some newSource =>
            if NuGet.allowUpdate newSource
            then Ok (Comment (32%N :: Util.xmlToString serializeToString node ++ [32%N]))
            else Throw (UpdateNotEnabled (NuGet.name newSource) (NuGet.url newSource)
                          (urlOf node))
        | None => Ok node
        end
    | _ => Throw MissingSourceName
    end.
Proof.
  intros node. unfold disableReplaced1, node, eqb.
  rewrite bool_decide_eq_true_2 by reflexivity. cbn [negb].
  rewrite !attributeValue_attr. cbn [bind]. fold node. fold (keyOf node) (urlOf node).
  destruct (keyOf node) as [[|c nm]|]; cbn [truthy negb default from_option id];
    try reflexivity.
  change (id (c :: nm)) with (c :: nm).
  destruct (sources !! (c :: nm)) as [newSource|]; [|reflexivity].
  now destruct (NuGet.allowUpdate newSource).
Qed.

Lemma disableReplaced_app (sources : gmap (list N) NuGet.NuGetPackageSource)
    (front rest : list Node) :
  disableReplaced serializeToString sources (front ++ rest)
  = do front' <- disableReplaced serializeToString sources front;
    do rest' <- disableReplaced serializeToString sources rest;
    Ok (front' ++ rest').
Proof.
  induction front as [|n front IH]; cbn.
  - now destruct (disableReplaced _ _ rest).
  - destruct (disableReplaced1 _ _ n); cbn; [|reflexivity].
    rewrite IH. destruct (disableReplaced _ _ front); cbn; [|reflexivity].
    now destruct (disableReplaced _ _ rest).
Qed.

(** An entry the loop leaves is either kept or turned into a comment. *)
Lemma disableReplaced_length (sources : gmap (list N) NuGet.NuGetPackageSource)
    (nodes nodes' : list Node) :
  disableReplaced serializeToString sources nodes = Ok nodes' ->
  length nodes' = length nodes.
Proof.
  revert nodes'. induction nodes as [|n nodes IH]; cbn; intros nodes' H.
  - now injection H as <-.
  - apply bind_ok in H as (n' & _ & H). apply bind_ok in H as (r & Hr & H).
    injection H as <-. cbn. f_equal. now apply IH.
Qed.

Lemma mergeChildren_split (ind : Node) (front rest : list Node)
    (sources : list NuGet.NuGetPackageSource) :
  NoDup (List.map NuGet.name sources) ->
  mergeChildren serializeToString ind (length front) (front ++ rest) sources
  = do rest' <- disableReplaced serializeToString (byName sources) rest;
    Ok (front ++ inserted (cloneNode ind) sources ++ rest').
Proof.
  intros Hnd. unfold mergeChildren.
  rewrite take_app_length, drop_app_length, insertSources_ok by exact Hnd.
  cbn [bind newSources before].
  destruct (disableReplaced _ _ rest); cbn; [|reflexivity]. now rewrite <- app_assoc.
Qed.

End Xmldom.

End Engine.

End MergeFacts.

Module MergeTheorems.
Import JsString Dom XPath Tree XPathExtra Bonsai XPathFacts AttributeFacts MergeFacts.

Section Engine.
Context {unicode : CaseMapping}.

Section Xmldom.
Variable parseFromString : jsstring -> option (list Node).
Variable serializeToString : Node -> jsstring.
Variable pf : Platform.


(** C8 (as the code has it).  The walk passes over every node that is not an
    element, and fails with the unexpected-node error at the first element it
    reaches whose name is not [add]. *)
Theorem unexpected_element_fails
    (ind : Node) (front walked walked' rest : list Node)
    (ns : option jsstring) (nm : jsstring) (attrs : list Attr) (cs : list Node)
    (sources : list NuGet.NuGetPackageSource) :
  NoDup (List.map NuGet.name sources) ->
  disableReplaced serializeToString (byName sources) walked = Ok walked' ->
  nm <> js "add" ->
  mergeChildren serializeToString ind (length front)
    (front ++ walked ++ Element ns nm attrs cs :: rest) sources
  = Throw (UnexpectedNode nm)
  /\ (forall node, nodeType node <> ELEMENT_NODE ->
        disableReplaced1 serializeToString (byName sources) node = Ok node).
Proof.
  intros Hnd Hwalk Hnm. split.
  - rewrite mergeChildren_split by exact Hnd.
    rewrite disableReplaced_app, Hwalk. cbn [bind disableReplaced].
    now rewrite disableReplaced1_unexpected.
  - intros node. apply disableReplaced1_not_element.
Qed.

(** C6 (as the code has it).  A source list with a repeated name makes
    [addPackageSources] fail without writing NuGet.config.  Once the document
    is parsed and [<packageSources>], the indentation and the insertion point
    are found, the error is the duplicate-name error, for the first name that
    repeats an earlier one. *)
Theorem duplicate_names_fail_unwritten (sources : list NuGet.NuGetPackageSource) :
  ~ NoDup (List.map NuGet.name sources) ->
  exists firsts s rest,
    sources = firsts ++ s :: rest
    /\ NoDup (List.map NuGet.name firsts)
    /\ NuGet.name s ∈ List.map NuGet.name firsts
    /\ (forall doc,
          mergeSources serializeToString doc sources
          = match findAnchors doc with
            | Ok _ => Throw (DuplicateSourceName (NuGet.name s))
            | Throw e => Throw e
            end)
    /\ (forall fs, exists e,
          addPackageSources parseFromString serializeToString pf sources fs
          = (fs, Throw e)).
Proof.
  intros Hdup.
  destruct (first_repeat _ Hdup) as (n1 & x & n2 & Hmap & Hnd & Hx).
  apply map_eq_app in Hmap as (firsts & tl & -> & <- & Htl).
  apply map_eq_cons in Htl as (s & rest & -> & <- & _).
  exists firsts, s, rest. split; [reflexivity|]. split; [exact Hnd|]. split; [exact Hx|].
  assert (Hmerge : forall doc,
             mergeSources serializeToString doc (firsts ++ s :: rest)
             = match findAnchors doc with
               | Ok _ => Throw (DuplicateSourceName (NuGet.name s))
               | Throw e => Throw e
               end).
  { intros doc. unfold mergeSources. destruct (findAnchors doc) as [a|e]; [|reflexivity].
    cbn [bind]. unfold mergeChildren.
    now rewrite insertSources_repeat. }
  split; [exact Hmerge|].
  intros fs. unfold addPackageSources.
  destruct firsts as [|f firsts].
  - now apply elem_of_nil in Hx.
  - cbn [app]. destruct (Util.parseXml _ _ _) as [doc|e]; cbn [bind]; [|now exists e].
    change (f :: firsts ++ s :: rest) with ((f :: firsts) ++ s :: rest).
    rewrite Hmerge. destruct (findAnchors doc) as [a|e]; cbn [bind]; eauto.
Qed.

End Xmldom.

End Engine.

#[local] Existing Instance asciiOnly.


(** C8, the counterexample.  The nodes from the insertion point on are a
    text node and a comment, neither an [<add>] entry, and the merge passes. *)
Lemma walk_passes_text_and_comments :
  let serializer := fun _ : Node => js "<add/>" in
  let ind := Text (10%N :: js "    ") in
  let source := {| NuGet.name := js "A"; NuGet.url := js "u"; NuGet.allowUpdate := false |} in
  mergeChildren serializer ind 0 [ind; Comment (js "note")] [source]
  = Ok [ind;
        Element None (js "add")
          [{| namespaceURI := None; name := js "key"; value := js "A" |};
           {| namespaceURI := None; name := js "value"; value := js "u" |}] [];
        ind; Comment (js "note")].
Proof. reflexivity. Qed.

Lemma unexpected_element_fails_witness :
  let serializer := fun _ : Node => js "<add/>" in
  let ind := Text (js " ") in
  let source := {| NuGet.name := js "A"; NuGet.url := js "u"; NuGet.allowUpdate := false |} in
  mergeChildren serializer ind 0 [ind; Element None (js "remove") [] []] [source]
  = Throw (UnexpectedNode (js "remove")).
Proof.
  intros serializer ind source.
  refine (proj1 (unexpected_element_fails serializer ind [] [ind] [ind] []
                   None (js "remove") [] [] [source] _ _ _)).
  - repeat constructor. intros H. now apply elem_of_nil in H.
  - reflexivity.
  - discriminate.
Defined.

(** C6, the counterexample.  With the sources [A; A] the first turn of the
    loop has put the entry of the first [A] into the tree when the second turn
    finds the repetition; and in a document without [<packageSources>] the
    error is not the duplicate-name error. *)
Lemma duplicate_found_after_first_insert :
  let serializer := fun _ : Node => js "<add/>" in
  let ind := Text (js " ") in
  let first := {| NuGet.name := js "A"; NuGet.url := js "u1"; NuGet.allowUpdate := false |} in
  let second := {| NuGet.name := js "A"; NuGet.url := js "u2"; NuGet.allowUpdate := false |} in
  let st0 := {| before := []; newSources := ∅ |} in
  (exists st1,
      insertSource ind st0 first = Ok st1
      /\ before st1
         = [ind;
            Element None (js "add")
              [{| namespaceURI := None; name := js "key"; value := js "A" |};
               {| namespaceURI := None; name := js "value"; value := js "u1" |}] []]
      /\ insertSource ind st1 second = Throw (DuplicateSourceName (js "A")))
  /\ mergeSources serializer (Document None [Element None (js "configuration") [] []])
       [first; second]
     = Throw MissingPackageSources.
Proof.
  cbn zeta. split; [|reflexivity].
  eexists. split; [reflexivity|]. split; reflexivity.
Qed.

Lemma duplicate_names_fail_unwritten_witness :
  let parser := fun _ : jsstring => Some [Element None (js "configuration") [] []] in
  let serializer := fun _ : Node => js "<add/>" in
  let first := {| NuGet.name := js "A"; NuGet.url := js "u1"; NuGet.allowUpdate := false |} in
  let second := {| NuGet.name := js "A"; NuGet.url := js "u2"; NuGet.allowUpdate := false |} in
  let fs := {| nugetConfig := js "<configuration />"; bonsaiConfig := [];
               directories := [] |} in
  exists e, addPackageSources parser serializer posix [first; second] fs = (fs, Throw e).
Proof.
  intros parser serializer first second fs.
  destruct (duplicate_names_fail_unwritten parser serializer posix [first; second])
    as (firsts & s & rest & _ & _ & _ & _ & H).
  - intros H. apply NoDup_cons in H as [H _]. apply H. now left.
  - apply H.
Defined.

End MergeTheorems.

(** ** bonsai.ts: where addPackageSources inserts *)

Module AnchorFacts.
Import JsString Dom XPath Tree XPathExtra Bonsai XPathFacts AttributeFacts MergeFacts.

Section Engine.
Context {unicode : CaseMapping}.

Lemma lookup_children (doc : Node) (cs : list Node) :
  children (setChildren doc cs) = match doc with
                                  | Document _ _ | Element _ _ _ _ => cs
                                  | _ => []
                                  end.
Proof. now destruct doc. Qed.

Lemma lookup_updateAt (doc : Node) (p : list nat) (f : list Node -> list Node) (n : Node) :
  lookup doc p = Some n ->
  lookup (updateAt doc p f) p = Some (setChildren n (f (children n))).
Proof.
  revert doc. induction p as [|i p IH]; intros doc; cbn.
  - now intros [= ->].
  - destruct (children doc !! i) as [c|] eqn:Hc; [|discriminate]. intros Hn.
    rewrite lookup_children.
    destruct doc; cbn in Hc; try (now rewrite lookup_nil in Hc).
    all: rewrite list_lookup_insert_eq by (eapply lookup_lt_Some, Hc); now apply IH.
Qed.

(** The first and the last of the children that pass a test on the node. *)
Lemma head_filter_imap (g : Hit -> bool) (g' : Node -> bool) (l : list Node) :
  forall f : nat -> Node -> Hit,
    (forall i c, g (f i c) = g' c) ->
    match head (List.filter g (imap f l)), List.find g' l with
    | Some x, Some c => exists i, x = f i c
    | None, None => True
    | _, _ => False
    end.
Proof.
  induction l as [|c l IH]; intros f Hf; cbn; [exact I|].
  rewrite Hf. destruct (g' c); cbn; [now exists 0|].
  specialize (IH (f ∘ S) (fun i c' => Hf (S i) c')).
  destruct (head _), (List.find g' l); try exact IH.
  destruct IH as [i ->]. now exists (S i).
Qed.

Lemma filter_imap_none (g : Hit -> bool) (g' : Node -> bool) (l : list Node) :
  forall f : nat -> Node -> Hit,
    (forall i c, g (f i c) = g' c) ->
    Forall (fun n => g' n = false) l ->
    List.filter g (imap f l) = [].
Proof.
  induction l as [|c l IH]; intros f Hf Hl; cbn; [reflexivity|].
  apply Forall_cons in Hl as [Hc Hl]. rewrite Hf, Hc.
  apply (IH (f ∘ S)); [|exact Hl]. intros i c'. apply Hf.
Qed.

Lemma last_filter_imap (g : Hit -> bool) (g' : Node -> bool) (f : nat -> Node -> Hit)
    (pre rest : list Node) (c : Node) :
  (forall i c, g (f i c) = g' c) ->
  g' c = true -> Forall (fun n => g' n = false) rest ->
  last (List.filter g (imap f (pre ++ c :: rest))) = Some (f (length pre) c).
Proof.
  intros Hf Hc Hrest.
  rewrite imap_app, List.filter_app. cbn [imap]. cbn [List.filter].
  rewrite Hf, Hc, Nat.add_0_r.
  rewrite (filter_imap_none g g' rest); [apply last_snoc| |exact Hrest].
  intros i c'. apply Hf.
Qed.

Lemma splitLast_snoc (p : list nat) (k : nat) : splitLast (p ++ [k]) = Some (p, k).
Proof. unfold splitLast. now rewrite last_snoc, removelast_last. Qed.

Lemma select1_single (e : Expr) (doc : Node) (vars : Variables) (q : list nat) (n : Node)
    (t : N) :
  evaluate e vars doc = XNodeSet [HNode q n] -> nodeType n = t ->
  checkedSelect1 e doc (Some t) vars = Ok (Some (HNode q n)).
Proof.
  intros H Ht. unfold checkedSelect1, selectNodeSet. rewrite H. cbn. rewrite Ht.
  now rewrite N.eqb_refl.
Qed.

Section Xmldom.
Variable serializeToString : Node -> jsstring.

Lemma indentation_sampled (doc : Node) (container : list nat)
    (ns : option jsstring) (nm : jsstring) (attrs : list Attr) (childNodes : list Node) :
  selectNodeSet packageSourcesSelector doc ∅
  = XNodeSet [HNode container (Element ns nm attrs childNodes)] ->
  referenceIndentation packageSourcesIndentSelector doc = indentationOf childNodes.
Proof.
  intros H. unfold referenceIndentation, select1Text, checkedSelect1, selectNodeSet.
  change packageSourcesIndentSelector
    with (ELocationPath ([anywhere; childNamed "configuration" [];
                          childNamed "packageSources" []] ++ [childText])).
  rewrite (single_match_step _ _ _ _ _ _ H) by (now apply ascending_applyStep).
  unfold applyStep. cbn [preds childText fold_left axis test axisHits childHits children].
  unfold indentationOf.
  pose proof (head_filter_imap (testHit textTest) isTextLike childNodes
                (fun i c => HNode (container ++ [i]) c)) as Hh.
  destruct (head _) as [x|]; destruct (List.find isTextLike childNodes) as [c|] eqn:Hc;
    try (specialize (Hh ltac:(intros i [] ; reflexivity)); contradiction).
  - destruct Hh as [i ->]; [intros j []; reflexivity|].
    apply find_some in Hc as [_ Hc]. destruct c; try discriminate; reflexivity.
  - reflexivity.
Qed.

Lemma insertion_index (doc : Node) (container : list nat)
    (ns : option jsstring) (nm : jsstring) (attrs : list Attr) (front rest : list Node) :
  selectNodeSet packageSourcesSelector doc ∅
  = XNodeSet [HNode container (Element ns nm attrs (front ++ rest))] ->
  Forall (fun n => isClearMarker n = false) rest ->
  front = [] \/ (exists pre clear, front = pre ++ [clear] /\ isClearMarker clear = true) ->
  findAnchors doc
  = do ind <- indentationOf (front ++ rest);
    Ok {| container := container; childNodes := front ++ rest;
          indentation := ind; insertionIndex := length front |}.
Proof.
  intros H Hrest Hfront. unfold findAnchors, select1Element.
  rewrite (select1_single _ _ _ _ _ ELEMENT_NODE H eq_refl). cbn [bind].
  rewrite (indentation_sampled _ _ _ _ _ _ H).
  destruct (indentationOf (front ++ rest)) as [ind|e]; cbn [bind]; [|reflexivity].
  unfold checkedSelect1, selectNodeSet.
  change lastClearSourceSelector
    with (ELocationPath ([anywhere; childNamed "configuration" [];
                          childNamed "packageSources" []] ++ [childNamed "clear" [PLast]])).
  rewrite (single_match_step _ _ _ _ _ _ H) by (now apply ascending_applyStep).
  unfold applyStep.
  cbn [preds childNamed fold_left axis test axisHits childHits children applyPred].
  assert (Hg : forall i c, testHit (nameTest (js "clear"))
                             (HNode (container ++ [i]) c) = isClearMarker c).
  { intros i []; reflexivity. }
  destruct Hfront as [->|(pre & clear & -> & Hclear)].
  - cbn [app]. rewrite (filter_imap_none _ isClearMarker) by assumption. reflexivity.
  - rewrite <- app_assoc. cbn [app].
    rewrite (last_filter_imap _ isClearMarker) by assumption.
    cbn [head]. destruct clear; try discriminate. cbn [hitType nodeType].
    change (N.eqb ELEMENT_NODE ELEMENT_NODE) with true. cbn [bind].
    rewrite splitLast_snoc.
    rewrite bool_decide_eq_true_2 by reflexivity. cbn [bind].
    rewrite length_app. cbn [length]. now rewrite Nat.add_1_r.
Qed.

End Xmldom.

End Engine.

End AnchorFacts.

Module InsertionTheorems.
Import JsString Dom XPath Tree XPathExtra Bonsai XPathFacts AttributeFacts MergeFacts AnchorFacts.

Section Engine.
Context {unicode : CaseMapping}.

Lemma node_set_lookup (doc : Node) (vars : Variables) (steps : list Step)
    (hits : list Hit) (q : list nat) (n : Node) :
  evaluate (ELocationPath steps) vars doc = XNodeSet hits ->
  HNode q n ∈ hits -> lookup doc q = Some n.
Proof.
  cbn. intros [= <-] Hin. apply docOrder_elem in Hin.
  assert (Hv : Forall (validHit doc) (evalSteps vars steps [HNode [] doc])).
  { apply evalSteps_valid. repeat constructor. }
  rewrite Forall_forall in Hv. apply (Hv _ Hin).
Qed.

Lemma mergeChildren_ok (serializeToString : Node -> jsstring) (ind : Node)
    (front rest merged : list Node) (sources : list NuGet.NuGetPackageSource) :
  mergeChildren serializeToString ind (length front) (front ++ rest) sources = Ok merged ->
  NoDup (List.map NuGet.name sources)
  /\ exists rest',
       disableReplaced serializeToString (byName sources) rest = Ok rest'
       /\ merged = front ++ inserted (cloneNode ind) sources ++ rest'.
Proof.
  intros H. destruct (decide (NoDup (List.map NuGet.name sources))) as [Hnd|Hdup].
  - split; [exact Hnd|]. rewrite mergeChildren_split in H by exact Hnd.
    apply bind_ok in H as (rest' & Hr & H). injection H as <-. now exists rest'.
  - exfalso. destruct (first_repeat _ Hdup) as (n1 & x & n2 & Hmap & Hnd & Hx).
    apply map_eq_app in Hmap as (firsts & tl & -> & <- & Htl).
    apply map_eq_cons in Htl as (s & tl' & -> & <- & _).
    unfold mergeChildren in H. now rewrite insertSources_repeat in H.
Qed.

Lemma indentationOf_text (childNodes : list Node) (ind : Node) :
  indentationOf childNodes = Ok ind -> exists d, ind = Text d.
Proof.
  unfold indentationOf. destruct (List.find isTextLike childNodes) as [[]|];
    intros [= <-]; eauto.
Qed.

Section Xmldom.
Variable serializeToString : Node -> jsstring.

(** C4.  In a document with one [<packageSources>], whose children are
    [front ++ rest] where [rest] has no [<clear />] marker and [front] is
    empty or ends with one (the last marker), a merge that succeeds leaves
    [<packageSources>] with the children [front], unchanged, then for each
    source, in the order given, a text node with the text of the sampled
    indentation and the new entry [<add key="name" value="url" />], then the
    nodes of [rest], each kept or commented out in place.  So the sources are
    inserted before the sibling that follows the last marker, at the end
    when the marker is the last child, and before the first child when there
    is no marker.  The indentation sampled is the first text node among the
    children, or a line feed and four spaces when there is none. *)
Theorem sources_inserted_after_last_clear
    (doc doc' : Node) (container : list nat)
    (ns : option jsstring) (nm : jsstring) (attrs : list Attr)
    (front rest : list Node) (sources : list NuGet.NuGetPackageSource) :
  selectNodeSet packageSourcesSelector doc ∅
  = XNodeSet [HNode container (Element ns nm attrs (front ++ rest))] ->
  Forall (fun n => isClearMarker n = false) rest ->
  front = [] \/ (exists pre clear, front = pre ++ [clear] /\ isClearMarker clear = true) ->
  mergeSources serializeToString doc sources = Ok doc' ->
  exists indentation rest',
    indentationOf (front ++ rest) = Ok (Text indentation)
    /\ disableReplaced serializeToString (byName sources) rest = Ok rest'
    /\ length rest' = length rest
    /\ doc' = updateAt doc container
                (fun _ => front ++ inserted (Text indentation) sources ++ rest')
    /\ lookup doc' container
       = Some (Element ns nm attrs
                 (front ++ inserted (Text indentation) sources ++ rest')).
Proof.
  intros Hone Hrest Hfront Hmerge.
  unfold mergeSources in Hmerge.
  rewrite (insertion_index _ _ _ _ _ _ _ Hone Hrest Hfront) in Hmerge.
  destruct (indentationOf (front ++ rest)) as [ind|e] eqn:Hind; [|discriminate].
  apply indentationOf_text in Hind as [indentation ->].
  cbn [bind Bonsai.indentation Bonsai.insertionIndex Bonsai.childNodes Bonsai.container]
    in Hmerge.
  apply bind_ok in Hmerge as (merged & Hm & Hdoc). injection Hdoc as <-.
  apply mergeChildren_ok in Hm as (_ & rest' & Hr & ->).
  change (cloneNode (Text indentation)) with (Text indentation).
  exists indentation, rest'. split; [reflexivity|]. split; [exact Hr|].
  split; [eapply disableReplaced_length, Hr|]. split; [reflexivity|].
  rewrite (lookup_updateAt doc container _ (Element ns nm attrs (front ++ rest)));
    [reflexivity|].
  eapply node_set_lookup; [exact Hone|now left].
Qed.

End Xmldom.

End Engine.

#[local] Existing Instance asciiOnly.

(** A NuGet.config whose [<packageSources>] holds a marker and one source. *)
Lemma sources_inserted_after_last_clear_witness :
  let serializer := fun _ : Node => js "<add/>" in
  let ind := Text (10%N :: js "    ") in
  let clear := Element None (js "clear") [] [] in
  let old :=
    Element None (js "add")
      [{| namespaceURI := None; name := js "key"; value := js "nuget.org" |};
       {| namespaceURI := None; name := js "value"; value := js "https" |}] [] in
  let source := {| NuGet.name := js "cache"; NuGet.url := js "dir";
                   NuGet.allowUpdate := false |} in
  let doc := Document None [Element None (js "configuration") []
               [Element None (js "packageSources") [] [ind; clear; ind; old; Text [10%N]]]] in
  let entry :=
    Element None (js "add")
      [{| namespaceURI := None; name := js "key"; value := js "cache" |};
       {| namespaceURI := None; name := js "value"; value := js "dir" |}] [] in
  exists doc',
    mergeSources serializer doc [source] = Ok doc'
    /\ lookup doc' [0; 0]
       = Some (Element None (js "packageSources") []
                 [ind; clear; ind; entry; ind; old; Text [10%N]]).
Proof.
  intros serializer ind clear old source doc entry.
  pose (doc' := updateAt doc [0; 0]
                  (fun _ => [ind; clear; ind; entry; ind; old; Text [10%N]])).
  destruct (sources_inserted_after_last_clear serializer doc doc' [0; 0]
              None (js "packageSources") [] [ind; clear] [ind; old; Text [10%N]] [source])
    as (indentation & rest' & Hind & Hrest & _ & _ & Hl).
  - reflexivity.
  - repeat constructor.
  - right. exists [ind], clear. split; reflexivity.
  - reflexivity.
  - injection Hind as <-. injection Hrest as <-.
    exists doc'. split; [reflexivity|exact Hl].
Defined.

(** Names under a prefix.  An element [<n:clear>] in a namespace is not a
    marker: the sources go before the first child and the walk stops at that
    element.  An attribute [n:key] in a namespace is not the name of an
    entry: the walk stops at the entry for want of a name. *)
Lemma prefixed_names_are_not_selected :
  let serializer := fun _ : Node => js "<add/>" in
  let ind := Text (10%N :: js "  ") in
  let source := {| NuGet.name := js "X"; NuGet.url := js "dir";
                   NuGet.allowUpdate := true |} in
  let doc (children : list Node) :=
    Document None [Element None (js "configuration") []
                     [Element None (js "packageSources") [] children]] in
  mergeSources serializer
    (doc [ind; Element (Some (js "urn:n")) (js "n:clear") [] []; ind]) [source]
  = Throw (UnexpectedNode (js "n:clear"))
  /\ mergeSources serializer
       (doc [ind;
             Element None (js "add")
               [{| namespaceURI := Some (js "urn:n"); name := js "n:key";
                   value := js "X" |};
                {| namespaceURI := None; name := js "value"; value := js "old" |}] [];
             ind])
       [source]
     = Throw MissingSourceName.
Proof. split; vm_compute; reflexivity. Qed.

End InsertionTheorems.

(** ** bonsai.ts: writing the document back *)

Module WriteBackTheorems.
Import JsString Dom XPath Tree XPathExtra Bonsai.

Section Engine.
Context {unicode : CaseMapping}.

Section Xmldom.
Variable parseFromString : jsstring -> option (list Node).
Variable serializeToString : Node -> jsstring.
Variable pf : Platform.
Variable rootPath : list jsstring.

(** C7.  When [addPackageSources] throws, whatever the error, the file
    system is as it was.  When [injectPackages] throws, NuGet.config and
    Bonsai.config hold the text they held (a package directory may have been
    removed by then).  Both write the document as their last step. *)
Theorem failure_writes_no_document
    (sources : list NuGet.NuGetPackageSource) (packages : list NuGet.LocalNuGetPackage)
    (fs : FileSystem) :
  (forall fs' e,
      addPackageSources parseFromString serializeToString pf sources fs = (fs', Throw e) ->
      fs' = fs)
  /\ (forall fs' e,
        injectPackages parseFromString serializeToString pf rootPath packages fs
        = (fs', Throw e) ->
        nugetConfig fs' = nugetConfig fs /\ bonsaiConfig fs' = bonsaiConfig fs).
Proof.
  split; intros fs' e.
  - unfold addPackageSources.
    destruct (match sources with [] => _ | _ :: _ => _ end); intros [= <- _];
      [discriminate || reflexivity ..].
  - unfold injectPackages.
    destruct (Util.parseXml _ _ _) as [parsed|e']; [|now intros [= <- _]].
    destruct (upsertPackages _ _ _ _ _) as [dirs [updated|e']];
      intros [= <- ?]; now split.
Qed.

End Xmldom.

End Engine.

#[local] Existing Instance asciiOnly.

(** A collision without [allowUpdate]: the merge throws and NuGet.config is
    as before. *)
Lemma failure_writes_no_document_witness :
  let old :=
    Element None (js "add")
      [{| namespaceURI := None; name := js "key"; value := js "X" |};
       {| namespaceURI := None; name := js "value"; value := js "old" |}] [] in
  let parser := fun _ : jsstring =>
    Some [Element None (js "configuration") [] [Element None (js "packageSources") [] [old]]] in
  let serializer := fun _ : Node => js "<configuration/>" in
  let source := {| NuGet.name := js "X"; NuGet.url := js "new"; NuGet.allowUpdate := false |} in
  let fs := {| nugetConfig := js "<configuration>...</configuration>";
               bonsaiConfig := js "<PackageConfiguration />"; directories := [] |} in
  addPackageSources parser serializer posix [source] fs
  = (fs, Throw (UpdateNotEnabled (js "X") (js "new") (Some (js "old")))).
Proof.
  intros old parser serializer source fs.
  destruct (addPackageSources parser serializer posix [source] fs) as [fs' r] eqn:E.
  assert (Hr : r = Throw (UpdateNotEnabled (js "X") (js "new") (Some (js "old")))).
  { apply (f_equal snd) in E. symmetry. exact E. }
  subst r.
  now rewrite (proj1 (failure_writes_no_document parser serializer posix [] [source] [] fs)
                 fs' _ E).
Defined.

End WriteBackTheorems.

(** ** The selectors of injectPackages on a manifest *)

Module ManifestFacts.
Import JsString Dom XPath Tree XPathExtra Bonsai XPathFacts AttributeFacts.

Section Engine.
Context {unicode : CaseMapping}.

Lemma testHit_named (nm : string) (p : list nat) (c : Node) :
  testHit (nameTest (js nm)) (HNode p c) = isNamed nm c.
Proof. now destruct c. Qed.

Lemma mentions_named (nm : string) (n : Node) :
  mentions nm n = false -> isNamed nm n = false.
Proof. destruct n; cbn; try reflexivity. intros H. now apply orb_false_elim in H as [H _]. Qed.

Lemma mentions_children (nm : string) (n : Node) :
  mentions nm n = false -> Forall (fun c => mentions nm c = false) (children n).
Proof.
  destruct n; cbn; try constructor.
  - intros H. rewrite Forall_forall. intros c Hc.
    destruct (mentions nm c) eqn:E; [|reflexivity].
    rewrite <- H. symmetry. apply existsb_exists. exists c.
    split; [now apply list_elem_of_In|exact E].
  - intros H. apply orb_false_elim in H as [_ H].
    rewrite Forall_forall. intros c Hc.
    destruct (mentions nm c) eqn:E; [|reflexivity].
    rewrite <- H. symmetry. apply existsb_exists. exists c.
    split; [now apply list_elem_of_In|exact E].
Qed.

Lemma filter_all (g : Hit -> bool) (l : list Hit) :
  Forall (fun x => g x = true) l -> List.filter g l = l.
Proof. induction 1 as [|x l Hx _ IH]; cbn; [reflexivity|]. now rewrite Hx, IH. Qed.

Lemma applyStep_anywhere (vars : Variables) (h : Hit) :
  applyStep vars anywhere h = axisHits descendant_or_self h.
Proof.
  unfold applyStep. cbn. apply filter_all. rewrite Forall_forall. now intros x _.
Qed.

Lemma applyStep_childNamed (vars : Variables) (nm : string) (p : list nat) (n : Node) :
  applyStep vars (childNamed nm []) (HNode p n)
  = List.filter (testHit (nameTest (js nm)))
                (imap (fun i c => HNode (p ++ [i]) c) (children n)).
Proof. reflexivity. Qed.

Lemma no_named_children (vars : Variables) (nm : string) (p : list nat) (n : Node) :
  Forall (fun c => isNamed nm c = false) (children n) ->
  applyStep vars (childNamed nm []) (HNode p n) = [].
Proof.
  intros H. rewrite applyStep_childNamed.
  apply (AnchorFacts.filter_imap_none _ (isNamed nm)); [|exact H].
  intros i c. apply testHit_named.
Qed.

(** Where no element has the name, the step finds nothing. *)
Lemma forest_no_match (vars : Variables) (nm : string) (cs : list Node) :
  Forall (fun n => forall p, mentions nm n = false ->
                     flat_map (applyStep vars (childNamed nm [])) (subtreeHits p n) = [])
         cs ->
  Forall (fun c => mentions nm c = false) cs ->
  forall p i, flat_map (applyStep vars (childNamed nm [])) (forestHits p i cs) = [].
Proof.
  induction 1 as [|c cs Hc _ IH]; intros Hm p i; cbn; [reflexivity|].
  apply Forall_cons in Hm as [Hmc Hm].
  rewrite flat_map_app, Hc by exact Hmc. now apply IH.
Qed.

Lemma subtree_no_match (vars : Variables) (nm : string) (n : Node) :
  forall p, mentions nm n = false ->
    flat_map (applyStep vars (childNamed nm [])) (subtreeHits p n) = [].
Proof.
  induction n as [e cs IH|ns qn attrs cs IH|d|d|d|t d] using Node_tree_ind;
    intros p Hm; rewrite subtreeHits_unfold; cbn [flat_map children];
    try reflexivity.
  - rewrite no_named_children, (forest_no_match vars nm cs IH); try reflexivity.
    + apply (mentions_children nm (Document e cs) Hm).
    + eapply Forall_impl; [apply (mentions_children nm (Document e cs) Hm)|].
      intros c. apply mentions_named.
  - rewrite no_named_children, (forest_no_match vars nm cs IH); try reflexivity.
    + apply (mentions_children nm (Element ns qn attrs cs) Hm).
    + eapply Forall_impl; [apply (mentions_children nm (Element ns qn attrs cs) Hm)|].
      intros c. apply mentions_named.
Qed.

Lemma forestHits_app (p : list nat) (i : nat) (l1 l2 : list Node) :
  forestHits p i (l1 ++ l2) = forestHits p i l1 ++ forestHits p (i + length l1) l2.
Proof.
  revert i. induction l1 as [|c l1 IH]; intros i; cbn.
  - now rewrite Nat.add_0_r.
  - rewrite IH, <- app_assoc. do 3 f_equal. lia.
Qed.

Lemma forest_clean (vars : Variables) (nm : string) (cs : list Node) (p : list nat) (i : nat) :
  Forall (fun c => mentions nm c = false) cs ->
  flat_map (applyStep vars (childNamed nm [])) (forestHits p i cs) = [].
Proof.
  intros H. apply forest_no_match; [|exact H].
  rewrite Forall_forall. intros n _ q. apply subtree_no_match.
Qed.

(** *** Node's path module on the paths of injectPackages *)

Lemma sameSegment_refl (pf : Platform) (a : jsstring) : NodePath.sameSegment pf a a = true.
Proof. destruct pf; cbn; unfold eqb; now apply bool_decide_eq_true. Qed.

Lemma relativeSegments_below (pf : Platform) (root rel : list jsstring) :
  NodePath.relativeSegments pf root (root ++ rel) = rel.
Proof.
  induction root as [|a root IH]; cbn [app NodePath.relativeSegments].
  - now destruct rel.
  - now rewrite sameSegment_refl.
Qed.

Lemma package_folder (pf : Platform) (rootPath : list jsstring) :
  NodePath.join pf (packagesPath pf rootPath) (js "Foo.1.0.0")
  = rootPath ++ [js "Packages"; js "Foo.1.0.0"].
Proof.
  unfold packagesPath, NodePath.join.
  replace (NodePath.segments pf (js "Packages") []) with [js "Packages"]
    by (destruct pf; reflexivity).
  replace (NodePath.segments pf (js "Foo.1.0.0") []) with [js "Foo.1.0.0"]
    by (destruct pf; reflexivity).
  change (NodePath.normalizeOnto (NodePath.normalizeOnto rootPath [js "Packages"])
            [js "Foo.1.0.0"])
    with ((rootPath ++ [js "Packages"]) ++ [js "Foo.1.0.0"]).
  now rewrite <- app_assoc.
Qed.

Lemma package_fragment (pf : Platform) (rootPath : list jsstring) :
  replacePackagePathLocal pf rootPath (js "Foo") (js "1.0.0") = js "Packages/Foo.1.0.0/".
Proof.
  unfold replacePackagePathLocal.
  change (js "Foo" ++ 46%N :: js "1.0.0") with (js "Foo.1.0.0").
  rewrite package_folder. unfold NodePath.relative. rewrite relativeSegments_below.
  destruct pf; reflexivity.
Qed.

Section Manifest.
Variable m : Manifest.

Lemma root_match (vars : Variables) (sections : list Node) :
  wellShaped m sections ->
  evalSteps vars [anywhere; childNamed "PackageConfiguration" []]
    [HNode [] (manifestDoc m sections)]
  = [HNode [rootIndex m] (manifestRoot m sections)].
Proof.
  intros [Hroot Hclean].
  apply Forall_app in Hclean as [Hpro Hclean]. apply Forall_app in Hclean as [Hepi Hsec].
  set (f := applyStep vars (childNamed "PackageConfiguration" [])).
  set (root := manifestRoot m sections).
  assert (Hnamed : forall l, Forall (fun n => mentions "PackageConfiguration" n = false) l ->
                     Forall (fun c => isNamed "PackageConfiguration" c = false) l).
  { intros l Hl. eapply Forall_impl; [exact Hl|]. intros c. apply mentions_named. }
  assert (HA : f (HNode [] (manifestDoc m sections)) = [HNode [rootIndex m] root]).
  { unfold f. rewrite applyStep_childNamed. unfold manifestDoc. cbn [children].
    rewrite imap_app, List.filter_app. cbn [imap List.filter].
    rewrite testHit_named, Hroot. fold root.
    rewrite !(AnchorFacts.filter_imap_none _ (isNamed "PackageConfiguration"));
      try (intros i c; apply testHit_named); try (now apply Hnamed).
    cbn. unfold rootIndex. now rewrite Nat.add_0_r. }
  assert (HB : forall p i,
             flat_map f (forestHits p i (prolog m ++ root :: epilog m)) = []).
  { intros p i. rewrite forestHits_app. cbn [forestHits]. rewrite !flat_map_app.
    unfold f. rewrite !(forest_clean vars) by assumption.
    rewrite subtreeHits_unfold. cbn [flat_map children root].
    rewrite (forest_clean vars) by assumption.
    rewrite no_named_children by (now apply Hnamed). reflexivity. }
  cbn [evalSteps fold_left flat_map]. rewrite applyStep_anywhere, app_nil_r.
  cbn [axisHits]. rewrite subtreeHits_unfold. cbn [flat_map]. fold f.
  rewrite HA. unfold manifestDoc. cbn [children]. fold root. now rewrite HB.
Qed.

Lemma attrValues_loc (nm : jsstring) (p : list nat) (c : Node) :
  attrValues nm (HNode p c) = attrValues nm (HNode [] c).
Proof.
  unfold attrValues. destruct c; try reflexivity. cbn [attributeHits].
  change (fun i a => HAttr p i a) with (fun i a => HAttr p (id i) a).
  change (fun i a => HAttr [] i a) with (fun i a => HAttr [] (id i) a).
  generalize (@id nat). induction attributes as [|a attrs IH]; intros f; [reflexivity|].
  cbn [imap List.filter]. cbn [testHit].
  destruct (nameMatches nm (namespaceURI a) (name a)); cbn [flat_map].
  - f_equal. apply (IH (f ∘ S)).
  - apply (IH (f ∘ S)).
Qed.

Lemma strValue_loc (vars : Variables) (e : StrExpr) (p : list nat) (c : Node) :
  strValue vars e (HNode p c) = strValue vars e (HNode [] c).
Proof.
  induction e as [nm|nm|e IH from to]; cbn [strValue];
    [|reflexivity|now rewrite IH].
  now rewrite attrValues_loc.
Qed.

Lemma filter_filter_bool (f g : Hit -> bool) (l : list Hit) :
  List.filter f (List.filter g l) = List.filter (fun x => g x && f x) l.
Proof.
  induction l as [|x l IH]; cbn; [reflexivity|].
  destruct (g x); cbn; [|exact IH]. destruct (f x); now rewrite IH.
Qed.

Lemma recordHits_filter (g : Hit -> bool) (P : Node -> bool) (sec : list nat)
    (cs : list Node) :
  (forall p c, g (HNode p c) = P c) ->
  forall f : nat -> nat,
    List.filter g (imap (fun k c => HNode (sec ++ [f k]) c) cs)
    = flat_map (fun x => x) (imap (fun k c => if P c then [HNode (sec ++ [f k]) c] else []) cs).
Proof.
  intros Hg. induction cs as [|c cs IH]; intros f; cbn; [reflexivity|].
  rewrite Hg. specialize (IH (f ∘ S)).
  destruct (P c); cbn [app]; [f_equal|]; exact IH.
Qed.

Lemma recordHits_imap (P : Node -> bool) (sec : list nat) (cs : list Node) (i : nat) :
  flat_map (fun x => x)
    (imap (fun k c => if P c then [HNode (sec ++ [i + k]) c] else []) cs)
  = recordHits P sec i cs.
Proof.
  revert i. induction cs as [|c cs IH]; intros i; cbn; [reflexivity|].
  rewrite Nat.add_0_r. f_equal. rewrite <- (IH (S i)). f_equal.
  apply imap_ext. intros k x _. cbn. now rewrite Nat.add_succ_r.
Qed.

(** The last step of a selector, at a section. *)
Lemma records_step (vars : Variables) (record : string) (pr : Pred) (sec : list nat)
    (n : Node) :
  pr <> PLast ->
  applyStep vars (childNamed record [pr]) (HNode sec n)
  = recordHits (fun c => isNamed record c && passes vars pr c) sec 0 (children n).
Proof.
  intros Hpr. unfold applyStep.
  cbn [preds childNamed fold_left axis test axisHits childHits].
  rewrite <- recordHits_imap.
  rewrite <- (recordHits_filter
                (fun x => testHit (nameTest (js record)) x
                          && match x with
                             | HNode _ c => passes vars pr c
                             | HAttr _ _ _ => false
                             end)).
  - destruct pr; [contradiction| |]; cbn [applyPred]; rewrite filter_filter_bool;
      apply filter_ext_in; intros x Hx;
      apply list_elem_of_In, elem_of_lookup_imap in Hx as (i & c & -> & _);
      cbn [passes]; try reflexivity.
    + unfold attrEq. now rewrite attrValues_loc.
    + now rewrite !(strValue_loc vars _ (sec ++ [i])).
  - intros p c. now rewrite testHit_named.
Qed.

Lemma sections_step (vars : Variables) (section record : string) (pr : Pred)
    (sections : list Node) :
  pr <> PLast ->
  forall s,
    flat_map (applyStep vars (childNamed record [pr]))
      (List.filter (testHit (nameTest (js section)))
         (imap (fun i c => HNode ([rootIndex m] ++ [s + i]) c) sections))
    = sectionHits section (fun c => isNamed record c && passes vars pr c)
        (rootIndex m) s sections.
Proof.
  intros Hpr. induction sections as [|sec sections IH]; intros s; [reflexivity|].
  cbn [imap List.filter sectionHits]. rewrite testHit_named, Nat.add_0_r.
  rewrite <- (IH (S s)).
  replace (imap ((fun i c => HNode ([rootIndex m] ++ [s + i]) c) ∘ S) sections)
    with (imap (fun i c => HNode ([rootIndex m] ++ [S s + i]) c) sections)
    by (apply imap_ext; intros i x _; cbn; now rewrite Nat.add_succ_r).
  destruct (isNamed section sec); [|reflexivity].
  cbn [flat_map]. now rewrite records_step.
Qed.

(** The hits of the sections are in document order. *)
Lemma recordHits_elem (P : Node -> bool) (sec : list nat) (i : nat) (cs : list Node)
    (x : Hit) :
  x ∈ recordHits P sec i cs ->
  exists k c, x = HNode (sec ++ [k]) c /\ i <= k /\ cs !! (k - i) = Some c /\ P c = true.
Proof.
  revert i. induction cs as [|c cs IH]; intros i H; cbn in H; [now apply elem_of_nil in H|].
  apply elem_of_app in H as [H|H].
  - destruct (P c) eqn:E; [|now apply elem_of_nil in H].
    apply list_elem_of_singleton in H. exists i, c. rewrite Nat.sub_diag. now repeat split.
  - destruct (IH _ H) as (k & c' & -> & Hk & Hc & HP). exists k, c'.
    repeat split; [lia| |exact HP]. now replace (k - i) with (S (k - S i)) by lia.
Qed.

Lemma sectionHits_elem (section : string) (P : Node -> bool) (s : nat)
    (sections : list Node) (x : Hit) :
  x ∈ sectionHits section P (rootIndex m) s sections ->
  exists s' k sec c,
    x = HNode [rootIndex m; s'; k] c /\ s <= s' /\ sections !! (s' - s) = Some sec
    /\ isNamed section sec = true /\ children sec !! k = Some c /\ P c = true.
Proof.
  revert s. induction sections as [|sec sections IH]; intros s H; cbn in H;
    [now apply elem_of_nil in H|].
  apply elem_of_app in H as [H|H].
  - destruct (isNamed section sec) eqn:E; [|now apply elem_of_nil in H].
    apply recordHits_elem in H as (k & c & -> & _ & Hc & HP).
    exists s, k, sec, c. rewrite Nat.sub_diag, Nat.sub_0_r in *. now repeat split.
  - destruct (IH _ H) as (s' & k & sec' & c & -> & Hs & Hsec & Hn & Hc & HP).
    exists s', k, sec', c. repeat split; try assumption; [lia|].
    now replace (s' - s) with (S (s' - S s)) by lia.
Qed.

Lemma ascending_app (l1 l2 : list Hit) :
  ascending l1 -> ascending l2 ->
  (forall a b, a ∈ l1 -> b ∈ l2 -> compareHit b a = Gt) ->
  ascending (l1 ++ l2).
Proof.
  intros H1 H2 H. induction H1 as [|x l1 Hs IH Hx]; [exact H2|].
  cbn. constructor.
  - apply IH. intros a b Ha Hb. apply H; [now right|exact Hb].
  - apply Forall_app. split; [exact Hx|].
    rewrite Forall_forall. intros b Hb. apply H; [now left|exact Hb].
Qed.

Lemma ascending_recordHits (P : Node -> bool) (sec : list nat) (i : nat) (cs : list Node) :
  ascending (recordHits P sec i cs).
Proof.
  revert i. induction cs as [|c cs IH]; intros i; cbn; [constructor|].
  apply ascending_app; [destruct (P c); repeat constructor|apply IH|].
  intros a b Ha Hb. destruct (P c); [|now apply elem_of_nil in Ha].
  apply list_elem_of_singleton in Ha. subst a.
  apply recordHits_elem in Hb as (k & c' & -> & Hk & _). cbn.
  rewrite comparePath_app. cbn. destruct (Nat.compare_spec k i); [lia|lia|reflexivity].
Qed.

Lemma ascending_sectionHits (section : string) (P : Node -> bool) (s : nat)
    (sections : list Node) :
  ascending (sectionHits section P (rootIndex m) s sections).
Proof.
  revert s. induction sections as [|sec sections IH]; intros s; cbn; [constructor|].
  apply ascending_app; [destruct (isNamed section sec); [apply ascending_recordHits|constructor]
                       |apply IH|].
  intros a b Ha Hb. destruct (isNamed section sec); [|now apply elem_of_nil in Ha].
  apply recordHits_elem in Ha as (k & c & -> & _).
  apply sectionHits_elem in Hb as (s' & k' & sec' & c' & -> & Hs & _). cbn.
  rewrite Nat.compare_refl. destruct (Nat.compare_spec s' s); [lia|lia|reflexivity].
Qed.

(** The records a selector of [injectPackages] finds in a manifest. *)
Lemma manifest_evaluate (vars : Variables) (section record : string) (pr : Pred)
    (sections : list Node) :
  wellShaped m sections -> pr <> PLast ->
  evaluate (ELocationPath [anywhere; childNamed "PackageConfiguration" [];
                           childNamed section []; childNamed record [pr]])
           vars (manifestDoc m sections)
  = XNodeSet (sectionHits section (fun c => isNamed record c && passes vars pr c)
                (rootIndex m) 0 sections).
Proof.
  intros Hm Hpr. cbn [evaluate]. f_equal.
  change [anywhere; childNamed "PackageConfiguration" []; childNamed section [];
          childNamed record [pr]]
    with ([anywhere; childNamed "PackageConfiguration" []]
            ++ [childNamed section []] ++ [childNamed record [pr]]).
  rewrite app_assoc, !evalSteps_snoc, (root_match vars sections Hm).
  cbn [flat_map]. rewrite app_nil_r, applyStep_childNamed. cbn [children].
  pose proof (sections_step vars section record pr sections Hpr 0) as Hs.
  cbn [Nat.add] in Hs. rewrite Hs.
  apply docOrder_ascending, ascending_sectionHits.
Qed.

Lemma manifest_selectElements (vars : Variables) (section record : string) (pr : Pred)
    (sections : list Node) :
  wellShaped m sections -> pr <> PLast ->
  selectElements (ELocationPath [anywhere; childNamed "PackageConfiguration" [];
                                 childNamed section []; childNamed record [pr]])
                 (manifestDoc m sections) vars
  = Ok (sectionHits section (fun c => isNamed record c && passes vars pr c)
          (rootIndex m) 0 sections).
Proof.
  intros Hm Hpr. unfold selectElements, selectNodeSet.
  rewrite manifest_evaluate by assumption.
  destruct (List.find _ _) as [bad|] eqn:E; [|reflexivity].
  apply find_some in E as [Hin Hbad]. apply list_elem_of_In in Hin.
  apply sectionHits_elem in Hin as (s' & k & sec & c & -> & _ & _ & _ & _ & HP).
  apply andb_prop in HP as [HP _]. destruct c; discriminate.
Qed.

(** *** The tree operations on a manifest *)

Lemma manifest_root (sections : list Node) :
  children (manifestDoc m sections) !! rootIndex m
  = Some (manifestRoot m sections).
Proof. cbn [manifestDoc children]. now apply list_lookup_middle. Qed.

Lemma lookup_section (sections : list Node) (s : nat) :
  lookup (manifestDoc m sections) [rootIndex m; s] = sections !! s.
Proof.
  cbn [lookup]. rewrite manifest_root. cbn [children].
  now destruct (sections !! s).
Qed.

Lemma insert_middle {A : Type} (l1 l2 : list A) (x y : A) :
  <[length l1 := y]> (l1 ++ x :: l2) = l1 ++ y :: l2.
Proof.
  rewrite insert_app_r_alt by lia. now rewrite Nat.sub_diag.
Qed.

Lemma updateAt_section (pre post : list Node) (sec : Node) (f : list Node -> list Node) :
  updateAt (manifestDoc m (pre ++ sec :: post)) [rootIndex m; length pre] f
  = manifestDoc m (pre ++ setChildren sec (f (children sec)) :: post).
Proof.
  cbn [updateAt]. rewrite manifest_root. cbn [children].
  rewrite list_lookup_middle by reflexivity.
  rewrite insert_middle. unfold manifestDoc. cbn [setChildren children]. f_equal.
  apply insert_middle.
Qed.

Lemma smartRemove_section (pre post : list Node) (sec c : Node) (kept rest : list Node)
    (nm : jsstring) :
  children sec = rev kept ++ c :: rest ->
  smartRemove (manifestDoc m (pre ++ sec :: post))
    (Attached [rootIndex m; length pre; length kept]) nm
  = Ok (manifestDoc m (pre ++ setChildren sec (rev (withoutText kept) ++ rest) :: post),
        Some (Removed [rootIndex m; length pre] (length (withoutText kept))
                (S (length kept) - length (withoutText kept)))).
Proof.
  intros Hcs. unfold smartRemove, splitLast. cbn [last removelast].
  rewrite lookup_section, list_lookup_middle by reflexivity.
  cbn [fmap option_fmap option_map default from_option id]. rewrite Hcs.
  rewrite updateAt_section, Hcs.
  destruct kept as [|t kept].
  - reflexivity.
  - cbn [length rev]. rewrite <- app_assoc. cbn [app].
    assert (Hlook : (rev kept ++ t :: c :: rest) !! length kept = Some t)
      by (apply list_lookup_middle; now rewrite length_rev).
    rewrite Hlook.
    assert (Htake : take (length kept) (rev kept ++ t :: c :: rest) = rev kept)
      by (apply take_app_length'; now rewrite length_rev).
    assert (Hdrop2 : drop (length kept + 2) (rev kept ++ t :: c :: rest) = rest).
    { rewrite <- (length_rev kept), drop_app_add. reflexivity. }
    assert (Htake1 : take (S (length kept)) (rev kept ++ t :: c :: rest) = rev kept ++ [t]).
    { change (t :: c :: rest) with ([t] ++ c :: rest). rewrite app_assoc.
      apply take_app_length'. rewrite length_app, length_rev. cbn. lia. }
    assert (Hdrop1 : drop (S (length kept) + 1) (rev kept ++ t :: c :: rest) = rest).
    { replace (S (length kept) + 1) with (length kept + 2) by lia. exact Hdrop2. }
    replace (S (length kept) - 1) with (length kept) by lia.
    destruct t; cbn [withoutText length rev];
      rewrite ?Htake, ?Hdrop2, ?Htake1, ?Hdrop1, <- ?app_assoc;
      cbn [app]; repeat f_equal; lia.
Qed.

(** *** Places under the edits *)

Lemma relocate_same (r s first count j : nat) :
  first + count <= j ->
  relocate (Removed [r; s] first count) (Attached [r; s; j]) = Attached [r; s; j - count].
Proof.
  intros H. cbn [relocate below]. rewrite !Nat.eqb_refl.
  destruct (Nat.ltb_spec j first); [lia|].
  destruct (Nat.ltb_spec j (first + count)); [lia|reflexivity].
Qed.

Lemma relocate_other (r s s' first count k : nat) :
  s <> s' ->
  relocate (Removed [r; s'] first count) (Attached [r; s; k]) = Attached [r; s; k].
Proof.
  intros H. cbn [relocate below]. rewrite Nat.eqb_refl.
  destruct (Nat.eqb_spec s' s); [congruence|reflexivity].
Qed.

Lemma relocateAll_app (a b : list Edit) (pl : Place) :
  relocateAll (a ++ b) pl = relocateAll b (relocateAll a pl).
Proof. apply fold_left_app. Qed.

Lemma relocateAll_within (Q : nat -> Prop) (edits : list Edit) (s k : nat) :
  within (rootIndex m) Q edits -> ~ Q s ->
  relocateAll edits (Attached [rootIndex m; s; k]) = Attached [rootIndex m; s; k].
Proof.
  intros H Hs. induction H as [|e edits (s' & f & c & -> & HQ) _ IH]; [reflexivity|].
  cbn [relocateAll fold_left]. rewrite relocate_other by congruence. exact IH.
Qed.

Lemma within_app (Q : nat -> Prop) (a b : list Edit) :
  within (rootIndex m) Q a -> within (rootIndex m) Q b -> within (rootIndex m) Q (a ++ b).
Proof. intros Ha Hb. apply Forall_app. now split. Qed.

Lemma within_impl (Q Q' : nat -> Prop) (a : list Edit) :
  (forall s, Q s -> Q' s) -> within (rootIndex m) Q a -> within (rootIndex m) Q' a.
Proof.
  intros HQ Ha. eapply Forall_impl; [exact Ha|].
  intros e (s & f & c & -> & H). exists s, f, c. auto.
Qed.

(** *** Sections and their names *)

Lemma isNamed_setChildren (nm : string) (sec : Node) (cs : list Node) :
  isNamed nm (setChildren sec cs) = isNamed nm sec.
Proof. now destruct sec. Qed.

Lemma children_setChildren (nm : string) (sec : Node) (cs : list Node) :
  isNamed nm sec = true -> children (setChildren sec cs) = cs.
Proof. now destruct sec. Qed.

Lemma setChildren_children (nm : string) (sec : Node) :
  isNamed nm sec = true -> setChildren sec (children sec) = sec.
Proof. now destruct sec. Qed.

Lemma setChildren_twice (sec : Node) (cs cs' : list Node) :
  setChildren (setChildren sec cs) cs' = setChildren sec cs'.
Proof. now destruct sec. Qed.

Lemma isNamed_sweepSection (nm section : string) (P : Node -> bool) (sec : Node) :
  isNamed nm (sweepSection section P sec) = isNamed nm sec.
Proof.
  unfold sweepSection. destruct (isNamed section sec); [|reflexivity].
  apply isNamed_setChildren.
Qed.

Lemma mentions_setChildren (nm : string) (sec : Node) (cs : list Node) :
  mentions nm sec = false ->
  (forall c, c ∈ cs -> c ∈ children sec) ->
  mentions nm (setChildren sec cs) = false.
Proof.
  intros Hm Hcs. pose proof (mentions_children nm sec Hm) as Hc.
  rewrite Forall_forall in Hc.
  assert (He : existsb (mentions nm) cs = false).
  { destruct (existsb (mentions nm) cs) eqn:E; [|reflexivity].
    apply existsb_exists in E as (c & Hin & E). apply list_elem_of_In in Hin.
    now rewrite (Hc c (Hcs c Hin)) in E. }
  destruct sec; cbn in *; try assumption.
  apply orb_false_elim in Hm as [-> _]. exact He.
Qed.

Lemma sweepFrom_elem (P : Node -> bool) (cs kept : list Node) (c : Node) :
  c ∈ sweepFrom P kept cs -> c ∈ rev kept ++ cs.
Proof.
  revert kept. induction cs as [|x cs IH]; intros kept H; cbn in H.
  - now rewrite app_nil_r.
  - destruct (P x).
    + apply IH in H. apply elem_of_app in H as [H|H].
      * apply elem_of_app. left. destruct kept as [|[] kept]; try exact H.
        cbn. apply elem_of_app. now left.
      * apply elem_of_app. right. now right.
    + apply IH in H. cbn in H. now rewrite <- app_assoc in H.
Qed.

Lemma wellShaped_change (pre post : list Node) (sec : Node) (cs : list Node) :
  wellShaped m (pre ++ sec :: post) ->
  (forall c, c ∈ cs -> c ∈ children sec) ->
  wellShaped m (pre ++ setChildren sec cs :: post).
Proof.
  intros [Hroot Hall] Hcs. split; [exact Hroot|].
  rewrite !Forall_app, Forall_cons in *.
  destruct Hall as (H1 & H2 & H3 & H4 & H5). repeat split; try assumption.
  now apply mentions_setChildren.
Qed.

(** *** The loops of the clean-up *)

Lemma applyAll_nil (g : Node -> Node -> Node) (l : list Node) :
  List.map (applyAll g []) l = l.
Proof. induction l as [|x l IH]; cbn; [reflexivity|]. now rewrite IH. Qed.

Lemma length_withoutText (kept : list Node) : length (withoutText kept) <= length kept.
Proof. destruct kept as [|[] kept]; cbn; lia. Qed.

Lemma withoutText_elem (kept : list Node) (c : Node) :
  c ∈ withoutText kept -> c ∈ kept.
Proof. destruct kept as [|[] kept]; cbn; try tauto. intros H. now right. Qed.

Section Sweep.
Variable section : string.
Variable P : Node -> bool.
Variable extra : Node -> Node -> Result (Node * list Edit).
Variable g : Node -> Node -> Node.
Variable names : list bool.
Variable Qx : nat -> Prop.

Hypothesis extra_spec : forall c sections,
  manifestState m section names sections ->
  exists edits2,
    extra c (manifestDoc m sections) = Ok (manifestDoc m (List.map (g c) sections), edits2)
    /\ within (rootIndex m) Qx edits2.
Hypothesis g_own : forall c sec, isNamed section sec = true -> g c sec = sec.
Hypothesis g_name : forall c sec, isNamed section (g c sec) = isNamed section sec.
Hypothesis g_shape : forall c sections,
  wellShaped m sections -> wellShaped m (List.map (g c) sections).
Hypothesis Qx_elsewhere : forall s, Qx s -> names !! s <> Some true.

Lemma state_map (c : Node) (sections : list Node) :
  manifestState m section names sections ->
  manifestState m section names (List.map (g c) sections).
Proof.
  intros [H1 H2]. split; [now apply g_shape|].
  rewrite <- H2, List.map_map. apply map_ext. intros sec. apply g_name.
Qed.

Lemma state_name (pre post : list Node) (sec : Node) :
  manifestState m section names (pre ++ sec :: post) ->
  names !! length pre = Some (isNamed section sec).
Proof.
  intros [_ <-]. rewrite List.map_app. cbn [List.map].
  apply list_lookup_middle. now rewrite List.length_map.
Qed.

Lemma state_change (pre post : list Node) (sec : Node) (cs : list Node) :
  manifestState m section names (pre ++ sec :: post) ->
  (forall c, c ∈ cs -> c ∈ children sec) ->
  manifestState m section names (pre ++ setChildren sec cs :: post).
Proof.
  intros [H1 H2] Hcs. split; [now apply wellShaped_change|].
  rewrite <- H2, !List.map_app. cbn [List.map]. now rewrite isNamed_setChildren.
Qed.

(** The records of one section. *)
Lemma sweep_records (rest : list Node) :
  forall (kept : list Node) (i0 s : nat) (pre post : list Node) (sec : Node)
         (edits : list Edit) (tail : list Hit),
    length pre = s ->
    manifestState m section names (pre ++ sec :: post) ->
    isNamed section sec = true ->
    children sec = rev kept ++ rest ->
    (forall j, relocateAll edits (Attached [rootIndex m; s; i0 + j])
               = Attached [rootIndex m; s; length kept + j]) ->
    settled (rootIndex m) names (S s) edits ->
    exists new,
      let G := applyAll g (List.filter P rest) in
      let sections' :=
        List.map G pre ++ setChildren sec (sweepFrom P kept rest) :: List.map G post in
      sweepLoop extra (manifestDoc m (pre ++ sec :: post))
        (recordHits P [rootIndex m; s] i0 rest ++ tail) edits
      = sweepLoop extra (manifestDoc m sections') tail (edits ++ new)
      /\ manifestState m section names sections'
      /\ settled (rootIndex m) names (S s) (edits ++ new)
      /\ within (rootIndex m) (fun s' => names !! s' = Some true \/ Qx s') new.
Proof.
  induction rest as [|c rest IH]; intros kept i0 s pre post sec edits tail Hs Hst Hsec Hcs E1 E2.
  - exists []. cbn zeta. cbn [recordHits List.filter sweepFrom app].
    rewrite !applyAll_nil, !app_nil_r. rewrite app_nil_r in Hcs. rewrite <- Hcs.
    rewrite (setChildren_children section) by exact Hsec.
    split; [reflexivity|]. split; [exact Hst|]. split; [exact E2|constructor].
  - cbn [recordHits List.filter sweepFrom]. destruct (P c) eqn:HP.
    + (* the record is removed *)
      cbn [app sweepLoop].
      pose proof (E1 0) as E0. rewrite !Nat.add_0_r in E0. rewrite E0. subst s.
      rewrite (smartRemove_section pre post sec c kept rest _ Hcs). cbn [bind].
      set (sec1 := setChildren sec (rev (withoutText kept) ++ rest)).
      set (e := Removed _ _ _).
      assert (Hst1 : manifestState m section names (pre ++ sec1 :: post)).
      { apply state_change; [exact Hst|]. intros x Hx. rewrite Hcs.
        apply elem_of_app in Hx as [Hx|Hx]; apply elem_of_app.
        - left. apply list_elem_of_In, in_rev, list_elem_of_In in Hx.
          apply list_elem_of_In, in_rev, list_elem_of_In. rewrite rev_involutive.
          now apply withoutText_elem.
        - right. now right. }
      destruct (extra_spec c _ Hst1) as (e2 & He2 & Hw2). rewrite He2. cbn [bind editOf].
      rewrite List.map_app. cbn [List.map].
      assert (Hsec1 : isNamed section sec1 = true)
        by (unfold sec1; now rewrite isNamed_setChildren).
      rewrite (g_own c sec1 Hsec1).
      assert (Hname : names !! length pre = Some true)
        by (rewrite <- Hsec; apply (state_name pre post sec Hst)).
      destruct (IH (withoutText kept) (S i0) (length pre) (List.map (g c) pre)
                   (List.map (g c) post) sec1 (edits ++ [e] ++ e2) tail)
        as (new & Hrun & Hst' & Hset & Hw).
      * apply List.length_map.
      * pose proof (state_map c _ Hst1) as H. rewrite List.map_app in H.
        cbn [List.map] in H. now rewrite (g_own c sec1 Hsec1) in H.
      * exact Hsec1.
      * unfold sec1. now apply (children_setChildren section).
      * intros j. rewrite !relocateAll_app.
        replace (S i0 + j) with (i0 + S j) by lia. rewrite E1.
        cbn [relocateAll fold_left]. unfold e.
        pose proof (length_withoutText kept) as Hle.
        rewrite relocate_same by lia.
        replace (length kept + S j - (S (length kept) - length (withoutText kept)))
          with (length (withoutText kept) + j) by lia.
        apply (relocateAll_within Qx); [exact Hw2|].
        intros HQ. now apply (Qx_elsewhere _ HQ).
      * intros s' k Hs' Hn. rewrite !relocateAll_app, E2 by assumption.
        cbn [relocateAll fold_left]. unfold e. rewrite relocate_other by lia.
        apply (relocateAll_within Qx); [exact Hw2|].
        intros HQ. now apply (Qx_elsewhere _ HQ).
      * exists ([e] ++ e2 ++ new). cbn zeta in *.
        rewrite !List.map_map in *. unfold sec1 in *. rewrite setChildren_twice in *.
        rewrite <- !app_assoc in *. cbn [app] in *.
        split; [exact Hrun|]. split; [exact Hst'|]. split; [exact Hset|].
        constructor.
        { exists (length pre), (length (withoutText kept)),
            (S (length kept) - length (withoutText kept)). split; [reflexivity|now left]. }
        apply within_app; [|exact Hw].
        eapply within_impl; [|exact Hw2]. now right.
    + (* the record stays *)
      cbn [app].
      apply (IH (c :: kept) (S i0) s pre post sec edits tail); try assumption.
      * cbn [rev]. now rewrite <- app_assoc.
      * intros j. replace (S i0 + j) with (i0 + S j) by lia. rewrite E1.
        cbn [length]. now rewrite Nat.add_succ_r.
Qed.

Lemma applyAll_own (records : list Node) (sec : Node) :
  isNamed section sec = true -> applyAll g records sec = sec.
Proof.
  intros H. induction records as [|c records IH]; [reflexivity|].
  cbn [applyAll fold_left]. rewrite g_own by exact H. exact IH.
Qed.

Lemma applyAll_name (records : list Node) (sec : Node) :
  isNamed section (applyAll g records sec) = isNamed section sec.
Proof.
  revert sec. induction records as [|c records IH]; intros sec; [reflexivity|].
  cbn [applyAll fold_left]. etransitivity; [apply IH|apply g_name].
Qed.

Lemma applyAll_app (a b : list Node) (sec : Node) :
  applyAll g (a ++ b) sec = applyAll g b (applyAll g a sec).
Proof. apply fold_left_app. Qed.

Lemma sweep_commute (records : list Node) (sec : Node) :
  sweepSection section P (applyAll g records sec)
  = applyAll g records (sweepSection section P sec).
Proof.
  destruct (isNamed section sec) eqn:H.
  - rewrite !applyAll_own; try reflexivity; [|exact H].
    now rewrite isNamed_sweepSection.
  - unfold sweepSection. now rewrite applyAll_name, H.
Qed.

Lemma sectionHits_map (records : list Node) (tl : list Node) (s : nat) :
  sectionHits section P (rootIndex m) s (List.map (applyAll g records) tl)
  = sectionHits section P (rootIndex m) s tl.
Proof.
  revert s. induction tl as [|sec tl IH]; intros s; [reflexivity|].
  cbn [List.map sectionHits]. rewrite IH, applyAll_name.
  destruct (isNamed section sec) eqn:H; [|reflexivity].
  now rewrite applyAll_own.
Qed.

Lemma removedRecords_map (records : list Node) (tl : list Node) :
  removedRecords section P (List.map (applyAll g records) tl) = removedRecords section P tl.
Proof.
  induction tl as [|sec tl IH]; [reflexivity|].
  cbn [List.map removedRecords flat_map]. fold (removedRecords section P tl).
  fold (removedRecords section P (List.map (applyAll g records) tl)).
  rewrite IH, applyAll_name.
  destruct (isNamed section sec) eqn:H; [|reflexivity].
  now rewrite applyAll_own.
Qed.

Lemma settled_later (from from' : nat) (edits : list Edit) :
  from <= from' -> settled (rootIndex m) names from edits ->
  settled (rootIndex m) names from' edits.
Proof. intros H Hs s k Hle Hn. apply Hs; [lia|exact Hn]. Qed.

(** The records of all the sections. *)
Lemma sweep_sections_upto (n : nat) :
  forall (tl : list Node) (s : nat) (pre : list Node) (edits : list Edit) (tail : list Hit),
    length tl = n ->
    length pre = s ->
    manifestState m section names (pre ++ tl) ->
    settled (rootIndex m) names s edits ->
    exists new,
      let G := applyAll g (removedRecords section P tl) in
      let sections' :=
        List.map G pre ++ List.map (fun sec => G (sweepSection section P sec)) tl in
      sweepLoop extra (manifestDoc m (pre ++ tl))
        (sectionHits section P (rootIndex m) s tl ++ tail) edits
      = sweepLoop extra (manifestDoc m sections') tail (edits ++ new)
      /\ manifestState m section names sections'
      /\ within (rootIndex m) (fun s' => names !! s' = Some true \/ Qx s') new.
Proof.
  induction n as [|n IH]; intros [|sec tl] s pre edits tail Hn Hs Hst Hset;
    try discriminate.
  - exists []. cbn zeta. cbn [sectionHits removedRecords flat_map List.map app].
    rewrite applyAll_nil, !app_nil_r in *.
    split; [reflexivity|]. split; [exact Hst|constructor].
  - cbn zeta. cbn [sectionHits removedRecords flat_map List.map].
    fold (removedRecords section P tl).
    injection Hn as Hn.
    destruct (isNamed section sec) eqn:Hsec.
    + rewrite <- app_assoc.
      assert (Hname : names !! s = Some true)
        by (rewrite <- Hsec, <- Hs; apply (state_name pre tl sec Hst)).
      destruct (sweep_records (children sec) [] 0 s pre tl sec edits
                  (sectionHits section P (rootIndex m) (S s) tl ++ tail)
                  Hs Hst Hsec eq_refl)
        as (new1 & Hrun1 & Hst1 & Hset1 & Hw1).
      { intros j. cbn [length]. apply Hset; [lia|exact Hname]. }
      { apply (settled_later s); [lia|exact Hset]. }
      cbn zeta in Hrun1, Hst1. rewrite Hrun1.
      set (G1 := applyAll g (List.filter P (children sec))) in *.
      set (sec1 := setChildren sec (sweepFrom P [] (children sec))) in *.
      assert (Hsec1 : isNamed section sec1 = true)
        by (unfold sec1; now rewrite isNamed_setChildren).
      assert (Hsweep : sweepSection section P sec = sec1)
        by (unfold sweepSection; now rewrite Hsec).
      change (List.map G1 pre ++ sec1 :: List.map G1 tl)
        with (List.map G1 pre ++ [sec1] ++ List.map G1 tl) in *.
      rewrite app_assoc in *.
      destruct (IH (List.map G1 tl) (S s) (List.map G1 pre ++ [sec1]) (edits ++ new1) tail)
        as (new2 & Hrun2 & Hst2 & Hw2).
      { now rewrite List.length_map. }
      { rewrite length_app, List.length_map. cbn. lia. }
      { exact Hst1. }
      { exact Hset1. }
      cbn zeta in Hrun2, Hst2. unfold G1 in Hrun2, Hst2.
      rewrite sectionHits_map, removedRecords_map in Hrun2.
      rewrite removedRecords_map in Hst2.
      fold G1 in Hrun2, Hst2. rewrite Hrun2.
      set (G2 := applyAll g (removedRecords section P tl)) in *.
      assert (Heq : List.map G2 (List.map G1 pre ++ [sec1])
                    ++ List.map (fun x => G2 (sweepSection section P x)) (List.map G1 tl)
                    = List.map (applyAll g (List.filter P (children sec)
                                            ++ removedRecords section P tl)) pre
                      ++ applyAll g (List.filter P (children sec)
                                     ++ removedRecords section P tl)
                                  (sweepSection section P sec)
                      :: List.map (fun x => applyAll g (List.filter P (children sec)
                                                     ++ removedRecords section P tl)
                                              (sweepSection section P x)) tl).
      { rewrite List.map_app, !List.map_map, <- app_assoc. cbn [List.map app].
        f_equal; [apply map_ext; intros x; now rewrite applyAll_app|].
        f_equal.
        - rewrite Hsweep. unfold G2. now rewrite !applyAll_own.
        - apply map_ext. intros x. unfold G1. now rewrite sweep_commute, applyAll_app. }
      rewrite Heq in *. exists (new1 ++ new2). rewrite app_assoc.
      split; [reflexivity|]. split; [exact Hst2|]. now apply within_app.
    + cbn [app].
      assert (Hsweep : sweepSection section P sec = sec)
        by (unfold sweepSection; now rewrite Hsec).
      destruct (IH tl (S s) (pre ++ [sec]) edits tail) as (new & Hrun & Hst' & Hw).
      { exact Hn. }
      { rewrite length_app. cbn. lia. }
      { rewrite <- app_assoc. exact Hst. }
      { apply (settled_later s); [lia|exact Hset]. }
      cbn zeta in Hrun, Hst'.
      assert (Heq : forall G T : Node -> Node,
                 List.map G (pre ++ [sec]) ++ List.map T tl
                 = List.map G pre ++ G sec :: List.map T tl).
      { intros G T. now rewrite List.map_app, <- app_assoc. }
      rewrite Heq in Hrun, Hst'. rewrite <- app_assoc in Hrun. cbn [app] in Hrun.
      exists new. rewrite Hsweep. split; [exact Hrun|]. split; [exact Hst'|exact Hw].
Qed.

Lemma sweep_sections (sections : list Node) :
  manifestState m section names sections ->
  exists new,
    sweepLoop extra (manifestDoc m sections)
      (sectionHits section P (rootIndex m) 0 sections) []
    = Ok (manifestDoc m
            (List.map (fun sec => applyAll g (removedRecords section P sections)
                                    (sweepSection section P sec)) sections), new)
    /\ manifestState m section names
         (List.map (fun sec => applyAll g (removedRecords section P sections)
                                 (sweepSection section P sec)) sections)
    /\ within (rootIndex m) (fun s' => names !! s' = Some true \/ Qx s') new.
Proof.
  intros Hst.
  destruct (sweep_sections_upto (length sections) sections 0 [] [] [] eq_refl eq_refl Hst)
    as (new & Hrun & Hst' & Hw).
  { intros s k _ _. reflexivity. }
  exists new. cbn zeta in Hrun, Hst'. rewrite app_nil_r in Hrun.
  cbn [List.map app sweepLoop] in Hrun, Hst'. now rewrite Hrun.
Qed.

End Sweep.

(** *** The loops of bonsai.ts *)

Lemma removeEach_loop (nodes : list Hit) :
  forall doc edits, removeEach doc nodes edits = sweepLoop noExtra doc nodes edits.
Proof.
  induction nodes as [|[loc c|] nodes IH]; intros doc edits; cbn [removeEach sweepLoop];
    [reflexivity| |apply IH].
  destruct (smartRemove _ _ _) as [[doc1 e]|err]; cbn [bind noExtra]; [|reflexivity].
  now rewrite app_nil_r.
Qed.

Lemma removeLocations_loop (nodes : list Hit) :
  forall doc edits, removeLocations doc nodes edits = sweepLoop dropReferences doc nodes edits.
Proof.
  induction nodes as [|[loc c|] nodes IH]; intros doc edits;
    cbn [removeLocations sweepLoop]; [reflexivity| |apply IH].
  rewrite attributeValue_attr. cbn [bind].
  destruct (smartRemove _ _ _) as [[doc1 e]|err]; cbn [bind]; [|reflexivity].
  unfold dropReferences.
  destruct (truthy _); cbn [bind].
  - destruct (selectElements _ _ _) as [refs|err]; cbn [bind]; [|reflexivity].
    destruct (removeEach _ _ _) as [[doc2 edits2]|err]; cbn [bind]; [apply IH|reflexivity].
  - apply IH.
Qed.

Lemma lookup_map {A B : Type} (f : A -> B) (l : list A) (i : nat) :
  List.map f l !! i = f <$> l !! i.
Proof.
  revert i. induction l as [|x l IH]; intros [|i]; cbn; try reflexivity. apply IH.
Qed.

Lemma applyAll_id (records : list Node) (sec : Node) :
  applyAll (fun _ x => x) records sec = sec.
Proof. induction records as [|c records IH]; [reflexivity|exact IH]. Qed.

(** Removing the records of the sections named [section] that pass [P]. *)
Lemma removeEach_sections (section : string) (P : Node -> bool) (sections : list Node) :
  wellShaped m sections ->
  exists new,
    removeEach (manifestDoc m sections)
      (sectionHits section P (rootIndex m) 0 sections) []
    = Ok (manifestDoc m (List.map (sweepSection section P) sections), new)
    /\ wellShaped m (List.map (sweepSection section P) sections)
    /\ within (rootIndex m)
         (fun s => List.map (isNamed section) sections !! s = Some true) new.
Proof.
  intros Hm. rewrite removeEach_loop.
  destruct (sweep_sections section P noExtra (fun _ x => x)
              (List.map (isNamed section) sections) (fun _ => False))
    with (sections := sections) as (new & Hrun & [Hm' _] & Hw).
  - intros c secs _. exists []. split; [|constructor].
    unfold noExtra. now rewrite List.map_id.
  - reflexivity.
  - reflexivity.
  - intros c secs H. now rewrite List.map_id.
  - intros s [].
  - now split.
  - exists new.
    assert (Heq : List.map (fun sec => applyAll (fun _ x => x)
                                         (removedRecords section P sections)
                                         (sweepSection section P sec)) sections
                  = List.map (sweepSection section P) sections)
      by (apply map_ext; intros sec; apply applyAll_id).
    rewrite Heq in *. split; [exact Hrun|]. split; [exact Hm'|].
    eapply within_impl; [|exact Hw]. intros s [H|[]]. exact H.
Qed.

(** What the selectors of the clean-up find. *)
Lemma references_select (assemblyName : jsstring) (sections : list Node) :
  wellShaped m sections ->
  selectElements assemblyReferencesByNameSelector (manifestDoc m sections)
    {[ js "assemblyName" := assemblyName ]}
  = Ok (sectionHits "AssemblyReferences" (refersTo assemblyName) (rootIndex m) 0 sections).
Proof.
  intros Hm. unfold assemblyReferencesByNameSelector.
  rewrite manifest_selectElements by (assumption || discriminate). reflexivity.
Qed.

Lemma locations_select (loc : jsstring) (sections : list Node) :
  wellShaped m sections ->
  selectElements assemblyLocationsByPackageLocationSelector (manifestDoc m sections)
    {[ js "packageLocation" := loc ]}
  = Ok (sectionHits "AssemblyLocations" (locatedUnder loc) (rootIndex m) 0 sections).
Proof.
  intros Hm. unfold assemblyLocationsByPackageLocationSelector.
  rewrite manifest_selectElements by (assumption || discriminate). reflexivity.
Qed.

Lemma folders_select (loc : jsstring) (sections : list Node) :
  wellShaped m sections ->
  selectElements libraryFolderByPackageLocationSelector (manifestDoc m sections)
    {[ js "packageLocation" := loc ]}
  = Ok (sectionHits "LibraryFolders" (folderUnder loc) (rootIndex m) 0 sections).
Proof.
  intros Hm. unfold libraryFolderByPackageLocationSelector.
  rewrite manifest_selectElements by (assumption || discriminate). reflexivity.
Qed.

(** A section has one name. *)
Lemma one_name (a b : string) (sec : Node) :
  toLowerCase (js a) <> toLowerCase (js b) ->
  isNamed a sec = true -> isNamed b sec = false.
Proof.
  intros Hab Ha. destruct sec; try reflexivity. cbn [isNamed] in *.
  unfold nameMatches, localNameMatches, sameName, eqb in *.
  apply andb_prop in Ha as [_ Ha]. apply bool_decide_eq_true in Ha.
  apply andb_false_intro2, bool_decide_eq_false. congruence.
Qed.

Lemma locations_not_references (sec : Node) :
  isNamed "AssemblyLocations" sec = true -> isNamed "AssemblyReferences" sec = false.
Proof. apply one_name. vm_compute. discriminate. Qed.

Lemma references_not_locations (sec : Node) :
  isNamed "AssemblyReferences" sec = true -> isNamed "AssemblyLocations" sec = false.
Proof. apply one_name. vm_compute. discriminate. Qed.

Lemma wellShaped_sweep (section : string) (P : Node -> bool) (sections : list Node) :
  wellShaped m sections -> wellShaped m (List.map (sweepSection section P) sections).
Proof.
  intros Hm. now destruct (removeEach_sections section P sections Hm) as (_ & _ & H & _).
Qed.

Lemma withoutReferences_cases (location : Node) :
  withoutReferences location = (fun sec => sec)
  \/ exists nm, withoutReferences location
                = sweepSection "AssemblyReferences" (refersTo nm).
Proof.
  unfold withoutReferences, assemblyNameOf.
  destruct (head _) as [[|x nm]|]; [now left| |now left].
  right. now exists (x :: nm).
Qed.

Lemma withoutReferences_own (location sec : Node) :
  isNamed "AssemblyLocations" sec = true -> withoutReferences location sec = sec.
Proof.
  intros H. destruct (withoutReferences_cases location) as [->|[nm ->]]; [reflexivity|].
  unfold sweepSection. now rewrite locations_not_references.
Qed.

Lemma withoutReferences_name (nm : string) (location sec : Node) :
  isNamed nm (withoutReferences location sec) = isNamed nm sec.
Proof.
  destruct (withoutReferences_cases location) as [->|[a ->]]; [reflexivity|].
  apply isNamed_sweepSection.
Qed.

Lemma withoutReferences_shape (location : Node) (sections : list Node) :
  wellShaped m sections -> wellShaped m (List.map (withoutReferences location) sections).
Proof.
  intros H. destruct (withoutReferences_cases location) as [->|[a ->]].
  - now rewrite List.map_id.
  - now apply wellShaped_sweep.
Qed.

(** What is done for an assembly location that was removed. *)
Lemma dropReferences_spec (names : list bool) (location : Node) (sections : list Node) :
  manifestState m "AssemblyLocations" names sections ->
  exists edits2,
    dropReferences location (manifestDoc m sections)
    = Ok (manifestDoc m (List.map (withoutReferences location) sections), edits2)
    /\ within (rootIndex m) (fun s => names !! s = Some false) edits2.
Proof.
  intros [Hm <-]. unfold dropReferences, withoutReferences, assemblyNameOf.
  destruct (head _) as [[|x nm]|]; cbn [truthy default from_option id fold_left].
  - exists []. rewrite List.map_id. split; [reflexivity|constructor].
  - rewrite references_select by exact Hm. cbn [bind].
    destruct (removeEach_sections "AssemblyReferences" (refersTo (x :: nm)) sections Hm)
      as (new & Hrun & _ & Hw).
    exists new. split; [exact Hrun|].
    eapply within_impl; [|exact Hw]. intros s. rewrite !lookup_map.
    destruct (sections !! s) as [sec|]; cbn; [|discriminate].
    intros [= H]. now rewrite references_not_locations.
  - exists []. rewrite List.map_id. split; [reflexivity|constructor].
Qed.

(** The loop over the assembly locations of the package. *)
Lemma removeLocations_sections (loc : jsstring) (sections : list Node) :
  wellShaped m sections ->
  exists new,
    let sections' :=
      List.map (fun sec =>
                  applyAll withoutReferences
                    (removedRecords "AssemblyLocations" (locatedUnder loc) sections)
                    (sweepSection "AssemblyLocations" (locatedUnder loc) sec))
               sections in
    removeLocations (manifestDoc m sections)
      (sectionHits "AssemblyLocations" (locatedUnder loc) (rootIndex m) 0 sections) []
    = Ok (manifestDoc m sections', new)
    /\ wellShaped m sections'.
Proof.
  intros Hm. rewrite removeLocations_loop.
  destruct (sweep_sections "AssemblyLocations" (locatedUnder loc) dropReferences
              withoutReferences (List.map (isNamed "AssemblyLocations") sections)
              (fun s => List.map (isNamed "AssemblyLocations") sections !! s = Some false))
    with (sections := sections) as (new & Hrun & [Hm' _] & _).
  - intros c secs. apply dropReferences_spec.
  - intros c sec. apply withoutReferences_own.
  - intros c sec. apply withoutReferences_name.
  - intros c secs. apply withoutReferences_shape.
  - intros s H. rewrite H. discriminate.
  - now split.
  - exists new. cbn zeta. split; [exact Hrun|exact Hm'].
Qed.

Lemma references_fold (records : list Node) :
  forall sections,
    fold_left (fun secs nm => List.map (sweepSection "AssemblyReferences" (refersTo nm)) secs)
              (flat_map assemblyNameOf records) sections
    = List.map (applyAll withoutReferences records) sections.
Proof.
  induction records as [|c records IH]; intros sections.
  - cbn. now rewrite applyAll_nil.
  - cbn [flat_map]. rewrite fold_left_app, IH.
    transitivity (List.map (applyAll withoutReferences records)
                    (List.map (withoutReferences c) sections));
      [|rewrite List.map_map; reflexivity].
    f_equal. unfold withoutReferences.
    destruct (assemblyNameOf c) as [|a names] eqn:E.
    + cbn. now rewrite List.map_id.
    + assert (names = []) as ->.
      { unfold assemblyNameOf in E. destruct (head _) as [[|x nm]|]; congruence. }
      reflexivity.
Qed.

Lemma cleanedUp_unfold (loc : jsstring) (sections : list Node) :
  cleanedUp loc sections
  = List.map (sweepSection "LibraryFolders" (folderUnder loc))
      (List.map (fun sec =>
                   applyAll withoutReferences
                     (removedRecords "AssemblyLocations" (locatedUnder loc) sections)
                     (sweepSection "AssemblyLocations" (locatedUnder loc) sec))
                sections).
Proof.
  unfold cleanedUp, removedNames. rewrite references_fold. f_equal.
  apply List.map_map.
Qed.

(** The clean-up on a manifest. *)
Lemma removeRelated_manifest (loc : jsstring) (sections : list Node) :
  wellShaped m sections ->
  exists edits,
    removeRelated (manifestDoc m sections) loc
    = Ok (manifestDoc m (cleanedUp loc sections), edits)
    /\ wellShaped m (cleanedUp loc sections).
Proof.
  intros Hm. unfold removeRelated.
  rewrite locations_select by exact Hm. cbn [bind].
  destruct (removeLocations_sections loc sections Hm) as (edits1 & Hrun1 & Hm1).
  cbn zeta in Hrun1, Hm1. rewrite Hrun1. cbn [bind].
  rewrite folders_select by exact Hm1. cbn [bind].
  destruct (removeEach_sections "LibraryFolders" (folderUnder loc) _ Hm1)
    as (edits2 & Hrun2 & Hm2 & _).
  rewrite Hrun2. cbn [bind]. rewrite cleanedUp_unfold.
  exists (edits1 ++ edits2). split; [reflexivity|exact Hm2].
Qed.

(** *** The records left by the clean-up *)

Lemma filter_filter_nodes (f g : Node -> bool) (l : list Node) :
  List.filter f (List.filter g l) = List.filter (fun x => g x && f x) l.
Proof.
  induction l as [|x l IH]; cbn; [reflexivity|].
  destruct (g x); cbn; [|exact IH]. destruct (f x); now rewrite IH.
Qed.

Lemma elementsOf_app (l1 l2 : list Node) :
  elementsOf (l1 ++ l2) = elementsOf l1 ++ elementsOf l2.
Proof. apply List.filter_app. Qed.

Lemma elementsOf_withoutText (kept : list Node) :
  elementsOf (withoutText kept) = elementsOf kept.
Proof. now destruct kept as [|[] kept]. Qed.

Lemma elementsOf_cons (c : Node) (cs : list Node) :
  elementsOf (c :: cs) = if isElement c then c :: elementsOf cs else elementsOf cs.
Proof. reflexivity. Qed.

Lemma elementsOf_sweepFrom (P : Node -> bool) (cs kept : list Node) :
  (forall c, P c = true -> isElement c = true) ->
  elementsOf (sweepFrom P kept cs)
  = elementsOf (rev kept) ++ List.filter (fun c => negb (P c)) (elementsOf cs).
Proof.
  intros HP. revert kept. induction cs as [|c cs IH]; intros kept; cbn [sweepFrom].
  - cbn. now rewrite app_nil_r.
  - destruct (P c) eqn:E.
    + rewrite IH, elementsOf_cons, (HP c E). cbn [List.filter]. rewrite E.
      cbn [negb]. f_equal.
      destruct kept as [|[] kept]; try reflexivity.
      cbn [withoutText rev]. rewrite elementsOf_app. cbn. now rewrite app_nil_r.
    + rewrite IH, (elementsOf_cons c cs). cbn [rev].
      rewrite elementsOf_app, <- app_assoc. f_equal.
      rewrite (elementsOf_cons c []).
      destruct (isElement c) eqn:Ec; cbn [List.filter app elementsOf]; [|reflexivity].
      now rewrite E.
Qed.

Lemma elementsOf_sweepSection (section : string) (P : Node -> bool) (sec : Node) :
  (forall c, P c = true -> isElement c = true) ->
  elementsOf (children (sweepSection section P sec))
  = List.filter (fun c => negb (isNamed section sec && P c)) (elementsOf (children sec)).
Proof.
  intros HP. unfold sweepSection. destruct (isNamed section sec) eqn:E.
  - rewrite (children_setChildren section) by exact E.
    unfold sweep. now rewrite elementsOf_sweepFrom.
  - cbn [andb negb]. symmetry. apply forallb_filter_id. now apply forallb_forall.
Qed.

Lemma named_element (nm : string) (c : Node) : isNamed nm c = true -> isElement c = true.
Proof. now destruct c. Qed.

Lemma assemblyNameOf_cases (location : Node) :
  assemblyNameOf location = [] \/ exists nm, assemblyNameOf location = [nm].
Proof.
  unfold assemblyNameOf. destruct (head _) as [[|x nm]|]; [now left| |now left].
  right. now exists (x :: nm).
Qed.

Lemma applyAll_cons (g : Node -> Node -> Node) (r : Node) (records : list Node)
    (sec : Node) :
  applyAll g (r :: records) sec = applyAll g records (g r sec).
Proof. reflexivity. Qed.

Lemma elementsOf_withoutReferences (records : list Node) :
  forall sec,
    elementsOf (children (applyAll withoutReferences records sec))
    = List.filter (fun c => negb (isNamed "AssemblyReferences" sec
                                  && existsb (fun nm => refersTo nm c)
                                             (flat_map assemblyNameOf records)))
                  (elementsOf (children sec)).
Proof.
  induction records as [|r records IH]; intros sec.
  - cbn. symmetry. apply forallb_filter_id. apply forallb_forall. intros c _.
    now rewrite andb_false_r.
  - rewrite applyAll_cons, IH. cbn [flat_map]. rewrite withoutReferences_name.
    unfold withoutReferences.
    destruct (assemblyNameOf_cases r) as [->|[nm ->]]; cbn [fold_left app]; [reflexivity|].
    rewrite elementsOf_sweepSection
      by (intros c H; apply andb_prop in H as [H _]; now apply named_element in H).
    rewrite filter_filter_nodes. apply filter_ext. intros c. cbn [existsb].
    destruct (isNamed "AssemblyReferences" sec), (refersTo nm c); reflexivity.
Qed.

Lemma applyAll_withoutReferences_name (nm : string) (records : list Node) (sec : Node) :
  isNamed nm (applyAll withoutReferences records sec) = isNamed nm sec.
Proof.
  revert sec. induction records as [|r records IH]; intros sec; [reflexivity|].
  cbn [applyAll fold_left]. etransitivity; [apply IH|apply withoutReferences_name].
Qed.

Lemma setChildren_self (sec : Node) : setChildren sec (children sec) = sec.
Proof. now destruct sec. Qed.

Lemma sweepSection_same (section : string) (P : Node -> bool) (sec : Node) :
  sweepSection section P sec = setChildren sec (children (sweepSection section P sec)).
Proof.
  unfold sweepSection. destruct (isNamed section sec) eqn:E.
  - now rewrite (children_setChildren section) by exact E.
  - now rewrite setChildren_self.
Qed.

Lemma same_trans (x y z : Node) :
  y = setChildren x (children y) -> z = setChildren y (children z) ->
  z = setChildren x (children z).
Proof. intros Hy Hz. rewrite Hz at 1. rewrite Hy. apply setChildren_twice. Qed.

Lemma applyAll_same (records : list Node) :
  forall sec, applyAll withoutReferences records sec
              = setChildren sec (children (applyAll withoutReferences records sec)).
Proof.
  induction records as [|r records IH]; intros sec.
  - cbn. now rewrite setChildren_self.
  - rewrite applyAll_cons.
    apply (same_trans sec (withoutReferences r sec)); [|apply IH].
    unfold withoutReferences.
    destruct (assemblyNameOf_cases r) as [->|[nm ->]]; cbn [fold_left].
    + now rewrite setChildren_self.
    + apply sweepSection_same.
Qed.

(** The sections after the clean-up, record by record. *)
Lemma cleanedUp_records (loc : jsstring) (sections : list Node) :
  Forall2 (fun sec sec' =>
             sec' = setChildren sec (children sec')
             /\ elementsOf (children sec')
                = List.filter (fun c => negb (dropped loc (removedNames loc sections) sec c))
                              (elementsOf (children sec)))
          sections (cleanedUp loc sections).
Proof.
  rewrite cleanedUp_unfold, List.map_map. unfold removedNames.
  generalize (removedRecords "AssemblyLocations" (locatedUnder loc) sections).
  intros records. induction sections as [|sec sections IH]; cbn [List.map]; constructor;
    [|exact IH].
  set (sec1 := sweepSection "AssemblyLocations" (locatedUnder loc) sec).
  set (sec2 := applyAll withoutReferences records sec1).
  split.
  - apply (same_trans sec sec2); [|apply sweepSection_same].
    apply (same_trans sec sec1); [apply sweepSection_same|apply applyAll_same].
  - rewrite elementsOf_sweepSection
      by (intros c H; apply andb_prop in H as [H _]; now apply named_element in H).
    unfold sec2. rewrite elementsOf_withoutReferences, applyAll_withoutReferences_name.
    unfold sec1. rewrite !isNamed_sweepSection.
    rewrite elementsOf_sweepSection
      by (intros c H; apply andb_prop in H as [H _]; now apply named_element in H).
    rewrite !filter_filter_nodes. apply filter_ext. intros c. unfold dropped.
    destruct (isNamed "AssemblyLocations" sec), (locatedUnder loc c),
      (isNamed "AssemblyReferences" sec), (existsb _ _),
      (isNamed "LibraryFolders" sec), (folderUnder loc c); reflexivity.
Qed.

(** *** The section of the packages and the indentation *)

(** The sections a selector [//PackageConfiguration/section] finds. *)
Lemma sections_evaluate (vars : Variables) (section : string) (sections : list Node) :
  wellShaped m sections ->
  evaluate (ELocationPath [anywhere; childNamed "PackageConfiguration" [];
                           childNamed section []]) vars (manifestDoc m sections)
  = XNodeSet (List.filter (testHit (nameTest (js section)))
                (imap (fun i c => HNode ([rootIndex m] ++ [i]) c) sections)).
Proof.
  intros Hm. cbn [evaluate]. f_equal.
  change [anywhere; childNamed "PackageConfiguration" []; childNamed section []]
    with ([anywhere; childNamed "PackageConfiguration" []] ++ [childNamed section []]).
  rewrite evalSteps_snoc, (root_match vars sections Hm).
  cbn [flat_map]. rewrite app_nil_r, applyStep_childNamed. cbn [children].
  apply docOrder_ascending, ascending_filter, ascending_imap.
  intros i j a b Hij. cbn. rewrite Nat.compare_refl.
  destruct (Nat.compare_spec j i); [lia|lia|reflexivity].
Qed.

Lemma first_section (section : string) (pre post : list Node) (sec : Node) :
  Forall (fun x => isNamed section x = false) pre ->
  isNamed section sec = true ->
  List.filter (testHit (nameTest (js section)))
    (imap (fun i c => HNode ([rootIndex m] ++ [i]) c) (pre ++ sec :: post))
  = HNode [rootIndex m; length pre] sec
    :: List.filter (testHit (nameTest (js section)))
         (imap (fun i c => HNode ([rootIndex m] ++ [S (length pre) + i]) c) post).
Proof.
  intros Hpre Hsec. rewrite imap_app, List.filter_app.
  rewrite (AnchorFacts.filter_imap_none _ (isNamed section));
    [|intros; apply testHit_named|exact Hpre].
  cbn [app imap List.filter]. rewrite testHit_named, Hsec, Nat.add_0_r. f_equal. f_equal.
  apply imap_ext. intros i c _. cbn. now rewrite Nat.add_succ_r.
Qed.

Lemma packages_select (pre post : list Node) (sec : Node) :
  wellShaped m (pre ++ sec :: post) ->
  Forall (fun x => isNamed "Packages" x = false) pre ->
  isNamed "Packages" sec = true ->
  select1Element bonsaiConfigPackagesSelector (manifestDoc m (pre ++ sec :: post)) ∅
  = Ok (Some (HNode [rootIndex m; length pre] sec)).
Proof.
  intros Hm Hpre Hsec.
  unfold select1Element, checkedSelect1, selectNodeSet, bonsaiConfigPackagesSelector.
  rewrite sections_evaluate, first_section by assumption. cbn [head hitType].
  destruct sec; try discriminate. reflexivity.
Qed.

Lemma indentation_is_text (selector : Expr) (doc indentation : Node) :
  referenceIndentation selector doc = Ok indentation -> exists d, indentation = Text d.
Proof.
  unfold referenceIndentation, select1Text, checkedSelect1, selectNodeSet.
  destruct (evaluate _ _ _) as [s|n|b|l]; try discriminate.
  destruct (head l) as [h|]; cbn [bind]; [|intros [= <-]; eauto].
  destruct (N.eqb (hitType h) TEXT_NODE) eqn:E;
    [|destruct (negb _); discriminate].
  cbn [bind]. intros [= <-]. destruct h as [p t|? ? ?]; [|eauto].
  destruct t; try discriminate. eauto.
Qed.

(** *** The replacing branch of injectPackages *)

Lemma package_found (packageId : jsstring) (sections : list Node) (s k : nat) (old : Node) :
  wellShaped m sections ->
  select1Element packageSelector (manifestDoc m sections) {[ js "packageId" := packageId ]}
  = Ok (Some (HNode [rootIndex m; s; k] old)) ->
  exists sec, sections !! s = Some sec /\ isNamed "Packages" sec = true.
Proof.
  intros Hm. unfold select1Element, checkedSelect1, selectNodeSet, packageSelector.
  rewrite manifest_evaluate by (assumption || discriminate).
  pose proof (sectionHits_elem "Packages"
                (fun c => isNamed "Package" c
                          && passes {[ js "packageId" := packageId ]}
                               (PAttrEq (js "id") (js "packageId")) c)
                0 sections) as Hel.
  destruct (sectionHits _ _ _ _ _) as [|x l]; [discriminate|]. cbn [head].
  destruct (Hel x) as (s' & k' & sec & c & -> & _ & Hsec & Hn & _); [left|].
  rewrite Nat.sub_0_r in Hsec.
  destruct (N.eqb _ _); [|destruct (negb _); discriminate].
  intros [= -> -> ->]. now exists sec.
Qed.

Lemma wellShaped_replace (pre post : list Node) (sec : Node) (cs : list Node) :
  wellShaped m (pre ++ sec :: post) ->
  Forall (fun c => mentions "PackageConfiguration" c = false) cs ->
  wellShaped m (pre ++ setChildren sec cs :: post).
Proof.
  intros [Hroot Hall] Hcs. split; [exact Hroot|].
  rewrite !Forall_app, Forall_cons in *.
  destruct Hall as (H1 & H2 & H3 & H4 & H5). repeat split; try assumption.
  assert (He : existsb (mentions "PackageConfiguration") cs = false).
  { destruct (existsb _ cs) eqn:E; [|reflexivity].
    apply existsb_exists in E as (c & Hin & E). apply list_elem_of_In in Hin.
    rewrite Forall_forall in Hcs. now rewrite (Hcs c Hin) in E. }
  destruct sec; cbn in *; try assumption.
  apply orb_false_elim in H4 as [-> _]. exact He.
Qed.

Lemma injectPackage_replaces (pf : Platform) (rootPath : list jsstring)
    (sections : list Node) (indentation : Node) (st : Upsert)
    (nugetPackage : NuGet.LocalNuGetPackage) (dirs : list (list jsstring))
    (s k : nat) (old : Node) :
  wellShaped m sections ->
  bonsaiConfigDoc st = manifestDoc m sections ->
  packagesNode st = Attached [rootIndex m; s] ->
  select1Element packageSelector (manifestDoc m sections)
    {[ js "packageId" := NuGet.id nugetPackage ]}
  = Ok (Some (HNode [rootIndex m; s; k] old)) ->
  attributeOf "id" old = js "Foo" ->
  attributeOf "version" old = js "1.0.0" ->
  toUpperCase (NuGet.id nugetPackage) = toUpperCase (js "Foo") ->
  exists st',
    injectPackage pf rootPath indentation st nugetPackage dirs
    = (if existsSync dirs (rootPath ++ [js "Packages"; js "Foo.1.0.0"])
       then rmSync dirs (rootPath ++ [js "Packages"; js "Foo.1.0.0"])
       else dirs,
       Ok st')
    /\ bonsaiConfigDoc st'
       = manifestDoc m
           (cleanedUp (js "Packages/Foo.1.0.0/")
              (replaceRecord s k (packageEntry nugetPackage) sections)).
Proof.
  intros Hm Hdoc Hnode Hsel Hid Hversion Hsame.
  destruct (package_found _ _ _ _ _ Hm Hsel) as (sec & Hsec & Hnamed).
  assert (Hid' : head (attrValues (js "id") (HNode [] old)) = Some (js "Foo")).
  { unfold attributeOf in Hid. destruct (head _) as [v|]; [|discriminate].
    cbn in Hid. now rewrite Hid. }
  assert (Hversion' : head (attrValues (js "version") (HNode [] old)) = Some (js "1.0.0")).
  { unfold attributeOf in Hversion. destruct (head _) as [v|]; [|discriminate].
    cbn in Hversion. now rewrite Hversion. }
  unfold injectPackage. cbn zeta. rewrite Hdoc, Hsel, !attributeValue_attr, Hid', Hversion'.
  change (truthy (Some (js "Foo"))) with true.
  change (truthy (Some (js "1.0.0"))) with true.
  cbn [default from_option id andb]. rewrite Hsame.
  replace (eqb (toUpperCase (js "Foo")) (toUpperCase (js "Foo"))) with true
    by (symmetry; now apply bool_decide_eq_true).
  cbn [negb]. rewrite Hnode. unfold splitLast. cbn [last removelast].
  rewrite bool_decide_eq_true_2 by reflexivity.
  rewrite package_fragment.
  change (js "Foo" ++ 46%N :: js "1.0.0") with (js "Foo.1.0.0").
  rewrite package_folder.
  pose proof (take_drop_middle sections s sec Hsec) as Hsplit.
  assert (Hlen : length (take s sections) = s).
  { apply lookup_lt_Some in Hsec. rewrite length_take. lia. }
  set (pre := take s sections) in *. set (post := drop (S s) sections) in *.
  clearbody pre post.
  change (createElement "Package" _) with (packageEntry nugetPackage).
  set (entry := packageEntry nugetPackage).
  assert (Hreplaced : replaceRecord s k entry sections
                      = pre ++ setChildren sec (<[k := entry]> (children sec)) :: post).
  { unfold replaceRecord. rewrite <- Hsplit, <- Hlen.
    rewrite alter_app_r_alt by lia. now rewrite Nat.sub_diag. }
  assert (Hupdate : updateAt (manifestDoc m sections) [rootIndex m; s]
                      (fun cs => <[k := entry]> cs)
                    = manifestDoc m
                        (pre ++ setChildren sec (<[k := entry]> (children sec)) :: post)).
  { rewrite <- Hsplit, <- Hlen. apply updateAt_section. }
  rewrite Hreplaced, Hupdate.
  destruct (removeRelated_manifest (js "Packages/Foo.1.0.0/")
              (pre ++ setChildren sec (<[k := entry]> (children sec)) :: post))
    as (edits & Hrun & _).
  { apply wellShaped_replace; [now rewrite Hsplit|].
    apply Forall_insert; [|reflexivity].
    apply mentions_children.
    destruct Hm as [_ Hall]. rewrite !Forall_app in Hall.
    destruct Hall as (_ & _ & Hall). rewrite Forall_forall in Hall.
    apply Hall. now apply list_elem_of_lookup_2 with s. }
  rewrite Hrun. cbn [bind]. eexists. split; reflexivity.
Qed.

(** A call with the one package. *)
Lemma upsertPackages_replaces (pf : Platform) (rootPath : list jsstring)
    (sections : list Node) (indentation : Node)
    (nugetPackage : NuGet.LocalNuGetPackage) (dirs : list (list jsstring))
    (s k : nat) (old : Node) :
  wellShaped m sections ->
  Forall (fun x => isNamed "Packages" x = false) (take s sections) ->
  referenceIndentation bonsaiConfigPackagesIndentSelector (manifestDoc m sections)
  = Ok indentation ->
  select1Element packageSelector (manifestDoc m sections)
    {[ js "packageId" := NuGet.id nugetPackage ]}
  = Ok (Some (HNode [rootIndex m; s; k] old)) ->
  attributeOf "id" old = js "Foo" ->
  attributeOf "version" old = js "1.0.0" ->
  toUpperCase (NuGet.id nugetPackage) = toUpperCase (js "Foo") ->
  upsertPackages pf rootPath (manifestDoc m sections) [nugetPackage] dirs
  = (if existsSync dirs (rootPath ++ [js "Packages"; js "Foo.1.0.0"])
     then rmSync dirs (rootPath ++ [js "Packages"; js "Foo.1.0.0"])
     else dirs,
     Ok (manifestDoc m
           (cleanedUp (js "Packages/Foo.1.0.0/")
              (replaceRecord s k (packageEntry nugetPackage) sections)))).
Proof.
  intros Hm Hfirst Hind Hsel Hid Hversion Hsame.
  destruct (package_found _ _ _ _ _ Hm Hsel) as (sec & Hsec & Hnamed).
  pose proof (take_drop_middle sections s sec Hsec) as Hsplit.
  assert (Hlen : length (take s sections) = s).
  { apply lookup_lt_Some in Hsec. rewrite length_take. lia. }
  unfold upsertPackages. rewrite <- Hsplit at 1.
  rewrite packages_select; [|now rewrite Hsplit|exact Hfirst|exact Hnamed].
  rewrite Hlen. destruct sec as [|ns nm attrs cs| | | |]; try discriminate.
  rewrite Hind. cbn [injectEach].
  match goal with
  | |- context [injectPackage pf rootPath indentation ?st0 nugetPackage dirs] =>
      destruct (injectPackage_replaces pf rootPath sections indentation st0 nugetPackage
                  dirs s k old Hm eq_refl eq_refl Hsel Hid Hversion Hsame)
        as (st' & -> & <-)
  end.
  reflexivity.
Qed.

End Manifest.

End Engine.

End ManifestFacts.

(** ** injectPackages on concrete manifests *)

Module UpsertTheorems.
Import JsString Dom XPath Tree XPathExtra Bonsai.
#[local] Open Scope string_scope.

Section Engine.
Context {unicode : CaseMapping}.

(** C3, the code at the failing input.  The manifest lists [foo] 1.0.0 and
    the package [Foo] 2.0.0 is upserted: the selector
    [Package[@id=$packageId]] compares the attribute value letter for letter,
    finds no entry, and a second entry is inserted next to the first, which
    stays.  The assertion on the upper-cased identifiers in the replacing
    branch shows that entries differing in letter case were meant to be the
    same package. *)
Lemma upsert_case_variant_adds_second_entry :
  let package (i v : string) :=
    Element None (js "Package")
      [{| namespaceURI := None; name := js "id"; value := js i |};
       {| namespaceURI := None; name := js "version"; value := js v |}] [] in
  let manifest (packages : list Node) :=
    Document None
      [Element None (js "PackageConfiguration") [] [Element None (js "Packages") [] packages]] in
  upsertPackages posix [js "env"]
    (manifest [Text (10%N :: js "    "); package "foo" "1.0.0"; Text (10%N :: js "  ")])
    [{| NuGet.id := js "Foo"; NuGet.version := js "2.0.0" |}] []
  = ([], Ok (manifest [Text (10%N :: js "    "); package "foo" "1.0.0";
                       Text (10%N :: js "    "); package "Foo" "2.0.0";
                       Text (10%N :: js "  ")])).
Proof. vm_compute. reflexivity. Qed.

(** C2, as amended.  The entry [old] of a manifest, [Foo] 1.0.0, stands in
    the section [s] and is the one the selector finds for [nugetPackage].
    The path fragment computed for it is [Packages/Foo.1.0.0/], with forward
    slashes on either platform and for every root of the environment.

    The turn of the loop for [nugetPackage], whatever the indentation,
    succeeds: it removes the directory of the package when there is one, and
    leaves the manifest with [<Package id=".." version=".." />] in the place
    of the entry and the clean-up done for that fragment.  So does a call
    with that one package, when [s] is the first section named [Packages]
    and the indentation is found.

    The clean-up removes from the sections named [AssemblyLocations] every
    record [AssemblyLocation] whose [location], with [/] for every [\],
    starts with the fragment, from the sections named [AssemblyReferences]
    every record [AssemblyReference] whose [assemblyName] is the one of a
    location removed, and from the sections named [LibraryFolders] every
    record [LibraryFolder] whose [path] starts with the fragment; every
    other record of every section is left as it was, in its place. *)
Theorem replaced_package_cleanup (pf : Platform) (rootPath : list jsstring)
    (m : Manifest) (sections : list Node)
    (nugetPackage : NuGet.LocalNuGetPackage) (dirs : list (list jsstring))
    (s k : nat) (old : Node) :
  wellShaped m sections ->
  select1Element packageSelector (manifestDoc m sections)
    {[ js "packageId" := NuGet.id nugetPackage ]}
  = Ok (Some (HNode [rootIndex m; s; k] old)) ->
  attributeOf "id" old = js "Foo" ->
  attributeOf "version" old = js "1.0.0" ->
  toUpperCase (NuGet.id nugetPackage) = toUpperCase (js "Foo") ->
  let fragment := js "Packages/Foo.1.0.0/" in
  let folder := (rootPath ++ [js "Packages"; js "Foo.1.0.0"])%list in
  let dirs' := if existsSync dirs folder then rmSync dirs folder else dirs in
  let replaced :=
    replaceRecord s k
      (Element None (js "Package")
         [{| namespaceURI := None; name := js "id"; value := NuGet.id nugetPackage |};
          {| namespaceURI := None; name := js "version";
             value := NuGet.version nugetPackage |}]
         [])
      sections in
  replacePackagePathLocal pf rootPath (js "Foo") (js "1.0.0") = fragment
  /\ (forall (indentation : Node) (st : Upsert),
        bonsaiConfigDoc st = manifestDoc m sections ->
        packagesNode st = Attached [rootIndex m; s] ->
        exists st',
          injectPackage pf rootPath indentation st nugetPackage dirs = (dirs', Ok st')
          /\ bonsaiConfigDoc st' = manifestDoc m (cleanedUp fragment replaced))
  /\ (forall indentation : Node,
        Forall (fun sec => isNamed "Packages" sec = false) (take s sections) ->
        referenceIndentation bonsaiConfigPackagesIndentSelector (manifestDoc m sections)
        = Ok indentation ->
        upsertPackages pf rootPath (manifestDoc m sections) [nugetPackage] dirs
        = (dirs', Ok (manifestDoc m (cleanedUp fragment replaced))))
  /\ Forall2 (fun sec sec' =>
                sec' = setChildren sec (children sec')
                /\ elementsOf (children sec')
                   = List.filter
                       (fun c => negb (dropped fragment (removedNames fragment replaced)
                                         sec c))
                       (elementsOf (children sec)))
             replaced (cleanedUp fragment replaced).
Proof.
  intros Hm Hsel Hid Hversion Hsame fragment folder dirs' replaced.
  split; [apply ManifestFacts.package_fragment|].
  split; [|split; [|apply ManifestFacts.cleanedUp_records]].
  - intros indentation st Hdoc Hnode.
    now apply (ManifestFacts.injectPackage_replaces m pf rootPath sections indentation st
                 nugetPackage dirs s k old).
  - intros indentation Hfirst Hind.
    now apply (ManifestFacts.upsertPackages_replaces m pf rootPath sections indentation
                 nugetPackage dirs s k old).
Qed.

End Engine.

#[local] Existing Instance asciiOnly.

(** C2, the counterexamples.

    The fragment computed for the replaced entry [Foo] 1.0.0 is
    [Packages/Foo.1.0.0/], on either platform: the path is taken relative to
    the root of the environment, not to its [Packages] directory.  So an
    assembly location whose path starts with [Foo.1.0.0/] stays when [Foo]
    is replaced.

    A call replaces every package it is given: when [Foo] and [Bar] are both
    replaced, the location of [Bar] is removed too, though it does not start
    with the fragment of [Foo].  What is removed for [Foo] is what its turn
    of the loop removes.

    The selectors look for [PackageConfiguration] everywhere in the
    document: when a location that stays holds a second
    [PackageConfiguration], a location below that one is removed and the
    record that holds it, which does not start with the fragment, is
    changed. *)
Lemma fragment_is_below_Packages :
  let record (nm : string) (attrs : list (string * string)) (cs : list Node) :=
    Element None (js nm)
      (List.map (fun kv => {| namespaceURI := None; name := js (fst kv);
                              value := js (snd kv) |}) attrs)
      cs in
  let manifest (sections : list Node) :=
    Document None [record "PackageConfiguration" [] sections] in
  let package (i v : string) := record "Package" [("id", i); ("version", v)] [] in
  let location (nm path : string) (cs : list Node) :=
    record "AssemblyLocation" [("assemblyName", nm); ("location", path)] cs in
  let upsert (doc : Node) (pkgs : list (string * string)) :=
    upsertPackages posix [js "env"] doc
      (List.map (fun p => {| NuGet.id := js (fst p); NuGet.version := js (snd p) |}) pkgs)
      [] in
  (replacePackagePathLocal posix [js "env"] (js "Foo") (js "1.0.0") = js "Packages/Foo.1.0.0/"
   /\ replacePackagePathLocal win32 [js "C:"; js "env"] (js "Foo") (js "1.0.0")
      = js "Packages/Foo.1.0.0/"
   /\ JsString.startsWith
        (normalized (attributeOf "location" (location "Foo" "Foo.1.0.0/lib/Foo.dll" [])))
        (js "Foo.1.0.0/") = true
   /\ upsert
        (manifest [record "Packages" [] [package "Foo" "1.0.0"];
                   record "AssemblyLocations" [] [location "Foo" "Foo.1.0.0/lib/Foo.dll" []]])
        [("Foo", "2.0.0")]
      = ([], Ok (manifest
                   [record "Packages" [] [package "Foo" "2.0.0"];
                    record "AssemblyLocations" []
                      [location "Foo" "Foo.1.0.0/lib/Foo.dll" []]])))
  /\ (JsString.startsWith
        (normalized
           (attributeOf "location" (location "Bar" "Packages/Bar.1.0.0/lib/Bar.dll" [])))
        (js "Packages/Foo.1.0.0/") = false
      /\ upsert
           (manifest [record "Packages" [] [package "Foo" "1.0.0"; package "Bar" "1.0.0"];
                      record "AssemblyLocations" []
                        [location "Foo" "Packages/Foo.1.0.0/lib/Foo.dll" [];
                         location "Bar" "Packages/Bar.1.0.0/lib/Bar.dll" []]])
           [("Foo", "2.0.0"); ("Bar", "2.0.0")]
         = ([], Ok (manifest
                      [record "Packages" [] [package "Foo" "2.0.0"; package "Bar" "2.0.0"];
                       record "AssemblyLocations" [] []])))
  /\ (JsString.startsWith
        (normalized
           (attributeOf "location" (location "Keep" "Packages/Keep.1.0.0/lib/Keep.dll" [])))
        (js "Packages/Foo.1.0.0/") = false
      /\ upsert
           (manifest
              [record "Packages" [] [package "Foo" "1.0.0"];
               record "AssemblyLocations" []
                 [location "Keep" "Packages/Keep.1.0.0/lib/Keep.dll"
                    [record "PackageConfiguration" []
                       [record "AssemblyLocations" []
                          [location "Foo" "Packages/Foo.1.0.0/lib/Foo.dll" []]]]]])
           [("Foo", "2.0.0")]
         = ([], Ok (manifest
                      [record "Packages" [] [package "Foo" "2.0.0"];
                       record "AssemblyLocations" []
                         [location "Keep" "Packages/Keep.1.0.0/lib/Keep.dll"
                            [record "PackageConfiguration" []
                               [record "AssemblyLocations" [] []]]]]))).
Proof. vm_compute. repeat split; reflexivity. Qed.

Lemma replaced_package_cleanup_witness :
  let record (nm : string) (attrs : list (string * string)) :=
    Element None (js nm)
      (List.map (fun kv => {| namespaceURI := None; name := js (fst kv);
                              value := js (snd kv) |}) attrs)
      [] in
  let m := {| extra := None; prolog := []; rootNamespace := None;
              rootName := js "PackageConfiguration"; rootAttributes := [];
              epilog := [] |} in
  let sections (version : string) (locations references folders : list Node) :=
    [Element None (js "Packages") [] [record "Package" [("id", "Foo"); ("version", version)]];
     Element None (js "AssemblyLocations") [] locations;
     Element None (js "AssemblyReferences") [] references;
     Element None (js "LibraryFolders") [] folders] in
  let other :=
    record "AssemblyLocation"
      [("assemblyName", "Bar"); ("location", "Packages\Bar.1.0.0\lib\Bar.dll")] in
  let before :=
    sections "1.0.0"
      [record "AssemblyLocation"
         [("assemblyName", "Foo"); ("location", "Packages\Foo.1.0.0\lib\Foo.dll")];
       other]
      [record "AssemblyReference" [("assemblyName", "Foo")];
       record "AssemblyReference" [("assemblyName", "Bar")]]
      [record "LibraryFolder" [("path", "Packages/Foo.1.0.0/build")]] in
  upsertPackages posix [js "env"] (manifestDoc m before)
    [{| NuGet.id := js "Foo"; NuGet.version := js "2.0.0" |}]
    [[js "env"; js "Packages"; js "Foo.1.0.0"]; [js "env"; js "Packages"; js "Bar.1.0.0"]]
  = ([[js "env"; js "Packages"; js "Bar.1.0.0"]],
     Ok (manifestDoc m (sections "2.0.0" [other]
                          [record "AssemblyReference" [("assemblyName", "Bar")]] []))).
Proof.
  intros record m sections other before.
  destruct (replaced_package_cleanup posix [js "env"] m before
              {| NuGet.id := js "Foo"; NuGet.version := js "2.0.0" |}
              [[js "env"; js "Packages"; js "Foo.1.0.0"];
               [js "env"; js "Packages"; js "Bar.1.0.0"]]
              0 0 (record "Package" [("id", "Foo"); ("version", "1.0.0")]))
    as (_ & _ & Hcall & _).
  - split; [reflexivity|]. repeat constructor.
  - vm_compute. reflexivity.
  - reflexivity.
  - reflexivity.
  - reflexivity.
  - rewrite (Hcall (Text (10%N :: js "    "))); [|constructor|vm_compute; reflexivity].
    vm_compute. reflexivity.
Defined.

#[local] Close Scope string_scope.

End UpsertTheorems.

(** * Further properties of the code *)

(** ** util.ts: stringCompare *)

Module CompareTheorems.
Import JsString UtilText.

Lemma lessThan_irrefl (a : jsstring) : lessThan a a = false.
Proof.
  induction a as [|x a IH]; [reflexivity|].
  cbn [lessThan]. now rewrite N.ltb_irrefl, N.eqb_refl, IH.
Qed.

Lemma lessThan_total (a b : jsstring) :
  lessThan a b = false -> lessThan b a = false -> a = b.
Proof.
  revert b. induction a as [|x a IH]; intros [|y b]; cbn [lessThan]; try discriminate;
    [reflexivity|].
  intros H1 H2. apply orb_false_elim in H1 as [H1 H1'], H2 as [H2 H2'].
  apply N.ltb_ge in H1, H2. assert (x = y) as -> by lia.
  rewrite N.eqb_refl in H1', H2'. cbn [andb] in H1', H2'. f_equal. now apply IH.
Qed.

Lemma lessThan_asym (a b : jsstring) : lessThan a b = true -> lessThan b a = false.
Proof.
  revert b. induction a as [|x a IH]; intros [|y b]; cbn [lessThan]; try discriminate;
    [reflexivity|].
  intros H. apply orb_true_iff in H as [H|H].
  - apply N.ltb_lt in H. apply orb_false_iff. split; [apply N.ltb_ge; lia|].
    replace (N.eqb y x) with false by (symmetry; apply N.eqb_neq; lia). reflexivity.
  - apply andb_prop in H as [Hxy H]. apply N.eqb_eq in Hxy. subst y.
    now rewrite N.ltb_irrefl, N.eqb_refl, (IH b H).
Qed.

Lemma lessThan_trans (a b c : jsstring) :
  lessThan a b = true -> lessThan b c = true -> lessThan a c = true.
Proof.
  revert b c. induction a as [|x a IH]; intros [|y b] [|z c]; cbn [lessThan];
    try discriminate; try reflexivity.
  intros H1 H2. apply orb_true_iff in H1, H2. apply orb_true_iff.
  destruct H1 as [H1|H1], H2 as [H2|H2].
  - left. apply N.ltb_lt in H1, H2. apply N.ltb_lt. lia.
  - apply andb_prop in H2 as [E _]. apply N.eqb_eq in E. subst z. now left.
  - apply andb_prop in H1 as [E _]. apply N.eqb_eq in E. subst y. now left.
  - apply andb_prop in H1 as [E1 H1], H2 as [E2 H2].
    apply N.eqb_eq in E1, E2. subst y z. right.
    now rewrite N.eqb_refl, (IH b c H1 H2).
Qed.

(** X1.  [stringCompare] answers 0 for equal strings only: two strings that
    differ in a code unit, or in length, are never taken for equal. *)
Theorem stringCompare_zero (a b : jsstring) : stringCompare a b = 0%Z <-> a = b.
Proof.
  unfold stringCompare. split.
  - destruct (lessThan a b) eqn:H1; [discriminate|].
    destruct (lessThan b a) eqn:H2; [discriminate|].
    intros _. now apply lessThan_total.
  - intros ->. now rewrite lessThan_irrefl.
Qed.

(** X2.  Swapping the arguments of [stringCompare] negates the answer, as
    [Array.prototype.sort] asks of a comparator. *)
Theorem stringCompare_swap (a b : jsstring) :
  stringCompare b a = (- stringCompare a b)%Z.
Proof.
  unfold stringCompare.
  destruct (lessThan a b) eqn:H1.
  - now rewrite (lessThan_asym a b H1).
  - now destruct (lessThan b a).
Qed.

(** X3.  The order [stringCompare] gives is transitive. *)
Theorem stringCompare_trans (a b c : jsstring) :
  stringCompare a b = (-1)%Z -> stringCompare b c = (-1)%Z ->
  stringCompare a c = (-1)%Z.
Proof.
  unfold stringCompare.
  destruct (lessThan a b) eqn:H1; [|destruct (lessThan b a); discriminate].
  destruct (lessThan b c) eqn:H2; [|destruct (lessThan c b); discriminate].
  intros _ _. now rewrite (lessThan_trans a b c H1 H2).
Qed.

Lemma stringCompare_trans_witness :
  stringCompare (js "a") (js "ab") = (-1)%Z
  /\ stringCompare (js "ab") (js "b") = (-1)%Z
  /\ stringCompare (js "a") (js "b") = (-1)%Z.
Proof.
  split; [reflexivity|]. split; [reflexivity|].
  apply (stringCompare_trans (js "a") (js "ab") (js "b")); reflexivity.
Defined.

End CompareTheorems.

(** ** util.ts: globEscape *)

Module GlobTheorems.
Import JsString UtilText JsStringFacts.

Lemma wildcards_enclosed (l : jsstring) :
  forall prev,
    bareWildcard prev
      (flat_map (fun x => if N.eqb 42 x then [91; 42; 93]%N else [x])
         (flat_map (fun x => if N.eqb 63 x then [91; 63; 93]%N else [x]) l))
    = false.
Proof.
  induction l as [|c l IH]; intros prev; [reflexivity|].
  cbn [flat_map]. rewrite flat_map_app.
  destruct (N.eqb_spec 63 c) as [<-|H63].
  - cbn [flat_map app]. change (N.eqb 42 91) with false. change (N.eqb 42 63) with false.
    change (N.eqb 42 93) with false. cbn [app bareWildcard head].
    change (N.eqb 91 42) with false. change (N.eqb 91 63) with false.
    change (N.eqb 63 42) with false. change (N.eqb 63 63) with true.
    change (N.eqb 93 42) with false. change (N.eqb 93 63) with false.
    cbn [orb andb].
    rewrite !bool_decide_eq_true_2 by reflexivity. cbn [orb andb negb]. apply IH.
  - cbn [flat_map app]. destruct (N.eqb_spec 42 c) as [<-|H42].
    + cbn [app bareWildcard head].
      change (N.eqb 91 42) with false. change (N.eqb 91 63) with false.
      change (N.eqb 42 42) with true.
      change (N.eqb 93 42) with false. change (N.eqb 93 63) with false.
      cbn [orb andb].
      rewrite !bool_decide_eq_true_2 by reflexivity. cbn [orb andb negb]. apply IH.
    + cbn [app bareWildcard].
      replace (N.eqb c 42) with false by (symmetry; apply N.eqb_neq; congruence).
      replace (N.eqb c 63) with false by (symmetry; apply N.eqb_neq; congruence).
      cbn [orb andb]. apply IH.
Qed.

(** X4.  In the text [globEscape] gives, on either platform, every [*] and
    every [?] stands between [[] and []]: no wildcard of the input is left
    for the glob to expand. *)
Theorem globEscape_no_wildcard (pf : Platform) (s : jsstring) :
  bareWildcard None (globEscape pf s) = false.
Proof.
  unfold globEscape. cbn zeta.
  change (js "?") with [63%N]. change (js "*") with [42%N].
  rewrite !replaceAll_char. apply wildcards_enclosed.
Qed.

Lemma escapeBrackets_plain (s : jsstring) : 91%N ∉ s -> escapeBrackets s = s.
Proof.
  induction s as [|c s IH]; intros H; [reflexivity|].
  apply not_elem_of_cons in H as [Hc Hs]. cbn [escapeBrackets].
  replace (N.eqb c 91) with false by (symmetry; apply N.eqb_neq; congruence).
  cbn [andb app]. now rewrite IH.
Qed.

(** X5.  A path without [[], [?] and [*] (and, except on Windows, without
    [\]) is its own escape. *)
Theorem globEscape_plain (pf : Platform) (s : jsstring) :
  91%N ∉ s -> 63%N ∉ s -> 42%N ∉ s -> (pf = posix -> 92%N ∉ s) ->
  globEscape pf s = s.
Proof.
  intros H91 H63 H42 H92. unfold globEscape. cbn zeta.
  assert (Hs : match pf with win32 => s | posix => replaceAll s [92%N] [92%N; 92%N] end = s).
  { destruct pf; [|reflexivity]. apply replaceAll_char_absent. now apply H92. }
  rewrite Hs, escapeBrackets_plain by exact H91.
  change (js "?") with [63%N]. change (js "*") with [42%N].
  now rewrite (replaceAll_char_absent s _ 63%N H63), (replaceAll_char_absent s _ 42%N H42).
Qed.

Lemma globEscape_plain_witness :
  globEscape posix (js "env/.bonsai/Bonsai.config") = js "env/.bonsai/Bonsai.config".
Proof.
  assert (Hplain : forall c, In c [91; 63; 42; 92]%N -> c ∉ js "env/.bonsai/Bonsai.config").
  { intros c Hc H. apply list_elem_of_In in H. vm_compute in Hc, H.
    repeat (destruct Hc as [<-|Hc];
            [repeat (destruct H as [H|H]; [discriminate|]); exact H|]).
    exact Hc. }
  apply globEscape_plain;
    [apply Hplain|apply Hplain|apply Hplain|intros _; apply Hplain]; cbn; tauto.
Defined.

End GlobTheorems.

(** ** cache.ts: the keys *)

Module CacheTheorems.
Import JsString Cache.

Lemma key_not_incomplete (key : jsstring) : key <> key ++ js "-incomplete".
Proof.
  intros H. apply (f_equal length) in H. rewrite length_app in H. cbn in H. lia.
Qed.

(** X6.  A run saves its cache under a key the next run with the same
    primary key asks for: the primary key itself, or, for an incomplete
    cache, the last of the restore keys.  Restored from the first the state
    is [Full]; restored from the second it is [Partial], never [Full]. *)
Theorem saved_key_is_restored (cacheKeyPrefix digest : jsstring) (isIncomplete : bool) :
  let cache := createForRestore cacheKeyPrefix digest in
  let key := saveKey cache isIncomplete in
  (if isIncomplete then last (restoreKeys cache) = Some key else key = primaryKey cache)
  /\ state (restore cache (Some key) true) = if isIncomplete then Partial else Full.
Proof.
  cbn zeta. unfold createForRestore, newSetupBonsaiCache, saveKey. cbn zeta.
  cbn [primaryKey restoreKeys].
  set (pk := _ ++ digest).
  assert (Hpk : exists c rest, pk = c :: rest).
  { unfold pk. destruct cacheKeyPrefix; cbn; eauto. }
  destruct Hpk as (c & rest & Hpk).
  destruct isIncomplete.
  - split; [apply last_snoc|].
    unfold restore, state. rewrite Hpk. cbn [app Bonsai.truthy andb restoredFrom primaryKey].
    rewrite bool_decide_eq_false_2; [reflexivity|].
    intros [= H]. now apply (key_not_incomplete rest).
  - split; [reflexivity|].
    unfold restore, state. rewrite Hpk. cbn [Bonsai.truthy andb restoredFrom primaryKey].
    now rewrite bool_decide_eq_true_2.
Qed.

(** X7.  The first restore key of a run is a prefix of the primary key of
    every run with the same cache-key prefix, whatever the environments
    hashed; that of a run without cache-key prefix is a prefix of the primary
    key of every run, whatever its prefix. *)
Theorem restore_key_is_prefix (cacheKeyPrefix digest : jsstring) :
  exists key,
    head (restoreKeys (createForRestore cacheKeyPrefix digest)) = Some key
    /\ (forall digest',
          key `prefix_of` primaryKey (createForRestore cacheKeyPrefix digest'))
    /\ (cacheKeyPrefix = [] ->
        forall prefix' digest',
          key `prefix_of` primaryKey (createForRestore prefix' digest')).
Proof.
  unfold createForRestore, newSetupBonsaiCache. cbn zeta. cbn [restoreKeys primaryKey].
  eexists. split; [reflexivity|]. split.
  - intros digest'. now apply prefix_app_r.
  - intros -> prefix' digest'. destruct prefix' as [|c prefix'].
    + now apply prefix_app_r.
    + rewrite <- app_assoc. now apply prefix_app_r.
Qed.

End CacheTheorems.

(** ** bonsai.ts: the outcome of addPackageSources *)

Module MergeOutcomeTheorems.
Import JsString Dom XPath Tree XPathExtra Bonsai XPathFacts AttributeFacts MergeFacts.

Section Engine.
Context {unicode : CaseMapping}.

Section Xmldom.
Variable serializeToString : Node -> jsstring.

Lemma insertSources_NoDup (ind : Node) (front : list Node)
    (sources : list NuGet.NuGetPackageSource) (st : Merge) :
  insertSources ind {| before := front; newSources := ∅ |} sources = Ok st ->
  NoDup (List.map NuGet.name sources).
Proof.
  intros H. destruct (decide (NoDup (List.map NuGet.name sources))) as [Hnd|Hdup];
    [exact Hnd|].
  destruct (first_repeat _ Hdup) as (n1 & x & n2 & Hmap & Hnd & Hx).
  apply map_eq_app in Hmap as (firsts & tl & -> & <- & Htl).
  apply map_eq_cons in Htl as (s & rest & -> & <- & _).
  now rewrite insertSources_repeat in H.
Qed.

Lemma insertSources_error (ind : Node) (sources : list NuGet.NuGetPackageSource) :
  forall st e, insertSources ind st sources = Throw e -> mergeError e.
Proof.
  induction sources as [|s sources IH]; intros st e; cbn [insertSources]; [discriminate|].
  unfold insertSource. destruct (newSources st !! NuGet.name s); cbn [bind].
  - now intros [= <-].
  - apply IH.
Qed.

Lemma disableReplaced1_error (sources : gmap (list N) NuGet.NuGetPackageSource)
    (node : Node) (e : Error) :
  disableReplaced1 serializeToString sources node = Throw e -> mergeError e.
Proof.
  destruct node as [| ns nm attrs cs | | | |]; try discriminate.
  destruct (decide (nm = js "add")) as [->|Hnm].
  - rewrite (disableReplaced1_add serializeToString).
    destruct (keyOf _) as [[|c k]|]; try (now intros [= <-]).
    destruct (sources !! (c :: k)) as [src|]; [|discriminate].
    destruct (NuGet.allowUpdate src); [discriminate|]. now intros [= <-].
  - rewrite (disableReplaced1_unexpected serializeToString) by exact Hnm. now intros [= <-].
Qed.

Lemma disableReplaced_error (sources : gmap (list N) NuGet.NuGetPackageSource)
    (nodes : list Node) (e : Error) :
  disableReplaced serializeToString sources nodes = Throw e -> mergeError e.
Proof.
  induction nodes as [|n nodes IH]; cbn [disableReplaced]; [discriminate|].
  destruct (disableReplaced1 _ _ n) as [n'|e'] eqn:E; cbn [bind].
  - destruct (disableReplaced _ _ nodes) as [r|e'']; cbn [bind]; [discriminate|].
    intros [= <-]. now apply IH.
  - intros [= <-]. now apply (disableReplaced1_error sources n).
Qed.

Lemma passable_walk (sources : list NuGet.NuGetPackageSource) (node : Node) :
  NoDup (List.map NuGet.name sources) ->
  (exists node', disableReplaced1 serializeToString (byName sources) node = Ok node')
  <-> passable sources node.
Proof.
  intros Hnd.
  destruct node as [| ns nm attrs cs | | | |]; try (split; [exact (fun _ => I)|]; cbn; eauto).
  destruct (decide (nm = js "add")) as [->|Hnm].
  - rewrite (disableReplaced1_add serializeToString). cbn [passable].
    destruct (keyOf _) as [[|c k]|] eqn:Hkey.
    + split; [now intros [? [=]]|]. intros (_ & c & k & [=] & _).
    + split.
      * intros [node' H]. split; [reflexivity|]. exists c, k. split; [reflexivity|].
        intros src Hin Hname. rewrite <- Hname, (byName_lookup sources src Hnd Hin) in H.
        now destruct (NuGet.allowUpdate src).
      * intros (_ & c' & k' & [= <- <-] & Hallow).
        destruct (byName sources !! (c :: k)) as [src|] eqn:E; [|eauto].
        apply byName_lookup_Some in E as [Hin Hname].
        rewrite (Hallow src Hin Hname). eauto.
    + split; [now intros [? [=]]|]. intros (_ & c & k & [=] & _).
  - rewrite (disableReplaced1_unexpected serializeToString) by exact Hnm.
    split; [now intros [? [=]]|]. now intros [? _].
Qed.

Lemma passable_walk_all (sources : list NuGet.NuGetPackageSource) (nodes : list Node) :
  NoDup (List.map NuGet.name sources) ->
  (exists nodes', disableReplaced serializeToString (byName sources) nodes = Ok nodes')
  <-> Forall (passable sources) nodes.
Proof.
  intros Hnd. induction nodes as [|n nodes IH]; cbn [disableReplaced].
  - split; [constructor|eauto].
  - split.
    + intros [nodes' H]. apply bind_ok in H as (n' & Hn & H).
      apply bind_ok in H as (r & Hr & _). constructor.
      * apply (passable_walk sources n Hnd). eauto.
      * apply IH. eauto.
    + intros H. apply Forall_cons in H as [Hn H].
      apply (passable_walk sources n Hnd) in Hn as [n' ->].
      apply IH in H as [r ->]. cbn [bind]. eauto.
Qed.

(** X8.  The two loops of [addPackageSources] succeed exactly when the names
    of the sources differ from one another and every node from the insertion
    point on can be passed: it is not an element, or it is an [<add>] entry
    with a name, which no new source has unless it allows the update. *)
Theorem merge_succeeds_iff (indentation : Node) (insertionIndex : nat)
    (childNodes : list Node) (sources : list NuGet.NuGetPackageSource) :
  (exists merged,
      mergeChildren serializeToString indentation insertionIndex childNodes sources
      = Ok merged)
  <-> NoDup (List.map NuGet.name sources)
      /\ Forall (passable sources) (drop insertionIndex childNodes).
Proof.
  unfold mergeChildren. split.
  - intros [merged H]. apply bind_ok in H as (st & Hst & H).
    apply bind_ok in H as (rest & Hrest & _).
    pose proof (insertSources_NoDup _ _ _ _ Hst) as Hnd. split; [exact Hnd|].
    rewrite insertSources_ok in Hst by exact Hnd. injection Hst as <-.
    apply (passable_walk_all sources _ Hnd). eauto.
  - intros [Hnd Hall]. rewrite insertSources_ok by exact Hnd. cbn [bind newSources before].
    apply (passable_walk_all sources _ Hnd) in Hall as [rest ->]. cbn [bind]. eauto.
Qed.

(** X9.  When the loops fail, the error is one of four: a repeated source
    name, an element that is not [<add>], an entry without a name, or an
    update that is not allowed. *)
Theorem merge_fails_with (indentation : Node) (insertionIndex : nat)
    (childNodes : list Node) (sources : list NuGet.NuGetPackageSource) (e : Error) :
  mergeChildren serializeToString indentation insertionIndex childNodes sources = Throw e ->
  mergeError e.
Proof.
  unfold mergeChildren.
  destruct (insertSources _ _ sources) as [st|e'] eqn:Hst; cbn [bind].
  - destruct (disableReplaced _ _ _) as [rest|e'] eqn:Hrest; cbn [bind]; [discriminate|].
    intros [= <-]. now apply (disableReplaced_error _ _ _ Hrest).
  - intros [= <-]. now apply (insertSources_error _ _ _ _ Hst).
Qed.

Lemma insertSources_length (ind : Node) (sources : list NuGet.NuGetPackageSource) :
  forall st st',
    insertSources ind st sources = Ok st' ->
    length (before st') = length (before st) + 2 * length sources.
Proof.
  induction sources as [|s sources IH]; intros st st'; cbn [insertSources].
  - intros [= <-]. cbn. lia.
  - unfold insertSource. destruct (newSources st !! NuGet.name s); [discriminate|].
    cbn [bind]. intros H. apply IH in H. cbn [before length] in *.
    rewrite length_app in H. cbn in H. lia.
Qed.

(** X10.  A merge removes no node: the children of [<packageSources>] grow
    by two nodes for each source, the entry and its indentation. *)
Theorem merge_grows_by_two (indentation : Node) (insertionIndex : nat)
    (childNodes merged : list Node) (sources : list NuGet.NuGetPackageSource) :
  mergeChildren serializeToString indentation insertionIndex childNodes sources = Ok merged ->
  length merged = length childNodes + 2 * length sources.
Proof.
  unfold mergeChildren. intros H. apply bind_ok in H as (st & Hst & H).
  apply bind_ok in H as (rest & Hrest & [= <-]).
  apply insertSources_length in Hst. apply disableReplaced_length in Hrest.
  cbn [before] in Hst. rewrite length_app, Hst, Hrest, length_take, length_drop. lia.
Qed.

End Xmldom.

End Engine.

#[local] Existing Instance asciiOnly.

Lemma merge_fails_with_witness :
  let source := {| NuGet.name := js "A"; NuGet.url := js "u"; NuGet.allowUpdate := true |} in
  mergeChildren (fun _ => js "<add />") (Text (js " ")) 0
    [Element None (js "remove") [] []] [source]
  = Throw (UnexpectedNode (js "remove"))
  /\ mergeError (UnexpectedNode (js "remove")).
Proof.
  intros source. split; [reflexivity|].
  now apply (merge_fails_with (fun _ => js "<add />") (Text (js " ")) 0
               [Element None (js "remove") [] []] [source]).
Defined.

Lemma merge_grows_by_two_witness :
  let source := {| NuGet.name := js "A"; NuGet.url := js "u"; NuGet.allowUpdate := true |} in
  let old :=
    Element None (js "add")
      [{| namespaceURI := None; name := js "key"; value := js "A" |}] [] in
  exists merged,
    mergeChildren (fun _ => js "<add />") (Text (js " ")) 1 [Comment (js "c"); old] [source]
    = Ok merged
    /\ length merged = 4.
Proof.
  intros source old. eexists. split; [reflexivity|].
  now apply (merge_grows_by_two (fun _ => js "<add />") (Text (js " ")) 1
               [Comment (js "c"); old] _ [source]).
Defined.

End MergeOutcomeTheorems.

(** ** xpath-extra.ts: the kinds of node the selectors give *)

Module SelectorTheorems.
Import JsString Dom XPath Tree XPathExtra.

Section Engine.
Context {unicode : CaseMapping}.

(** X13.  [selectElements] gives its answer exactly when the expression
    evaluates to a node set all of whose nodes are elements, and the answer is
    that node set: it never lets a text node, an attribute or a comment
    through as an element. *)
Theorem selectElements_ok_iff (expression : Expr) (node : Node) (options : SelectOptions)
    (nodes : list Hit) :
  selectElements expression node options = Ok nodes
  <-> evaluate expression options node = XNodeSet nodes
      /\ Forall (fun n => hitType n = ELEMENT_NODE) nodes.
Proof.
  unfold selectElements, selectNodeSet.
  destruct (evaluate expression options node) as [s|n|b|l]; try (split; [discriminate|]);
    try (intros [[=] _]).
  destruct (List.find _ l) as [bad|] eqn:E.
  - split; [discriminate|]. intros [[= ->] Hall].
    apply find_some in E as [Hin Hbad]. rewrite Forall_forall in Hall.
    apply list_elem_of_In, Hall in Hin. rewrite Hin in Hbad. discriminate.
  - split.
    + intros [= <-]. split; [reflexivity|]. rewrite Forall_forall. intros h Hin.
      apply list_elem_of_In in Hin. pose proof (find_none _ _ E h Hin) as H.
      apply negb_false_iff, N.eqb_eq in H. exact H.
    + now intros [[= ->] _].
Qed.

End Engine.

End SelectorTheorems.

(** ** main.ts: the packages and the package sources of a run *)

Module ActionTheorems.
Import JsString Dom Bonsai Action MergeFacts.

Lemma has_ids (done : list NuGet.LocalNuGetPackage) (key : jsstring) :
  has (List.map (fun p => (NuGet.id p, p)) done) key = true
  <-> key ∈ List.map NuGet.id done.
Proof.
  unfold has. rewrite existsb_exists. split.
  - intros (kv & Hin & Hkey). apply in_map_iff in Hin as (p & <- & Hin).
    apply bool_decide_eq_true in Hkey. cbn in Hkey. subst key.
    now apply list_elem_of_In, in_map.
  - intros Hin. apply list_elem_of_In, in_map_iff in Hin as (p & <- & Hin).
    exists (NuGet.id p, p). split; [now apply (in_map (fun p => (NuGet.id p, p)))|].
    now apply bool_decide_eq_true.
Qed.

Lemma errors_stay (loaded : list (Result NuGet.LocalNuGetPackage)) :
  forall st, haveErrors st = true -> haveErrors (fold_left enumerate loaded st) = true.
Proof.
  induction loaded as [|r loaded IH]; intros st H; [exact H|].
  cbn [fold_left]. apply IH. unfold enumerate.
  destruct r as [p|e]; [|reflexivity]. now destruct (has _ _).
Qed.

Lemma enumerate_ok (pkgs : list NuGet.LocalNuGetPackage) :
  forall done,
    NoDup (List.map NuGet.id (done ++ pkgs)) ->
    fold_left enumerate (List.map Ok pkgs)
      {| injectPackages := List.map (fun p => (NuGet.id p, p)) done; haveErrors := false |}
    = {| injectPackages := List.map (fun p => (NuGet.id p, p)) (done ++ pkgs);
         haveErrors := false |}.
Proof.
  induction pkgs as [|p pkgs IH]; intros done Hnd.
  - now rewrite app_nil_r.
  - cbn [List.map fold_left]. unfold enumerate at 2. cbn [injectPackages haveErrors].
    replace (has _ (NuGet.id p)) with false.
    + replace (List.map (fun p => (NuGet.id p, p)) done ++ [(NuGet.id p, p)])
        with (List.map (fun p => (NuGet.id p, p)) (done ++ [p]))
        by now rewrite List.map_app.
      rewrite IH by now rewrite <- app_assoc. now rewrite <- app_assoc.
    + symmetry. apply not_true_is_false. intros H. apply has_ids in H.
      rewrite List.map_app in Hnd. apply NoDup_app in Hnd as (_ & Hd & _).
      apply (Hd _ H). now left.
Qed.

Lemma enumerate_clean (loaded : list (Result NuGet.LocalNuGetPackage)) :
  forall done,
    NoDup (List.map NuGet.id done) ->
    haveErrors (fold_left enumerate loaded
                  {| injectPackages := List.map (fun p => (NuGet.id p, p)) done;
                     haveErrors := false |}) = false ->
    exists pkgs, loaded = List.map Ok pkgs /\ NoDup (List.map NuGet.id (done ++ pkgs)).
Proof.
  induction loaded as [|r loaded IH]; intros done Hnd.
  - intros _. exists []. now rewrite app_nil_r.
  - cbn [fold_left]. unfold enumerate at 2. cbn [injectPackages haveErrors].
    destruct r as [p|e].
    + destruct (has _ (NuGet.id p)) eqn:Hhas.
      * now rewrite errors_stay.
      * assert (Hp : NuGet.id p ∉ List.map NuGet.id done).
        { intros H. apply has_ids in H. congruence. }
        replace (List.map (fun p => (NuGet.id p, p)) done ++ [(NuGet.id p, p)])
          with (List.map (fun p => (NuGet.id p, p)) (done ++ [p]))
          by now rewrite List.map_app.
        intros H. apply IH in H as (pkgs & -> & Hnd').
        -- exists (p :: pkgs). split; [reflexivity|]. now rewrite <- app_assoc in Hnd'.
        -- rewrite List.map_app. apply NoDup_app. split; [exact Hnd|].
           split; [|apply NoDup_singleton].
           intros x Hx Hx'. apply list_elem_of_singleton in Hx'. now subst.
    + now rewrite errors_stay.
Qed.

(** X11.  main goes on to inject packages exactly when every package file
    could be loaded and no two of them have the same id; the packages are
    then kept under their ids, in the order they were found. *)
Theorem enumeratePackages_some (loaded : list (Result NuGet.LocalNuGetPackage))
    (found : list (jsstring * NuGet.LocalNuGetPackage)) :
  enumeratePackages loaded = Some found
  <-> exists pkgs,
        loaded = List.map Ok pkgs
        /\ NoDup (List.map NuGet.id pkgs)
        /\ found = List.map (fun p => (NuGet.id p, p)) pkgs.
Proof.
  unfold enumeratePackages. cbn zeta. split.
  - destruct (haveErrors _) eqn:E; [discriminate|]. intros [= <-].
    apply (enumerate_clean loaded []) in E as (pkgs & -> & Hnd); [|constructor].
    exists pkgs. split; [reflexivity|]. split; [exact Hnd|].
    pose proof (enumerate_ok pkgs [] Hnd) as H. cbn [List.map app] in H. now rewrite H.
  - intros (pkgs & -> & Hnd & ->).
    pose proof (enumerate_ok pkgs [] Hnd) as H. cbn [List.map app] in H. now rewrite H.
Qed.

Lemma names_differ (invocationId : jsstring) :
  js "setup-bonsai injected packages " ++ invocationId
  <> js "setup-bonsai cache " ++ invocationId.
Proof.
  intros H. apply (f_equal (fun l => l !! 13)) in H. vm_compute in H. discriminate.
Qed.

(** X12.  With a package cache root and an injected-packages path that are
    not empty, main builds its package sources without error: the source of
    the injected packages, when there are packages to inject, and then the
    source of the cache.  Their names differ, whatever the invocation id, so
    that the loop of [addPackageSources] that adds them never reports a
    repeated name; and none of them allows the update of an older source. *)
Theorem packageSources_distinct (invocationId packageCacheRoot injectedPackagesPath : jsstring)
    (size : nat) :
  packageCacheRoot <> [] -> injectedPackagesPath <> [] ->
  exists sources,
    packageSources invocationId packageCacheRoot injectedPackagesPath size = Ok sources
    /\ List.map NuGet.url sources
       = (if Nat.ltb 0 size then [injectedPackagesPath] else []) ++ [packageCacheRoot]
    /\ NoDup (List.map NuGet.name sources)
    /\ Forall (fun source => NuGet.allowUpdate source = false) sources
    /\ forall indentation front,
         insertSources indentation {| before := front; newSources := ∅ |} sources
         = Ok {| before := front ++ inserted (cloneNode indentation) sources;
                 newSources := byName sources |}.
Proof.
  intros Hroot Hinjected. unfold packageSources, NuGet.newNuGetPackageSource.
  destruct packageCacheRoot as [|c root]; [congruence|].
  destruct injectedPackagesPath as [|d injected]; [congruence|].
  change (js "setup-bonsai cache " ++ invocationId)
    with (115%N :: (js "etup-bonsai cache " ++ invocationId)).
  change (js "setup-bonsai injected packages " ++ invocationId)
    with (115%N :: (js "etup-bonsai injected packages " ++ invocationId)).
  cbn [bind].
  destruct (Nat.ltb 0 size); cbn [bind]; eexists; (split; [reflexivity|]);
    (split; [reflexivity|]).
  - assert (Hnd : NoDup [js "setup-bonsai injected packages " ++ invocationId;
                         js "setup-bonsai cache " ++ invocationId]).
    { repeat constructor; [|intros H; now apply elem_of_nil in H].
      intros H. apply list_elem_of_singleton in H. now apply names_differ in H. }
    split; [exact Hnd|]. split; [now repeat constructor|].
    intros ind front. now apply insertSources_ok.
  - assert (Hnd : NoDup [js "setup-bonsai cache " ++ invocationId]) by apply NoDup_singleton.
    split; [exact Hnd|]. split; [now repeat constructor|].
    intros ind front. now apply insertSources_ok.
Qed.

Lemma packageSources_distinct_witness :
  exists sources,
    packageSources (js "run-1") (js "/tmp/cache") (js "/tmp/injected") 2 = Ok sources
    /\ List.map NuGet.name sources
       = [js "setup-bonsai injected packages run-1"; js "setup-bonsai cache run-1"].
Proof.
  destruct (packageSources_distinct (js "run-1") (js "/tmp/cache") (js "/tmp/injected") 2)
    as (sources & Hrun & _); [discriminate|discriminate|].
  exists sources. split; [exact Hrun|].
  vm_compute in Hrun. injection Hrun as <-. reflexivity.
Defined.

End ActionTheorems.

(** ** bonsai.ts: packages without an entry *)

Module PackageInsertion.
Import JsString Dom XPath Tree XPathExtra Bonsai XPathFacts AttributeFacts AnchorFacts
  ManifestFacts.

Section Engine.
Context {unicode : CaseMapping}.

Section Manifest.
Variable m : Manifest.


Lemma sectionHits_none (section : string) (P : Node -> bool) (sections : list Node) :
  removedRecords section P sections = [] ->
  forall s, sectionHits section P (rootIndex m) s sections = [].
Proof.
  induction sections as [|sec sections IH]; intros H s; [reflexivity|].
  cbn [removedRecords flat_map] in H. apply app_eq_nil in H as [Hsec H].
  cbn [sectionHits]. rewrite (IH H). rewrite app_nil_r.
  destruct (isNamed section sec); [|reflexivity].
  clear -Hsec. generalize 0. induction (children sec) as [|c cs IHc]; intros k;
    [reflexivity|].
  cbn [List.filter recordHits] in *. destruct (P c); [discriminate|]. now apply IHc.
Qed.

Lemma entry_absent (packageId : jsstring) (sections : list Node) :
  wellShaped m sections ->
  entries packageId sections = [] ->
  select1Element packageSelector (manifestDoc m sections) {[ js "packageId" := packageId ]}
  = Ok None.
Proof.
  intros Hm Hnone.
  unfold select1Element, checkedSelect1, selectNodeSet, packageSelector.
  rewrite manifest_evaluate by (assumption || discriminate).
  now rewrite (sectionHits_none "Packages" _ sections Hnone).
Qed.

Lemma filter_none (P : Node -> bool) (l : list Node) :
  List.filter P l = [] <-> Forall (fun x => P x = false) l.
Proof.
  induction l as [|x l IH]; cbn; [split; [constructor|reflexivity]|].
  destruct (P x) eqn:E.
  - split; [discriminate|]. intros H. apply Forall_cons in H as [H _]. congruence.
  - rewrite IH. split; [now constructor|]. intros H. now apply Forall_cons in H as [_ H].
Qed.

Lemma entry_id (p : NuGet.LocalNuGetPackage) :
  attrValues (js "id") (HNode [] (packageEntry p)) = [NuGet.id p].
Proof. reflexivity. Qed.

Lemma entries_split (packageId : jsstring) (pre post : list Node) (sec : Node) :
  entries packageId (pre ++ sec :: post) = []
  <-> entries packageId pre = []
      /\ (if isNamed "Packages" sec then List.filter (isEntry packageId) (children sec)
          else []) = []
      /\ entries packageId post = [].
Proof.
  unfold entries, removedRecords. rewrite flat_map_app. cbn [flat_map]. split.
  - intros H. apply app_eq_nil in H as [H1 H]. now apply app_eq_nil in H as [H2 H3].
  - intros (-> & -> & ->). reflexivity.
Qed.

Lemma entries_after_insert (packageId : jsstring) (p : NuGet.LocalNuGetPackage)
    (pre post : list Node)
    (ns : option jsstring) (nm : jsstring) (attrs : list Attr) (cur : list Node)
    (d : jsstring) (j : nat) :
  entries packageId (pre ++ Element ns nm attrs cur :: post) = [] ->
  NuGet.id p <> packageId ->
  entries packageId
    (pre ++ Element ns nm attrs
              (take j cur
               ++ [Text d;
                   packageEntry p]
               ++ drop j cur) :: post) = [].
Proof.
  rewrite !entries_split. intros (Hpre & Hsec & Hpost) Hid.
  split; [exact Hpre|]. split; [|exact Hpost].
  change (isNamed "Packages" (Element ns nm attrs _))
    with (isNamed "Packages" (Element ns nm attrs cur)).
  destruct (isNamed "Packages" (Element ns nm attrs cur)); [|reflexivity].
  cbn [children] in *. apply filter_none in Hsec. apply filter_none.
  rewrite !Forall_app. split; [now apply Forall_take|]. split; [|now apply Forall_drop].
  repeat constructor. unfold isEntry. rewrite entry_id. cbn [existsb].
  unfold eqb. rewrite bool_decide_eq_false_2 by exact Hid. now rewrite andb_false_r.
Qed.

Lemma section_children (pre post : list Node)
    (ns : option jsstring) (nm : jsstring) (attrs : list Attr)
    (cur : list Node) :
  wellShaped m (pre ++ Element ns nm attrs cur :: post) ->
  Forall (fun c => mentions "PackageConfiguration" c = false) cur.
Proof.
  intros [_ Hall]. rewrite !Forall_app, Forall_cons in Hall.
  destruct Hall as (_ & _ & _ & Hsec & _).
  apply (mentions_children _ _ Hsec).
Qed.

Lemma wellShaped_insert (pre post : list Node)
    (ns : option jsstring) (nm : jsstring) (attrs : list Attr)
    (cur : list Node) (d : jsstring) (p : NuGet.LocalNuGetPackage) (j : nat) :
  wellShaped m (pre ++ Element ns nm attrs cur :: post) ->
  wellShaped m
    (pre ++ Element ns nm attrs
              (take j cur
               ++ [Text d;
                   packageEntry p]
               ++ drop j cur) :: post).
Proof.
  intros Hm. pose proof (section_children _ _ _ _ _ _ Hm) as Hcur.
  apply (wellShaped_replace m pre post (Element ns nm attrs cur)); [exact Hm|].
  rewrite !Forall_app. split; [now apply Forall_take|]. split; [|now apply Forall_drop].
  now repeat constructor.
Qed.

Section Run.
Variable pf : Platform.
Variable rootPath : list jsstring.

(** One package without an entry, with the insertion point at the child [j]. *)
Lemma injectPackage_before (pre post : list Node)
    (ns : option jsstring) (nm : jsstring) (attrs : list Attr)
    (cur : list Node) (indentation : Node) (st : Upsert) (p : NuGet.LocalNuGetPackage)
    (dirs : list (list jsstring)) (j : nat) :
  wellShaped m (pre ++ Element ns nm attrs cur :: post) ->
  bonsaiConfigDoc st = manifestDoc m (pre ++ Element ns nm attrs cur :: post) ->
  packagesNode st = Attached [rootIndex m; length pre] ->
  insertionPoint st = Some (Attached [rootIndex m; length pre; j]) ->
  entries (NuGet.id p) (pre ++ Element ns nm attrs cur :: post) = [] ->
  injectPackage pf rootPath indentation st p dirs
  = (dirs,
     Ok {| bonsaiConfigDoc :=
             manifestDoc m
               (pre ++ Element ns nm attrs
                         (take j cur
                          ++ [cloneNode indentation;
                              packageEntry p]
                          ++ drop j cur) :: post);
           packagesNode := Attached [rootIndex m; length pre];
           insertionPoint := Some (Attached [rootIndex m; length pre; j + 2]) |}).
Proof.
  intros Hm Hdoc Hnode Hpoint Hnone. unfold injectPackage. cbn zeta.
  rewrite Hdoc, (entry_absent _ _ Hm Hnone), Hnode, Hpoint.
  unfold splitLast. cbn [last removelast].
  rewrite bool_decide_eq_true_2 by reflexivity.
  rewrite (updateAt_section m pre post (Element ns nm attrs cur)).
  cbn [setChildren children relocate below]. rewrite !Nat.eqb_refl, Nat.ltb_irrefl.
  reflexivity.
Qed.

(** One package without an entry, inserted at the very end. *)
Lemma injectPackage_last (pre post : list Node)
    (ns : option jsstring) (nm : jsstring) (attrs : list Attr)
    (cur : list Node) (indentation : Node) (st : Upsert) (p : NuGet.LocalNuGetPackage)
    (dirs : list (list jsstring)) :
  wellShaped m (pre ++ Element ns nm attrs cur :: post) ->
  bonsaiConfigDoc st = manifestDoc m (pre ++ Element ns nm attrs cur :: post) ->
  packagesNode st = Attached [rootIndex m; length pre] ->
  insertionPoint st = None ->
  entries (NuGet.id p) (pre ++ Element ns nm attrs cur :: post) = [] ->
  injectPackage pf rootPath indentation st p dirs
  = (dirs,
     Ok {| bonsaiConfigDoc :=
             manifestDoc m
               (pre ++ Element ns nm attrs
                         (cur ++ [cloneNode indentation;
                                  packageEntry p]) :: post);
           packagesNode := Attached [rootIndex m; length pre];
           insertionPoint := None |}).
Proof.
  intros Hm Hdoc Hnode Hpoint Hnone. unfold injectPackage. cbn zeta.
  rewrite Hdoc, (entry_absent _ _ Hm Hnone), Hnode, Hpoint.
  now rewrite (updateAt_section m pre post (Element ns nm attrs cur)).
Qed.

Lemma fresh_entries (pkgs : list NuGet.LocalNuGetPackage) (p : NuGet.LocalNuGetPackage)
    (pre post : list Node)
    (ns : option jsstring) (nm : jsstring) (attrs : list Attr) (cur : list Node)
    (d : jsstring) (j : nat) :
  NoDup (List.map NuGet.id (p :: pkgs)) ->
  Forall (fun q => entries (NuGet.id q) (pre ++ Element ns nm attrs cur :: post) = []) pkgs ->
  Forall (fun q =>
            entries (NuGet.id q)
              (pre ++ Element ns nm attrs
                        (take j cur
                         ++ [Text d;
                             packageEntry p]
                         ++ drop j cur) :: post) = []) pkgs.
Proof.
  intros Hnd Hall. cbn [List.map] in Hnd. apply NoDup_cons in Hnd as [Hp _].
  rewrite Forall_forall in *. intros q Hq. apply entries_after_insert; [now apply Hall|].
  intros E. apply Hp. rewrite E. now apply list_elem_of_In, in_map, list_elem_of_In.
Qed.

Lemma injectEach_before (pkgs : list NuGet.LocalNuGetPackage) :
  forall (cur : list Node) (j : nat) (st : Upsert) (pre post : list Node)
      (ns : option jsstring) (nm : jsstring)
         (attrs : list Attr) (d : jsstring) (dirs : list (list jsstring)),
    wellShaped m (pre ++ Element ns nm attrs cur :: post) ->
    bonsaiConfigDoc st = manifestDoc m (pre ++ Element ns nm attrs cur :: post) ->
    packagesNode st = Attached [rootIndex m; length pre] ->
    insertionPoint st = Some (Attached [rootIndex m; length pre; j]) ->
    j <= length cur ->
    NoDup (List.map NuGet.id pkgs) ->
    Forall (fun q => entries (NuGet.id q) (pre ++ Element ns nm attrs cur :: post) = []) pkgs ->
    injectEach pf rootPath (Text d) st pkgs dirs
    = (dirs,
       Ok {| bonsaiConfigDoc :=
               manifestDoc m
                 (pre ++ Element ns nm attrs
                           (take j cur ++ packageEntries (Text d) pkgs ++ drop j cur)
                         :: post);
             packagesNode := Attached [rootIndex m; length pre];
             insertionPoint :=
               Some (Attached [rootIndex m; length pre; j + 2 * length pkgs]) |}).
Proof.
  induction pkgs as [|p pkgs IH];
    intros cur j st pre post ns nm attrs d dirs Hm Hdoc Hnode Hpoint Hj Hnd Hall.
  - cbn [injectEach packageEntries flat_map app length]. rewrite take_drop, Nat.add_0_r.
    destruct st. cbn in *. now subst.
  - cbn [injectEach]. apply Forall_cons in Hall as [Hp Hall].
    rewrite (injectPackage_before pre post ns nm attrs cur _ st p dirs j) by assumption.
    set (cur1 := take j cur ++ _ ++ drop j cur).
    rewrite (IH cur1 (j + 2) _ pre post ns nm attrs d dirs); try reflexivity.
    + assert (Htake : take (j + 2) cur1
                      = take j cur
                        ++ [Text d;
                            packageEntry p]).
      { unfold cur1. rewrite app_assoc. apply take_app_length'.
        rewrite length_app, length_take. cbn. lia. }
      assert (Hdrop : drop (j + 2) cur1 = drop j cur).
      { unfold cur1. rewrite app_assoc. apply drop_app_length'.
        rewrite length_app, length_take. cbn. lia. }
      rewrite Htake, Hdrop. cbn [packageEntries flat_map length].
      fold (packageEntries (Text d) pkgs). rewrite <- !app_assoc. cbn [app].
      replace (j + 2 + 2 * length pkgs) with (j + 2 * S (length pkgs)) by lia.
      reflexivity.
    + now apply wellShaped_insert.
    + unfold cur1. rewrite !length_app, length_take, length_drop. cbn. lia.
    + cbn [List.map] in Hnd. now apply NoDup_cons in Hnd as [_ Hnd].
    + now apply fresh_entries.
Qed.

Lemma fresh_entries_last (pkgs : list NuGet.LocalNuGetPackage) (p : NuGet.LocalNuGetPackage)
    (pre post : list Node)
    (ns : option jsstring) (nm : jsstring) (attrs : list Attr) (cur : list Node)
    (d : jsstring) :
  NoDup (List.map NuGet.id (p :: pkgs)) ->
  Forall (fun q => entries (NuGet.id q) (pre ++ Element ns nm attrs cur :: post) = []) pkgs ->
  Forall (fun q =>
            entries (NuGet.id q)
              (pre ++ Element ns nm attrs
                        (cur ++ [Text d;
                                 packageEntry p]) :: post) = [])
         pkgs.
Proof.
  intros Hnd Hall.
  pose proof (fresh_entries pkgs p pre post ns nm attrs cur d (length cur) Hnd Hall) as H.
  now rewrite firstn_all, drop_all, app_nil_r in H.
Qed.

Lemma wellShaped_append (pre post : list Node)
    (ns : option jsstring) (nm : jsstring) (attrs : list Attr)
    (cur : list Node) (d : jsstring) (p : NuGet.LocalNuGetPackage) :
  wellShaped m (pre ++ Element ns nm attrs cur :: post) ->
  wellShaped m
    (pre ++ Element ns nm attrs
              (cur ++ [Text d;
                       packageEntry p])
         :: post).
Proof.
  intros Hm. pose proof (wellShaped_insert pre post ns nm attrs cur d p (length cur) Hm) as H.
  now rewrite firstn_all, drop_all, app_nil_r in H.
Qed.

Lemma injectEach_last (pkgs : list NuGet.LocalNuGetPackage) :
  forall (cur : list Node) (st : Upsert) (pre post : list Node)
      (ns : option jsstring) (nm : jsstring)
         (attrs : list Attr) (d : jsstring) (dirs : list (list jsstring)),
    wellShaped m (pre ++ Element ns nm attrs cur :: post) ->
    bonsaiConfigDoc st = manifestDoc m (pre ++ Element ns nm attrs cur :: post) ->
    packagesNode st = Attached [rootIndex m; length pre] ->
    insertionPoint st = None ->
    NoDup (List.map NuGet.id pkgs) ->
    Forall (fun q => entries (NuGet.id q) (pre ++ Element ns nm attrs cur :: post) = []) pkgs ->
    injectEach pf rootPath (Text d) st pkgs dirs
    = (dirs,
       Ok {| bonsaiConfigDoc :=
               manifestDoc m
                 (pre ++ Element ns nm attrs (cur ++ packageEntries (Text d) pkgs) :: post);
             packagesNode := Attached [rootIndex m; length pre];
             insertionPoint := None |}).
Proof.
  induction pkgs as [|p pkgs IH];
    intros cur st pre post ns nm attrs d dirs Hm Hdoc Hnode Hpoint Hnd Hall.
  - cbn [injectEach packageEntries flat_map]. rewrite app_nil_r.
    destruct st. cbn in *. now subst.
  - cbn [injectEach]. apply Forall_cons in Hall as [Hp Hall].
    rewrite (injectPackage_last pre post ns nm attrs cur _ st p dirs) by assumption.
    rewrite (IH (cur ++ [Text d;
                         packageEntry p])
                _ pre post ns nm attrs d dirs); try reflexivity.
    + cbn [packageEntries flat_map]. fold (packageEntries (Text d) pkgs).
      now rewrite <- app_assoc.
    + now apply wellShaped_append.
    + cbn [List.map] in Hnd. now apply NoDup_cons in Hnd as [_ Hnd].
    + now apply fresh_entries_last.
Qed.

(** X14.  Packages that have no entry yet.  In a manifest whose first
    section named [Packages] has the children [cs], upserting packages with
    ids that differ from one another, none of which is the id of an entry,
    removes no directory and leaves the manifest with an entry for each
    package, in the order given and each after a copy of the indentation
    sampled, at the end of that section: before its last child when that is a
    text node (the indentation of the end tag), after it otherwise.  Nothing
    else in the manifest changes. *)
Theorem new_packages_appended (pre post : list Node)
    (ns : option jsstring) (nm : jsstring) (attrs : list Attr)
    (cs : list Node) (indentation : Node) (pkgs : list NuGet.LocalNuGetPackage)
    (dirs : list (list jsstring)) :
  wellShaped m (pre ++ Element ns nm attrs cs :: post) ->
  Forall (fun x => isNamed "Packages" x = false) pre ->
  isNamed "Packages" (Element ns nm attrs cs) = true ->
  referenceIndentation bonsaiConfigPackagesIndentSelector
    (manifestDoc m (pre ++ Element ns nm attrs cs :: post)) = Ok indentation ->
  NoDup (List.map NuGet.id pkgs) ->
  Forall (fun p => entries (NuGet.id p) (pre ++ Element ns nm attrs cs :: post) = []) pkgs ->
  upsertPackages pf rootPath (manifestDoc m (pre ++ Element ns nm attrs cs :: post)) pkgs dirs
  = (dirs,
     Ok (manifestDoc m
           (pre ++ Element ns nm attrs (beforeTrailingText cs (packageEntries indentation pkgs))
                :: post))).
Proof.
  intros Hm Hpre Hsec Hind Hnd Hnone. unfold upsertPackages.
  rewrite (packages_select m pre post _ Hm Hpre Hsec), Hind.
  destruct (indentation_is_text _ _ _ Hind) as [d ->].
  unfold beforeTrailingText.
  destruct (last cs) as [[| | t | | |]|] eqn:Hlast;
    try (erewrite injectEach_last by (eassumption || reflexivity); reflexivity).
  erewrite (injectEach_before pkgs cs (length cs - 1)); try eassumption; try reflexivity.
  lia.
Qed.


End Run.

End Manifest.

End Engine.

#[local] Existing Instance asciiOnly.

#[local] Open Scope string_scope.

Lemma new_packages_appended_witness :
  let package (i v : string) :=
    Element None (js "Package")
      [{| namespaceURI := None; name := js "id"; value := js i |};
       {| namespaceURI := None; name := js "version"; value := js v |}] [] in
  let m := {| extra := None; prolog := []; rootNamespace := None;
              rootName := js "PackageConfiguration"; rootAttributes := [];
              epilog := [] |} in
  let indent := Text (10%N :: js "    ") in
  let manifest (entries : list Node) :=
    manifestDoc m
      ([Text (10%N :: js "  ")]
         ++ Element None (js "Packages") [] (entries ++ [Text (10%N :: js "  ")]) :: []) in
  upsertPackages posix [js "env"] (manifest [indent; package "A" "1.0.0"])
    [{| NuGet.id := js "B"; NuGet.version := js "2.0.0" |};
     {| NuGet.id := js "C"; NuGet.version := js "3.0.0" |}] []
  = ([], Ok (manifest [indent; package "A" "1.0.0";
                       indent; package "B" "2.0.0";
                       indent; package "C" "3.0.0"])).
Proof.
  intros package m indent manifest. unfold manifest.
  rewrite (new_packages_appended m posix [js "env"] [Text (10%N :: js "  ")] []
             None (js "Packages") [] _ indent).
  - reflexivity.
  - split; [reflexivity|]. now repeat constructor.
  - now repeat constructor.
  - reflexivity.
  - vm_compute. reflexivity.
  - apply (bool_decide_unpack _). vm_compute. exact I.
  - now repeat constructor.
Defined.


#[local] Close Scope string_scope.

End PackageInsertion.


(** ** bonsai.ts: the version of Bonsai an environment asks for *)

Module EnvironmentTheorems.
Import JsString Dom XPath Tree XPathExtra Bonsai XPathFacts ManifestFacts Environment.

Section Engine.
Context {unicode : CaseMapping}.

Lemma ascending_flat_map (f : Hit -> list Hit) (l : list Hit) :
  ascending l ->
  (forall h, h ∈ l -> ascending (f h)) ->
  (forall a b x y, a ∈ l -> b ∈ l -> compareHit b a = Gt -> x ∈ f a -> y ∈ f b ->
     compareHit y x = Gt) ->
  ascending (flat_map f l).
Proof.
  induction 1 as [|a l Hs IH Ha]; intros Hf Hab; cbn [flat_map]; [constructor|].
  apply ascending_app.
  - apply Hf. now left.
  - apply IH.
    + intros h Hh. apply Hf. now right.
    + intros a' b x y Ha' Hb. apply Hab; now right.
  - intros x y Hx Hy. apply list_elem_of_In, in_flat_map in Hy as (b & Hb & Hy).
    apply list_elem_of_In in Hb, Hy. rewrite Forall_forall in Ha.
    apply (Hab a b x y); try assumption; [now left|now right|now apply Ha].
Qed.

Section Manifest.
Variable m : Manifest.

Lemma records_raw (vars : Variables) (section record : string) (pr : Pred)
    (sections : list Node) :
  wellShaped m sections -> pr <> PLast ->
  evalSteps vars [anywhere; childNamed "PackageConfiguration" [];
                  childNamed section []; childNamed record [pr]]
    [HNode [] (manifestDoc m sections)]
  = sectionHits section (fun c => isNamed record c && passes vars pr c)
      (rootIndex m) 0 sections.
Proof.
  intros Hm Hpr.
  change [anywhere; childNamed "PackageConfiguration" []; childNamed section [];
          childNamed record [pr]]
    with ([anywhere; childNamed "PackageConfiguration" []]
            ++ [childNamed section []] ++ [childNamed record [pr]]).
  rewrite app_assoc, !evalSteps_snoc, (root_match m vars sections Hm).
  cbn [flat_map]. rewrite app_nil_r, applyStep_childNamed. cbn [children].
  pose proof (sections_step m vars section record pr sections Hpr 0) as Hs.
  cbn [Nat.add] in Hs. exact Hs.
Qed.

Lemma recordHits_flat_map {A : Type} (g : Hit -> list A) (g' : Node -> list A)
    (P : Node -> bool) (sec : list nat) (cs : list Node) :
  (forall p c, g (HNode p c) = g' c) ->
  forall i, flat_map g (recordHits P sec i cs) = flat_map g' (List.filter P cs).
Proof.
  intros Hg. induction cs as [|c cs IH]; intros i; [reflexivity|].
  cbn [recordHits List.filter]. rewrite flat_map_app, IH.
  destruct (P c); cbn [flat_map app]; [|reflexivity]. now rewrite Hg, app_nil_r.
Qed.

Lemma sectionHits_flat_map {A : Type} (g : Hit -> list A) (g' : Node -> list A)
    (section : string) (P : Node -> bool) (sections : list Node) :
  (forall p c, g (HNode p c) = g' c) ->
  forall s,
    flat_map g (sectionHits section P (rootIndex m) s sections)
    = flat_map g' (removedRecords section P sections).
Proof.
  intros Hg. induction sections as [|sec sections IH]; intros s; [reflexivity|].
  cbn [sectionHits removedRecords flat_map]. fold (removedRecords section P sections).
  rewrite !flat_map_app, IH. f_equal.
  destruct (isNamed section sec); [|reflexivity]. now apply recordHits_flat_map.
Qed.

Lemma versions_ascending (vars : Variables) (section : string) (P : Node -> bool)
    (st : Step) (sections : list Node) :
  axis st = attribute ->
  ascending (flat_map (applyStep vars st)
               (sectionHits section P (rootIndex m) 0 sections)).
Proof.
  intros Hax. apply ascending_flat_map.
  - apply ascending_sectionHits.
  - intros h _. apply ascending_applyStep. now rewrite Hax.
  - intros a b x y Ha Hb Hab Hx Hy.
    apply sectionHits_elem in Ha as (s & k & sec & c & -> & _).
    apply sectionHits_elem in Hb as (s' & k' & sec' & c' & -> & _).
    apply applyStep_elem in Hx as [Hx _], Hy as [Hy _]. rewrite Hax in Hx, Hy.
    cbn [axisHits attributeHits] in Hx, Hy.
    destruct c; try (now apply elem_of_nil in Hx).
    destruct c'; try (now apply elem_of_nil in Hy).
    apply elem_of_lookup_imap in Hx as (i & a & -> & _).
    apply elem_of_lookup_imap in Hy as (j & b & -> & _).
    cbn [compareHit] in *. rewrite Hab. cbn [isPrefix].
    now rewrite !andb_false_r.
Qed.

Lemma flat_map_twice {A B C : Type} (f : A -> list B) (g : B -> list C) (l : list A) :
  flat_map g (flat_map f l) = flat_map (fun x => flat_map g (f x)) l.
Proof.
  induction l as [|x l IH]; [reflexivity|]. cbn [flat_map]. now rewrite flat_map_app, IH.
Qed.

Lemma attribute_hit (vars : Variables) (st : Step) (hits : list Hit) (x : Hit) :
  axis st = attribute -> x ∈ flat_map (applyStep vars st) hits ->
  exists p i a, x = HAttr p i a.
Proof.
  intros Hax Hx. apply list_elem_of_In, in_flat_map in Hx as (h & _ & Hx).
  apply list_elem_of_In, applyStep_elem in Hx as [Hx _]. rewrite Hax in Hx.
  destruct h as [p []|]; cbn in Hx; try (now apply elem_of_nil in Hx).
  apply elem_of_lookup_imap in Hx as (i & a & -> & _). eauto.
Qed.

(** The attribute the constructor reads. *)
Lemma version_selected (packageId : jsstring) (sections : list Node) :
  wellShaped m sections ->
  match select1Attribute packageVersionSelector (manifestDoc m sections)
          {[ js "packageId" := packageId ]} with
  | Ok None => head (versionsOf packageId sections) = None
  | Ok (Some (HAttr _ _ a)) => head (versionsOf packageId sections) = Some (value a)
  | _ => False
  end.
Proof.
  intros Hm.
  unfold select1Attribute, checkedSelect1, selectNodeSet, packageVersionSelector.
  cbn [evaluate].
  set (st := {| axis := attribute; test := nameTest (js "version"); preds := [] |}).
  change [anywhere; childNamed "PackageConfiguration" []; childNamed "Packages" [];
          childNamed "Package" [PAttrEq (js "id") (js "packageId")]; st]
    with ([anywhere; childNamed "PackageConfiguration" []; childNamed "Packages" [];
           childNamed "Package" [PAttrEq (js "id") (js "packageId")]] ++ [st]).
  rewrite evalSteps_snoc, records_raw by (assumption || discriminate).
  rewrite docOrder_ascending by (now apply versions_ascending).
  assert (Hv : versionsOf packageId sections
               = flat_map valueOf
                   (flat_map (applyStep {[ js "packageId" := packageId ]} st)
                      (sectionHits "Packages"
                         (fun c => isNamed "Package" c
                                   && passes {[ js "packageId" := packageId ]}
                                        (PAttrEq (js "id") (js "packageId")) c)
                         (rootIndex m) 0 sections))).
  { rewrite flat_map_twice. symmetry.
    apply (sectionHits_flat_map _ (fun c => attrValues (js "version") (HNode [] c))).
    intros p c. rewrite <- (attrValues_loc (js "version") p c). reflexivity. }
  rewrite Hv.
  pose proof (attribute_hit {[ js "packageId" := packageId ]} st
                (sectionHits "Packages"
                   (fun c => isNamed "Package" c
                             && passes {[ js "packageId" := packageId ]}
                                  (PAttrEq (js "id") (js "packageId")) c)
                   (rootIndex m) 0 sections)) as Hattr.
  destruct (flat_map (applyStep _ st) _) as [|x l]; [reflexivity|].
  destruct (Hattr x eq_refl) as (p & i & a & ->); [left|]. reflexivity.
Qed.

Section Libraries.
Variable parseFromString : jsstring -> option (list Node).
Variable pf : Platform.
Variable SemVer : Type.
Variable semverParse : jsstring -> option SemVer.

(** X16.  The version of Bonsai an environment asks for.  When both
    configuration files exist and Bonsai.config parses to a manifest, the
    constructor reads the first [version] attribute, in document order, of
    the entries of the sections named [Packages] whose [id] is [Bonsai],
    letter for letter: it fails for want of a version when there is none, and
    for an invalid version when [semver.parse] refuses the text. *)
Theorem desired_version (root : list jsstring) (content nuget : jsstring)
    (sections : list Node) :
  Util.parseXml parseFromString pf content = Ok (manifestDoc m sections) ->
  wellShaped m sections ->
  newBonsaiEnvironment parseFromString pf SemVer semverParse root
    (Some content) (Some nuget)
  = match head (versionsOf (js "Bonsai") sections) with
    | None => inl NoBonsaiVersion
    | Some text =>
        match semverParse text with
        | Some version => inr {| rootPath := root; bonsaiVersion := version |}
        | None => inl (InvalidBonsaiVersion text)
        end
    end.
Proof.
  intros Hparse Hm. unfold newBonsaiEnvironment. rewrite Hparse.
  pose proof (version_selected (js "Bonsai") sections Hm) as H.
  destruct (select1Attribute _ _ _) as [[[p c|p i a]|]|e]; try contradiction;
    now rewrite H.
Qed.

End Libraries.

End Manifest.

End Engine.

#[local] Existing Instance asciiOnly.

#[local] Open Scope string_scope.

(** A manifest with four entries: [bonsai], which is another id; [Bonsai]
    without a version; [Bonsai] with [n:version] in a namespace, which
    [@version] does not select, and the version 2.8.1; [Bonsai] 2.9.0. *)
Lemma desired_version_witness :
  let package (i v : string) :=
    Element None (js "Package")
      [{| namespaceURI := None; name := js "id"; value := js i |};
       {| namespaceURI := None; name := js "version"; value := js v |}] [] in
  let sections :=
    [Element None (js "Packages") []
       [package "bonsai" "1.0.0";
        Element None (js "Package")
          [{| namespaceURI := None; name := js "id"; value := js "Bonsai" |}] [];
        Element None (js "Package")
          [{| namespaceURI := None; name := js "id"; value := js "Bonsai" |};
           {| namespaceURI := Some (js "urn:n"); name := js "n:version";
              value := js "9.9.9" |};
           {| namespaceURI := None; name := js "version"; value := js "2.8.1" |}] [];
        package "Bonsai" "2.9.0"]] in
  let parser := fun _ : jsstring => Some [Element None (js "PackageConfiguration") [] sections] in
  newBonsaiEnvironment parser posix jsstring (fun text => Some text) [js "env"]
    (Some (js "<PackageConfiguration />")) (Some (js "<configuration />"))
  = inr {| rootPath := [js "env"]; bonsaiVersion := js "2.8.1" |}.
Proof.
  intros package sections parser.
  rewrite (desired_version
             {| extra := Some {| hadBom := false; endsWithNewLine := false;
                                 lineEndings := [JsString.LF] |};
                prolog := []; rootNamespace := None; rootName := js "PackageConfiguration";
                rootAttributes := []; epilog := [] |}
             parser posix jsstring (fun text => Some text) [js "env"]
             (js "<PackageConfiguration />") (js "<configuration />") sections).
  - reflexivity.
  - reflexivity.
  - split; [reflexivity|]. now repeat constructor.
Defined.

#[local] Close Scope string_scope.

End EnvironmentTheorems.

(** ** util.ts: what xmlToString writes *)

Module SerializeTheorems.
Import JsString Dom Util JsStringFacts.

Lemma bareClose_snoc (s : jsstring) (c : jschar) :
  N.eqb 62 c = false ->
  forall prev, bareClose prev s = false -> bareClose prev (s ++ [c]) = false.
Proof.
  intros Hc. induction s as [|x s IH]; intros prev H.
  - cbn [app bareClose]. rewrite startsWith_close. cbn. now rewrite andb_false_r.
  - cbn [app bareClose] in *. apply orb_false_elim in H as [H1 H2].
    rewrite (IH _ H2), orb_false_r.
    rewrite startsWith_close in H1 |- *.
    destruct s as [|y s]; [|exact H1].
    cbn. rewrite ?Hc. cbn. now rewrite ?andb_false_r.
Qed.

Lemma startsWith_crlf (s : jsstring) :
  startsWith (flat_map (fun x => if N.eqb LF x then [CR; LF] else [x]) s) [62%N]
  = startsWith s [62%N].
Proof.
  destruct s as [|d s]; [reflexivity|]. cbn [flat_map].
  destruct (N.eqb_spec LF d) as [<-|Hd]; reflexivity.
Qed.

Lemma bareClose_crlf (s : jsstring) :
  forall prev,
    bareClose prev s = false ->
    bareClose prev (flat_map (fun x => if N.eqb LF x then [CR; LF] else [x]) s) = false.
Proof.
  induction s as [|c s IH]; intros prev H; [reflexivity|].
  cbn [bareClose flat_map] in *. apply orb_false_elim in H as [H1 H2].
  destruct (N.eqb_spec LF c) as [<-|Hc].
  - cbn [app bareClose]. rewrite (IH _ H2). reflexivity.
  - cbn [app bareClose]. rewrite (IH _ H2), orb_false_r.
    rewrite startsWith_close in H1 |- *. now rewrite startsWith_crlf.
Qed.

Section Xmldom.
Variable serializeToString : Node -> jsstring.

(** X17.  Whatever the XML library writes, the text [xmlToString] gives has
    no tag end [/>] without a space before it: every self-closing tag is
    written the way .NET writes it. *)
Theorem xmlToString_spaces_tag_ends (xml : Node) :
  bareClose None (xmlToString serializeToString xml) = false.
Proof.
  unfold xmlToString. cbn zeta.
  set (r1 := replaceAll (serializeToString xml) (js "/>") (js " />")).
  assert (H1 : forall prev, bareClose prev r1 = false)
    by apply (replaceAll_close_spaced (serializeToString xml)).
  destruct (extraOf xml) as [e|]; [|apply H1].
  set (r2 := if hadBom e then BOM :: r1 else r1).
  assert (H2 : forall prev, bareClose prev r2 = false).
  { intros prev. unfold r2. destruct (hadBom e); [|apply H1].
    cbn [bareClose]. now rewrite H1, startsWith_close. }
  set (r3 := if endsWithNewLine e then r2 ++ [LF] else r2).
  assert (H3 : forall prev, bareClose prev r3 = false).
  { intros prev. unfold r3. destruct (endsWithNewLine e); [|apply H2].
    now apply bareClose_snoc. }
  destruct (eqb (lineEndings e) [CR; LF]); [|apply H3].
  rewrite replaceAll_char. now apply bareClose_crlf.
Qed.

Lemma crlf_no_lone (s : jsstring) :
  forall prev,
    loneLineFeed prev (flat_map (fun x => if N.eqb LF x then [CR; LF] else [x]) s) = false.
Proof.
  induction s as [|c s IH]; intros prev; [reflexivity|].
  cbn [flat_map]. destruct (N.eqb_spec LF c) as [<-|Hc].
  - cbn [app loneLineFeed]. rewrite IH.
    change (N.eqb CR LF) with false. change (N.eqb LF LF) with true.
    rewrite (bool_decide_eq_true_2 (Some CR = Some CR)) by reflexivity.
    reflexivity.
  - cbn [app loneLineFeed]. rewrite IH.
    replace (N.eqb c LF) with false by (symmetry; apply N.eqb_neq; congruence).
    reflexivity.
Qed.

(** X18.  For a document whose line endings were recorded as CRLF, every
    line feed of the text [xmlToString] gives follows a carriage return,
    the one it appends for the final line included. *)
Theorem xmlToString_crlf (e : option Expando) (childNodes : list Node) (x : Expando) :
  e = Some x -> lineEndings x = [CR; LF] ->
  loneLineFeed None (xmlToString serializeToString (Document e childNodes)) = false.
Proof.
  intros -> Hx. unfold xmlToString. cbn zeta. cbn [extraOf]. rewrite Hx.
  unfold eqb. rewrite bool_decide_eq_true_2 by reflexivity.
  rewrite replaceAll_char. apply crlf_no_lone.
Qed.

End Xmldom.

Lemma xmlToString_crlf_witness :
  let x := {| hadBom := false; endsWithNewLine := true; lineEndings := [CR; LF] |} in
  xmlToString (fun _ => js "<a>" ++ LF :: js "</a>") (Document (Some x) [])
  = js "<a>" ++ CR :: LF :: js "</a>" ++ [CR; LF]
  /\ loneLineFeed None
       (xmlToString (fun _ => js "<a>" ++ LF :: js "</a>") (Document (Some x) [])) = false.
Proof.
  intros x. split; [reflexivity|].
  now apply (xmlToString_crlf (fun _ => js "<a>" ++ LF :: js "</a>") (Some x) [] x).
Defined.

End SerializeTheorems.

(** ** bonsai.ts: the package location of the clean-up *)

Module FrameTheorems.
Import JsString Dom XPath Tree XPathExtra Bonsai.

Section Engine.
Context {unicode : CaseMapping}.

Lemma replaceAll_char_removes (s rep : jsstring) (c : jschar) :
  c ∉ rep -> c ∉ replaceAll s [c] rep.
Proof.
  intros Hrep. rewrite JsStringFacts.replaceAll_char.
  induction s as [|x s IH]; cbn [flat_map]; [apply not_elem_of_nil|].
  rewrite elem_of_app. intros [H|H]; [|now apply IH].
  destruct (N.eqb_spec c x) as [->|Hx]; [now apply Hrep|].
  apply list_elem_of_singleton in H. congruence.
Qed.

Section Xmldom.
Variable pf : Platform.
Variable rootPath : list jsstring.

(** X20.  The package location handed to the clean-up queries is written
    with forward slashes only, on either platform and whatever the id and
    the version of the replaced entry, and it ends with a slash. *)
Theorem replacePackagePathLocal_slashes (replaceId replaceVersion : jsstring) :
  (92%N ∉ replacePackagePathLocal pf rootPath replaceId replaceVersion)
  /\ endsWith (replacePackagePathLocal pf rootPath replaceId replaceVersion) [47%N] = true.
Proof.
  unfold replacePackagePathLocal. cbn zeta. split.
  - rewrite elem_of_app. intros [H|H].
    + revert H. apply replaceAll_char_removes.
      intros H. apply list_elem_of_singleton in H. discriminate.
    + apply list_elem_of_singleton in H. discriminate.
  - rewrite JsStringFacts.endsWith_snoc. reflexivity.
Qed.

End Xmldom.

End Engine.

End FrameTheorems.

(** ** xpath-extra.ts: the single-result selectors on no match *)

Module Select1Theorems.
Import JsString Dom XPath Tree XPathExtra XPathExtraFacts.

Section Engine.
Context {unicode : CaseMapping}.

(** X21.  A single-result selector returns null exactly when the query gives
    an empty node set, whatever kind of node was expected; and the error for
    a result without a node type is never thrown. *)
Theorem select1_null_iff (expression : Expr) (node : Node) (expectedType : option N)
    (options : SelectOptions) :
  (checkedSelect1 expression node expectedType options = Ok None
   <-> selectNodeSet expression node options = XNodeSet [])
  /\ (forall expected,
        checkedSelect1 expression node expectedType options
        <> Throw (NonsensicalResult expected)).
Proof.
  unfold checkedSelect1. cbn zeta.
  destruct (selectNodeSet expression node options) as [nodes| | |];
    try (split; [split; discriminate|discriminate]).
  destruct nodes as [|first more]; cbn [head].
  - split; [split; reflexivity|discriminate].
  - rewrite hitType_nonzero. cbn [negb].
    destruct (match expectedType with None => true | Some _ => _ end);
      (split; [split; discriminate|discriminate]).
Qed.

End Engine.

End Select1Theorems.
